(** * Style3D/block: the GPU BVH pipeline ([src/block/bvh], [src/block/aabb.py])

    A shallow embedding of the device kernels of [kernels.py] and of the
    host-side orchestrator [Bvh] of [bvh.py], followed by the theorems that
    settle the properties claimed about them.

    Conventions.
    - Warp [int] values (int32) are modelled in [Z].  Every theorem that
      depends on index arithmetic bounds the leaf count by [2^30], the
      range in which the node count [2N-1] is an int32 and no operation of
      the kernels leaves the int32 range.
    - A [wp.array] is a [list]; it is read with [aget] and written with
      [aset], both indexed by a [Z].  The device code performs no bounds
      check; an access outside the buffer reads the default value and
      writes nothing in this model.
    - The coordinates of a [wp.vec3] are non-NaN float32 values.  The BVH
      pipeline only ever combines them with [wp.min] and [wp.max], so they
      are kept abstract: a carrier with a commutative, associative [fmin]
      and [fmax] (class [Scalar]).
    - A kernel whose threads touch pairwise distinct cells is launched by
      running the thread bodies one after the other, in an arbitrary order
      of the thread ids.  The bottom-up refit kernel, whose threads
      synchronise through atomics, gets a small-step interleaving
      semantics of its own. *)

From Stdlib Require Import ZArith Lia Bool Sorted.
From stdpp Require Import base tactics option list numbers strings.

Local Open Scope Z_scope.

(* ===================================================================== *)
(** * Part I: the embedding                                                *)
(* ===================================================================== *)

(** ** Device arrays *)

Definition aget {A} `{Inhabited A} (a : list A) (i : Z) : A :=
  if 0 <=? i then a !!! Z.to_nat i else inhabitant.

Definition aset {A} (a : list A) (i : Z) (v : A) : list A :=
  if 0 <=? i then <[Z.to_nat i := v]> a else a.

Definition alen {A} (a : list A) : Z := Z.of_nat (length a).

(** [wp.zeros(n)] and [array.fill_(v)]. *)
Definition zeros {A} (zero : A) (n : Z) : list A :=
  replicate (Z.to_nat n) zero.

Definition fill_ {A} (a : list A) (v : A) : list A :=
  replicate (length a) v.

(** A launch of [dim] threads whose bodies are run in the order [order]. *)
Definition launch {St} (body : Z -> St -> St) (order : list Z) (s : St) : St :=
  foldl (fun s tid => body tid s) s order.

(** The same for thread bodies that contain loops (and so take fuel). *)
Definition launchM {St} (body : Z -> St -> option St) (order : list Z)
    (s : St) : option St :=
  foldl (fun s tid => s ≫= body tid) (Some s) order.

Definition launch_order (dim : Z) (order : list Z) : Prop :=
  order ≡ₚ seqZ 0 dim.

(** Python's [while cond: body], with a bound on the number of iterations;
    [None] when the bound is exhausted before the condition turns false. *)
Fixpoint while_loop {St} (fuel : nat) (cond : St -> bool) (body : St -> St)
    (s : St) : option St :=
  if cond s then
    match fuel with
    | O => None
    | S fuel' => while_loop fuel' cond body (body s)
    end
  else Some s.

(** ** [aabb.py] *)

Class Scalar (F : Type) := {
  fzero : F;
  fmin : F -> F -> F;
  fmax : F -> F -> F;
  fmin_comm : forall a b, fmin a b = fmin b a;
  fmax_comm : forall a b, fmax a b = fmax b a;
  fmin_assoc : forall a b c, fmin a (fmin b c) = fmin (fmin a b) c;
  fmax_assoc : forall a b c, fmax a (fmax b c) = fmax (fmax a b) c;
}.

#[export] Program Instance Z_Scalar : Scalar Z :=
  {| fzero := 0; fmin := Z.min; fmax := Z.max |}.
Next Obligation. intros; apply Z.min_comm. Qed.
Next Obligation. intros; apply Z.max_comm. Qed.
Next Obligation. intros; apply Z.min_assoc. Qed.
Next Obligation. intros; apply Z.max_assoc. Qed.

Section AabbModel.
Context {F : Type} `{Scalar F}.

Record vec3 := Vec3 { vx : F; vy : F; vz : F }.

(** [wp.min] and [wp.max] on vectors are component-wise. *)
Definition vmin (a b : vec3) : vec3 :=
  Vec3 (fmin (vx a) (vx b)) (fmin (vy a) (vy b)) (fmin (vz a) (vz b)).

Definition vmax (a b : vec3) : vec3 :=
  Vec3 (fmax (vx a) (vx b)) (fmax (vy a) (vy b)) (fmax (vz a) (vz b)).

Record Aabb := MkAabb { lower : vec3; upper : vec3 }.

Definition make_aabb (lo up : vec3) : Aabb := MkAabb lo up.

Definition aabb_merge (aabb_0 aabb_1 : Aabb) : Aabb :=
  MkAabb (vmin (lower aabb_0) (lower aabb_1))
         (vmax (upper aabb_0) (upper aabb_1)).

#[export] Instance vec3_inhabited : Inhabited vec3 :=
  populate (Vec3 fzero fzero fzero).

#[export] Instance Aabb_inhabited : Inhabited Aabb :=
  populate (MkAabb inhabitant inhabitant).

(** ** [kernels.py]: the compact node record and the linearizer *)

Record BvhNode := MkBvhNode {
  aabb : Aabb;
  left_or_leaf : Z;
  escape_index : Z;
}.

#[export] Instance BvhNode_inhabited : Inhabited BvhNode :=
  populate (MkBvhNode inhabitant 0 0).

(** The all-zero values [wp.zeros] fills a buffer with. *)
Definition Aabb_zero : Aabb :=
  MkAabb (Vec3 fzero fzero fzero) (Vec3 fzero fzero fzero).

Definition BvhNode_zero : BvhNode := MkBvhNode Aabb_zero 0 0.

Definition compact_bvh_nodes_kernel (num_leaves : Z) (aabbs : list Aabb)
    (left_nodes leaf_indices escape_indicess : list Z)
    (tid : Z) (bvh_nodes : list BvhNode) : list BvhNode :=
  let bvh_node_aabb := aget aabbs tid in
  let bvh_node_escape_index := aget escape_indicess tid in
  let bvh_node_left_or_leaf :=
    if tid <? num_leaves - 1 then aget left_nodes tid
    else - aget leaf_indices (tid - (num_leaves - 1)) - 1 in
  aset bvh_nodes tid
    (MkBvhNode bvh_node_aabb bvh_node_left_or_leaf bvh_node_escape_index).

End AabbModel.

Arguments vec3 F : clear implicits.
Arguments Aabb F : clear implicits.
Arguments BvhNode F : clear implicits.

(** ** [kernels.py]: the Karras radix-tree builder *)

(** [intrinsic.clz]: the number of leading zero bits of a [uint32]. *)
Definition clz (x : Z) : Z := if x =? 0 then 32 else 31 - Z.log2 x.

(** The conversion [wp.uint32(x)]. *)
Definition uint32 (x : Z) : Z := x mod 2 ^ 32.

(** [wp.sign] on integers: [-1] below zero, [1] otherwise. *)
Definition sign (x : Z) : Z := if x <? 0 then -1 else 1.

Definition common_prefix (m0 m1 i j : Z) : Z :=
  if negb (m0 =? m1) then clz (uint32 (Z.lxor m0 m1))
  else clz (uint32 (Z.lxor i j)) + 32.

Definition delta (m0 : Z) (sorted_morton_codes : list Z) (i j num_leaves : Z)
    : Z :=
  if (0 <=? j) && (j <? num_leaves)
  then common_prefix m0 (aget sorted_morton_codes j) i j
  else -1.

Definition determine_range (fuel : nat) (sorted_morton_codes : list Z)
    (i num_leaves : Z) : option (Z * Z) :=
  let m0 := aget sorted_morton_codes i in
  let d_l := delta m0 sorted_morton_codes i (i - 1) num_leaves in
  let d_r := delta m0 sorted_morton_codes i (i + 1) num_leaves in
  let d := sign (d_r - d_l) in
  let d_min := Z.min d_l d_r in
  lmax ← while_loop fuel
    (fun lmax =>
       delta m0 sorted_morton_codes i (i + lmax * d) num_leaves >? d_min)
    (fun lmax => lmax * 2)
    2;
  lt ← while_loop fuel
    (fun '(l, t) => t >=? 1)
    (fun '(l, t) =>
       let l :=
         if delta m0 sorted_morton_codes i (i + (l + t) * d) num_leaves
              >? d_min
         then l + t else l in
       (l, t / 2))
    (0, lmax / 2);
  let j := i + fst lt * d in
  Some (Z.min i j, Z.max i j).

Definition find_split (fuel : nat) (sorted_morton_codes : list Z)
    (first last : Z) : option Z :=
  let last_code := aget sorted_morton_codes last in
  let first_code := aget sorted_morton_codes first in
  let d_min := common_prefix first_code last_code first last in
  ss ← while_loop fuel
    (fun '(split, step) => step >? 1)
    (fun '(split, step) =>
       let step := (step + 1) / 2 in
       let new_split := split + step in
       let split :=
         if new_split <? last then
           if common_prefix first_code (aget sorted_morton_codes new_split)
                first new_split >? d_min
           then new_split else split
         else split in
       (split, step))
    (first, last - first);
  Some (fst ss).

(** The three topology buffers the kernel writes. *)
Record topology := MkTopology {
  top_left : list Z;
  top_right : list Z;
  top_parent : list Z;
}.

Definition construct_binary_radix_tree_kernel (fuel : nat) (num_leaves : Z)
    (sorted_morton_codes : list Z) (i : Z) (out : topology)
    : option topology :=
  '(first, last) ← determine_range fuel sorted_morton_codes i num_leaves;
  split ← find_split fuel sorted_morton_codes first last;
  let left := split in
  let right := split + 1 in
  let left := if first =? left then left + (num_leaves - 1) else left in
  let right := if last =? right then right + (num_leaves - 1) else right in
  let left_nodes' := aset (top_left out) i left in
  let right_nodes' := aset (top_right out) i right in
  let parent_nodes' := aset (top_parent out) left i in
  let parent_nodes' := aset parent_nodes' right i in
  let parent_nodes' :=
    if i =? 0 then aset parent_nodes' 0 (-1) else parent_nodes' in
  Some (MkTopology left_nodes' right_nodes' parent_nodes').

(** ** [kernels.py]: the escape-index assigner *)

Definition assign_escape_indices_kernel (fuel : nat) (num_internal_nodes : Z)
    (left_nodes right_nodes : list Z) (tid : Z) (escape_indices : list Z)
    : option (list Z) :=
  let escape_index := -1 in
  let current_index := 0 in
  let current_index :=
    if tid <? num_internal_nodes then aget left_nodes tid
    else current_index in
  let escape_index :=
    if tid <? num_internal_nodes then aget right_nodes tid
    else escape_index in
  let escape_indices := aset escape_indices current_index escape_index in
  ce ← while_loop fuel
    (fun '(current_index, escape_indices) =>
       current_index <? num_internal_nodes)
    (fun '(current_index, escape_indices) =>
       let current_index := aget right_nodes current_index in
       (current_index, aset escape_indices current_index escape_index))
    (current_index, escape_indices);
  Some (snd ce).

(** [init_leaf_indices_and_bounds_kernel], the leaf-index part: the scene
    bounds it resets only feed the floating-point Morton encoder. *)
Definition init_leaf_indices_and_bounds_kernel (tid : Z)
    (leaf_indices : list Z) : list Z :=
  aset leaf_indices tid tid.

(** ** [kernels.py]: the bottom-up refitter

    The threads of [assign_bounding_boxes_kernel] meet at the internal
    nodes through [wp.atomic_add] on [flags]; the kernel is therefore given
    as a thread-local state machine whose steps are interleaved by a
    schedule.  A step contains at most one access to the buffers the kernel
    mutates ([flags], [bound_boxes]); [threadfence] followed by the atomic
    makes these accesses sequentially consistent. *)

Section RefitKernel.
Context {F : Type} `{Scalar F}.

(** Program points of one thread. *)
Inductive pc :=
  | PInit    (* entry: about to store the leaf box *)
  | PLoop    (* at the test [parent_index != -1] *)
  | PMerge   (* [atomic_add] returned 1: about to read the sibling's box *)
  | PStore   (* about to store [bound_boxes[current_index] = aabb] *)
  | PDone.   (* returned *)

Record thread := MkThread {
  th_pc : pc;
  th_current_index : Z;
  th_parent_index : Z;
  th_aabb : Aabb F;
}.

#[export] Instance thread_inhabited : Inhabited thread :=
  populate (MkThread PDone 0 0 inhabitant).

(** What a step does to the shared buffers (most recent event first). *)
Inductive event :=
  | EvArrive (tid node old : Z)   (* [atomic_add(flags, node, 1)] returned [old] *)
  | EvWrite (tid node : Z).       (* [bound_boxes[node]] was stored *)

Record refit_state := MkRefitState {
  rs_flags : list Z;
  rs_boxes : list (Aabb F);
  rs_threads : list thread;
  rs_trace : list event;
}.

Definition assign_bounding_boxes_kernel (num_leaves : Z)
    (left_nodes right_nodes parent_nodes : list Z)
    (lower_bounds upper_bounds : list (vec3 F)) (leaf_indcies : list Z)
    (tid : Z) (st : refit_state) : refit_state :=
  let th := aget (rs_threads st) tid in
  match th_pc th with
  | PInit =>
      let leaf_index := aget leaf_indcies tid in
      let current_index := num_leaves - 1 + tid in
      let parent_index := aget parent_nodes current_index in
      let aabb :=
        MkAabb (aget lower_bounds leaf_index) (aget upper_bounds leaf_index) in
      MkRefitState (rs_flags st)
        (aset (rs_boxes st) current_index aabb)
        (aset (rs_threads st) tid
           (MkThread PLoop current_index parent_index aabb))
        (EvWrite tid current_index :: rs_trace st)
  | PLoop =>
      let parent_index := th_parent_index th in
      if negb (parent_index =? -1) then
        let old := aget (rs_flags st) parent_index in
        MkRefitState (aset (rs_flags st) parent_index (old + 1))
          (rs_boxes st)
          (aset (rs_threads st) tid
             (MkThread (if old =? 1 then PMerge else PDone)
                (th_current_index th) parent_index (th_aabb th)))
          (EvArrive tid parent_index old :: rs_trace st)
      else
        MkRefitState (rs_flags st) (rs_boxes st)
          (aset (rs_threads st) tid
             (MkThread PDone (th_current_index th) parent_index (th_aabb th)))
          (rs_trace st)
  | PMerge =>
      let parent_index := th_parent_index th in
      let current_index := th_current_index th in
      let right_child := aget right_nodes parent_index in
      let left_child := aget left_nodes parent_index in
      let aabb :=
        if current_index =? left_child
        then aabb_merge (th_aabb th) (aget (rs_boxes st) right_child)
        else if current_index =? right_child
        then aabb_merge (th_aabb th) (aget (rs_boxes st) left_child)
        else th_aabb th in
      MkRefitState (rs_flags st) (rs_boxes st)
        (aset (rs_threads st) tid
           (MkThread PStore parent_index (aget parent_nodes parent_index)
              aabb))
        (rs_trace st)
  | PStore =>
      MkRefitState (rs_flags st)
        (aset (rs_boxes st) (th_current_index th) (th_aabb th))
        (aset (rs_threads st) tid
           (MkThread PLoop (th_current_index th) (th_parent_index th)
              (th_aabb th)))
        (EvWrite tid (th_current_index th) :: rs_trace st)
  | PDone => st
  end.

(** The launch: [dim = num_leaves] threads at their entry point. *)
Definition refit_launch_state (num_leaves : Z) (flags : list Z)
    (bound_boxes : list (Aabb F)) : refit_state :=
  MkRefitState flags bound_boxes
    (replicate (Z.to_nat num_leaves) (MkThread PInit 0 0 inhabitant)) [].

Definition is_done (th : thread) : bool :=
  match th_pc th with PDone => true | _ => false end.

(** The launch has completed when every thread has returned. *)
Definition all_done (st : refit_state) : bool :=
  forallb is_done (rs_threads st).

End RefitKernel.

Arguments thread F : clear implicits.
Arguments refit_state F : clear implicits.

(** ** [bvh.py]: the orchestrator *)

Record device := MkDevice {
  dev_ordinal : Z;
  is_cuda : bool;
  sm_count : Z;
}.

Definition device_eqb (a b : device) : bool :=
  (dev_ordinal a =? dev_ordinal b) && eqb (is_cuda a) (is_cuda b)
  && (sm_count a =? sm_count b).

(** A [wp.array]: its elements and the device it resides on. *)
Record wp_array (A : Type) := MkArray {
  arr_data : list A;
  arr_device : device;
}.
Arguments MkArray {A} _ _.
Arguments arr_data {A} _.
Arguments arr_device {A} _.

Inductive exn :=
  | ValueError (msg : string)
  | RuntimeError (msg : string).

(** How a host call ends: it returns, raises, or (in this model) is cut
    short because the bounds given for its device loops and schedules were
    too small for the launched kernels to run to completion. *)
Inductive result (A : Type) :=
  | Ok (a : A)
  | Raise (e : exn)
  | Unfinished.
Arguments Ok {A} _.
Arguments Raise {A} _.
Arguments Unfinished {A}.

(** Device operations issued by the host, in program order. *)
Inductive op :=
  | OpAlloc (buffer : string) (count : Z)
  | OpFill (buffer : string)
  | OpLaunch (kernel : string) (dim : Z)
  | OpSort (count : Z) (keys values : list Z).

(** What the model does not compute and takes as given for one host call:
    the iteration bound of the device loops, the order in which threads of
    each launch run, the keys written by the (floating-point) Morton
    encoder, the buffers left by the external radix sort, and whether the
    device allocator succeeds. *)
Record oracle := MkOracle {
  o_fuel : nat;
  o_alloc_ok : bool;
  o_order_init : list Z;
  o_morton : list Z;
  o_sorted : list Z * list Z;
  o_order_tree : list Z;
  o_order_escape : list Z;
  o_sched_refit : list Z;
  o_order_compact : list Z;
}.

Section Orchestrator.
Context {F : Type} `{Scalar F}.

Record Bvh := MkBvh {
  lower_bounds : list (vec3 F);
  upper_bounds : list (vec3 F);
  bvh_device : device;
  num_leaves : Z;
  num_internal_nodes : Z;
  num_total_nodes : Z;
  _flags : list Z;
  _leaf_indices : list Z;
  _morton_codes : list Z;
  bound_boxes : list (Aabb F);
  parent_nodes : list Z;
  left_nodes : list Z;
  right_nodes : list Z;
  escape_indices : list Z;
  bvh_nodes : list (BvhNode F);
}.

(** The buffers [__init__] allocates, before [self.rebuild()] runs. *)
Definition Bvh_alloc (lower upper : wp_array (vec3 F)) : Bvh :=
  let n := alen (arr_data lower) in
  let num_internal_nodes := Z.max 0 (n - 1) in
  let num_total_nodes := Z.max 0 (2 * n - 1) in
  MkBvh (arr_data lower) (arr_data upper) (arr_device lower)
    n num_internal_nodes num_total_nodes
    (zeros 0 num_internal_nodes)
    (zeros 0 (n * 2))
    (zeros 0 (n * 2))
    (zeros Aabb_zero num_total_nodes)
    (zeros 0 num_total_nodes)
    (zeros 0 num_internal_nodes)
    (zeros 0 num_internal_nodes)
    (zeros 0 num_total_nodes)
    (zeros BvhNode_zero num_total_nodes).

Definition alloc_log (n : Z) : list op :=
  [ OpAlloc "_flags" (Z.max 0 (n - 1));
    OpAlloc "_scene_lower_upper" 2;
    OpAlloc "_leaf_indices" (n * 2);
    OpAlloc "_morton_codes" (n * 2);
    OpAlloc "bound_boxes" (Z.max 0 (2 * n - 1));
    OpAlloc "parent_nodes" (Z.max 0 (2 * n - 1));
    OpAlloc "left_nodes" (Z.max 0 (n - 1));
    OpAlloc "right_nodes" (Z.max 0 (n - 1));
    OpAlloc "escape_indices" (Z.max 0 (2 * n - 1));
    OpAlloc "bvh_nodes" (Z.max 0 (2 * n - 1)) ].

Definition refit (o : oracle) (b : Bvh) : list op * result Bvh :=
  if num_leaves b =? 0 then ([], Ok b)
  else
    let flags := fill_ (_flags b) 0 in
    let st :=
      launch
        (assign_bounding_boxes_kernel (num_leaves b) (left_nodes b)
           (right_nodes b) (parent_nodes b) (lower_bounds b) (upper_bounds b)
           (_leaf_indices b))
        (o_sched_refit o)
        (refit_launch_state (num_leaves b) flags (bound_boxes b)) in
    if all_done st then
      let nodes :=
        launch
          (compact_bvh_nodes_kernel (num_leaves b) (rs_boxes st)
             (left_nodes b) (_leaf_indices b) (escape_indices b))
          (o_order_compact o) (bvh_nodes b) in
      ([ OpFill "_flags";
         OpLaunch "assign_bounding_boxes_kernel" (num_leaves b);
         OpLaunch "compact_bvh_nodes_kernel" (num_total_nodes b) ],
       Ok (MkBvh (lower_bounds b) (upper_bounds b) (bvh_device b)
             (num_leaves b) (num_internal_nodes b) (num_total_nodes b)
             (rs_flags st) (_leaf_indices b) (_morton_codes b)
             (rs_boxes st) (parent_nodes b) (left_nodes b) (right_nodes b)
             (escape_indices b) nodes))
    else
      ([ OpFill "_flags";
         OpLaunch "assign_bounding_boxes_kernel" (num_leaves b) ],
       Unfinished).

Definition rebuild (o : oracle) (b : Bvh) : list op * result Bvh :=
  if num_leaves b =? 0 then ([], Ok b)
  else
    let n := num_leaves b in
    (* 1. leaf_indices[i] = i *)
    let leaf_indices :=
      launch init_leaf_indices_and_bounds_kernel (o_order_init o)
        (_leaf_indices b) in
    (* 2., 3. scene bounds and Morton codes (floating point): the keys *)
    let morton_codes := o_morton o in
    (* 4. the external radix sort of the (key, index) pairs: the call
       with the buffers it is given, and the buffers it leaves *)
    let sort_call := OpSort n morton_codes leaf_indices in
    let '(morton_codes, leaf_indices) :=
      if 0 <? n then o_sorted o else (morton_codes, leaf_indices) in
    let log :=
      [ OpLaunch "init_leaf_indices_and_bounds_kernel" n;
        OpLaunch "eval_scene_aabb_kernel"
          (Z.min (sm_count (bvh_device b) * 2) ((n + 63) / 64) * 64);
        OpLaunch "assign_morton_codes_kernel" n;
        sort_call ] in
    (* 5. the radix tree *)
    let topo :=
      if 1 <? n then
        launchM
          (construct_binary_radix_tree_kernel (o_fuel o) n morton_codes)
          (o_order_tree o)
          (MkTopology (left_nodes b) (right_nodes b) (parent_nodes b))
      else
        Some (MkTopology (left_nodes b) (right_nodes b)
                (fill_ (parent_nodes b) (-1))) in
    let log :=
      log ++ (if 1 <? n
              then [OpLaunch "construct_binary_radix_tree_kernel"
                      (num_internal_nodes b)]
              else [OpFill "parent_nodes"]) in
    match topo with
    | None => (log, Unfinished)
    | Some topo =>
        (* 6. the verification kernel only prints *)
        let log :=
          log ++ [OpLaunch "verify_binary_radix_tree_kernel"
                    (num_total_nodes b)] in
        (* 7. escape indices *)
        match
          launchM
            (assign_escape_indices_kernel (o_fuel o) (num_internal_nodes b)
               (top_left topo) (top_right topo))
            (o_order_escape o) (escape_indices b)
        with
        | None => (log, Unfinished)
        | Some escape =>
            let log :=
              log ++ [OpLaunch "assign_escape_indices_kernel" n] in
            (* 8. refit and compaction *)
            let '(log', r) :=
              refit o
                (MkBvh (lower_bounds b) (upper_bounds b) (bvh_device b)
                   (num_leaves b) (num_internal_nodes b) (num_total_nodes b)
                   (_flags b) leaf_indices morton_codes
                   (bound_boxes b) (top_parent topo) (top_left topo)
                   (top_right topo) escape (bvh_nodes b)) in
            (log ++ log', r)
        end
    end.

(** [wp.zeros] validates the shape before it allocates (Warp's
    [check_array_shape]): a negative size, and a size of [2^31] or more,
    which does not fit the [int32] the runtime indexes with, are refused
    with a [ValueError]. *)
Definition check_array_shape (count : Z) : option exn :=
  if count <? 0 then
    Some (ValueError "Array shapes must be non-negative")
  else if 2 ^ 31 <=? count then
    Some (ValueError "Array shapes must not exceed the maximum representable value of a signed 32-bit integer")
  else None.

(** The buffers [__init__] allocates, in program order. *)
Definition init_buffers (n : Z) : list (string * Z) :=
  [ ("_flags", Z.max 0 (n - 1));
    ("_scene_lower_upper", 2);
    ("_leaf_indices", n * 2);
    ("_morton_codes", n * 2);
    ("bound_boxes", Z.max 0 (2 * n - 1));
    ("parent_nodes", Z.max 0 (2 * n - 1));
    ("left_nodes", Z.max 0 (n - 1));
    ("right_nodes", Z.max 0 (n - 1));
    ("escape_indices", Z.max 0 (2 * n - 1));
    ("bvh_nodes", Z.max 0 (2 * n - 1)) ].

(** The calls of [wp.zeros], one after the other: the allocations made,
    and the error that stopped them, if any. *)
Fixpoint wp_zeros_all (buffers : list (string * Z)) : list op * option exn :=
  match buffers with
  | [] => ([], None)
  | (name, count) :: rest =>
      match check_array_shape count with
      | Some e => ([], Some e)
      | None =>
          let '(log, e) := wp_zeros_all rest in (OpAlloc name count :: log, e)
      end
  end.

(** [Bvh.__init__]. *)
Definition Bvh_init (o : oracle) (lower_bounds upper_bounds : wp_array (vec3 F))
    : list op * result Bvh :=
  if negb (alen (arr_data lower_bounds) =? alen (arr_data upper_bounds)) then
    ([], Raise (ValueError
                  "lower_bounds and upper_bounds must have the same length"))
  else if negb (device_eqb (arr_device lower_bounds)
                  (arr_device upper_bounds)) then
    ([], Raise (ValueError
                  "lower_bounds and upper_bounds must be on the same device"))
  else if negb (is_cuda (arr_device lower_bounds)) then
    ([], Raise (ValueError "Bvh requires a CUDA device"))
  else if negb (o_alloc_ok o) then
    ([], Raise (RuntimeError "device allocation failed"))
  else
    match wp_zeros_all (init_buffers (alen (arr_data lower_bounds))) with
    | (log, Some e) => (log, Raise e)
    | (log, None) =>
        let '(log', r) := rebuild o (Bvh_alloc lower_bounds upper_bounds) in
        (log ++ log', r)
    end.

End Orchestrator.

Arguments Bvh F : clear implicits.

(* ===================================================================== *)
(** * Part II: properties                                                  *)
(* ===================================================================== *)

(** ** Arrays and launches *)

Lemma alen_aset {A} (a : list A) i v : alen (aset a i v) = alen a.
Proof.
  unfold alen, aset. destruct (0 <=? i); [|done]. by rewrite length_insert.
Qed.

Lemma aget_aset_eq {A} `{Inhabited A} (a : list A) i v :
  0 <= i < alen a -> aget (aset a i v) i = v.
Proof.
  unfold alen, aget, aset. intros [Hi Hlen].
  destruct (Z.leb_spec 0 i); [|lia].
  apply list_lookup_total_insert_eq. lia.
Qed.

Lemma aget_aset_ne {A} `{Inhabited A} (a : list A) i j v :
  i <> j -> aget (aset a i v) j = aget a j.
Proof.
  unfold aget, aset. intros Hne.
  destruct (Z.leb_spec 0 j); [|done].
  destruct (Z.leb_spec 0 i); [|done].
  apply list_lookup_total_insert_ne. lia.
Qed.

Lemma aget_aset {A} `{Inhabited A} (a : list A) i j v :
  0 <= i < alen a ->
  aget (aset a i v) j = if j =? i then v else aget a j.
Proof.
  intros Hi. destruct (Z.eqb_spec j i) as [->|Hne].
  - by apply aget_aset_eq.
  - by apply aget_aset_ne.
Qed.

Lemma aset_out_of_range {A} (a : list A) i v :
  ~ (0 <= i < alen a) -> aset a i v = a.
Proof.
  unfold aset, alen. intros Hi. destruct (Z.leb_spec 0 i); [|done].
  apply list_insert_ge. lia.
Qed.

Lemma alen_zeros {A} (z : A) n : 0 <= n -> alen (zeros z n) = n.
Proof. intros. unfold alen, zeros. rewrite length_replicate. lia. Qed.

Lemma alen_fill {A} (a : list A) v : alen (fill_ a v) = alen a.
Proof. unfold alen, fill_. by rewrite length_replicate. Qed.

Lemma aget_replicate {A} `{Inhabited A} n (v : A) i :
  0 <= i < Z.of_nat n -> aget (replicate n v) i = v.
Proof.
  intros Hi. unfold aget. destruct (Z.leb_spec 0 i); [|lia].
  apply lookup_total_replicate_2. lia.
Qed.

Lemma aget_fill {A} `{Inhabited A} (a : list A) v i :
  0 <= i < alen a -> aget (fill_ a v) i = v.
Proof. intros. by apply aget_replicate. Qed.

Lemma launch_snoc {St} (body : Z -> St -> St) order tid s :
  launch body (order ++ [tid]) s = body tid (launch body order s).
Proof. unfold launch. by rewrite foldl_snoc. Qed.

Lemma launch_app {St} (body : Z -> St -> St) o1 o2 s :
  launch body (o1 ++ o2) s = launch body o2 (launch body o1 s).
Proof. unfold launch. by rewrite foldl_app. Qed.

Lemma launch_order_elem dim order t :
  launch_order dim order -> (t ∈ order <-> 0 <= t < dim).
Proof.
  unfold launch_order. intros ->. rewrite elem_of_seqZ. lia.
Qed.

Lemma launch_order_NoDup dim order : launch_order dim order -> NoDup order.
Proof. unfold launch_order. intros ->. apply NoDup_seqZ. Qed.

(** A kernel in which thread [tid] stores [g tid] into cell [tid]. *)
Lemma launch_own_cell_len {A} (g : Z -> A) order (a : list A) :
  alen (launch (fun tid s => aset s tid (g tid)) order a) = alen a.
Proof.
  induction order as [|x order IH] using rev_ind; [done|].
  by rewrite launch_snoc, alen_aset.
Qed.

Lemma launch_own_cell {A} `{Inhabited A} (g : Z -> A) order (a : list A) t :
  0 <= t < alen a ->
  aget (launch (fun tid s => aset s tid (g tid)) order a) t =
    if bool_decide (t ∈ order) then g t else aget a t.
Proof.
  intros Ht. induction order as [|x order IH] using rev_ind.
  - by rewrite bool_decide_eq_false_2 by apply not_elem_of_nil.
  - rewrite launch_snoc. destruct (decide (x = t)) as [->|Hne].
    + rewrite aget_aset_eq by (by rewrite launch_own_cell_len).
      rewrite bool_decide_eq_true_2; [done|].
      apply elem_of_app. right. by apply list_elem_of_singleton.
    + rewrite aget_aset_ne by done. rewrite IH.
      apply (f_equal (fun b : bool => if b then g t else aget a t)).
      apply bool_decide_ext. rewrite elem_of_app, list_elem_of_singleton.
      intuition congruence.
Qed.

(** ** C4: the linearizer *)

Section Compact.
Context {F : Type} `{Scalar F}.

(** C4.  After the compaction kernel has run over the [2N-1] node indices
    (in any order), record [t] holds [box[t]], [escape[t]] and the link
    [left[t]] for [t < N-1], [-(leaf_perm[t-(N-1)]) - 1] otherwise; hence,
    child and leaf indices being non-negative, a record is a leaf exactly
    when its link is negative, and the leaf index is [-link - 1]. *)
Theorem compact_bvh_nodes_records
    (num_leaves : Z) (aabbs : list (Aabb F))
    (left_nodes leaf_indices escape_indicess : list Z)
    (bvh_nodes0 : list (BvhNode F)) (order : list Z) :
  launch_order (2 * num_leaves - 1) order ->
  alen bvh_nodes0 = 2 * num_leaves - 1 ->
  (forall t, 0 <= t < num_leaves - 1 -> 0 <= aget left_nodes t) ->
  (forall k, 0 <= k < num_leaves -> 0 <= aget leaf_indices k) ->
  let bvh_nodes :=
    launch (compact_bvh_nodes_kernel num_leaves aabbs left_nodes
              leaf_indices escape_indicess) order bvh_nodes0 in
  forall t, 0 <= t < 2 * num_leaves - 1 ->
    aabb (aget bvh_nodes t) = aget aabbs t /\
    escape_index (aget bvh_nodes t) = aget escape_indicess t /\
    left_or_leaf (aget bvh_nodes t) =
      (if t <? num_leaves - 1 then aget left_nodes t
       else - aget leaf_indices (t - (num_leaves - 1)) - 1) /\
    (num_leaves - 1 <= t <-> left_or_leaf (aget bvh_nodes t) < 0) /\
    (num_leaves - 1 <= t ->
     - left_or_leaf (aget bvh_nodes t) - 1 =
       aget leaf_indices (t - (num_leaves - 1))).
Proof.
  intros Hord Hlen Hleft Hleaf bvh_nodes t Ht. subst bvh_nodes.
  unfold compact_bvh_nodes_kernel.
  rewrite (launch_own_cell
             (fun tid => MkBvhNode (aget aabbs tid)
                (if tid <? num_leaves - 1 then aget left_nodes tid
                 else - aget leaf_indices (tid - (num_leaves - 1)) - 1)
                (aget escape_indicess tid))) by lia.
  rewrite bool_decide_eq_true_2 by (by apply (launch_order_elem _ _ _ Hord)).
  simpl. repeat split; try done.
  - intros Hge. destruct (Z.ltb_spec t (num_leaves - 1)); [lia|].
    specialize (Hleaf (t - (num_leaves - 1))). lia.
  - destruct (Z.ltb_spec t (num_leaves - 1)); [|lia].
    specialize (Hleft t). lia.
  - intros Hge. destruct (Z.ltb_spec t (num_leaves - 1)); lia.
Qed.

End Compact.

(** A two-leaf instance: internal node 0, leaves at node indices 1 and 2,
    the leaf order swapped by the sort. *)
Definition ex2_boxes : list (Aabb Z) :=
  [ MkAabb (Vec3 0 0 0) (Vec3 3 3 3);
    MkAabb (Vec3 2 2 2) (Vec3 3 3 3);
    MkAabb (Vec3 0 0 0) (Vec3 1 1 1) ].

Lemma ex2_order : launch_order (2 * 2 - 1) [2; 0; 1].
Proof.
  unfold launch_order. change (seqZ 0 (2 * 2 - 1)) with [0; 1; 2].
  apply (bool_decide_unpack _). by vm_compute.
Qed.

Lemma compact_bvh_nodes_records_witness :
  let bvh_nodes :=
    launch (compact_bvh_nodes_kernel 2 ex2_boxes [1] [1; 0; 0; 0] [-1; 2; -1])
      [2; 0; 1] (zeros BvhNode_zero 3) in
  aabb (aget bvh_nodes 1) = aget ex2_boxes 1 /\
  escape_index (aget bvh_nodes 1) = aget [-1; 2; -1] 1 /\
  left_or_leaf (aget bvh_nodes 1) =
    (if 1 <? 2 - 1 then aget [1] 1 else - aget [1; 0; 0; 0] (1 - (2 - 1)) - 1) /\
  (2 - 1 <= 1 <-> left_or_leaf (aget bvh_nodes 1) < 0) /\
  (2 - 1 <= 1 ->
   - left_or_leaf (aget bvh_nodes 1) - 1 = aget [1; 0; 0; 0] (1 - (2 - 1))).
Proof.
  apply (compact_bvh_nodes_records 2 ex2_boxes [1] [1; 0; 0; 0] [-1; 2; -1]
           (zeros BvhNode_zero 3) [2; 0; 1] ex2_order).
  - reflexivity.
  - intros t Ht. assert (t = 0) as -> by lia. by vm_compute.
  - intros k Hk. assert (k = 0 \/ k = 1) as [-> | ->] by lia; by vm_compute.
  - lia.
Defined.

(** ** C8, C10: what the host calls raise *)

Section HostErrors.
Context {F : Type} `{Scalar F}.

Lemma device_eqb_eq (a b : device) : device_eqb a b = true <-> a = b.
Proof.
  unfold device_eqb. destruct a as [o1 c1 s1], b as [o2 c2 s2]; simpl.
  rewrite !andb_true_iff, !Z.eqb_eq, eqb_true_iff.
  split; [intros [[-> ->] ->]; done | intros [= -> -> ->]; done].
Qed.

Lemma refit_never_raises (o : oracle) (b : Bvh F) e :
  snd (refit o b) <> Raise e.
Proof.
  unfold refit. destruct (num_leaves b =? 0); [done|].
  destruct (all_done _); done.
Qed.

Lemma rebuild_never_raises (o : oracle) (b : Bvh F) e :
  snd (rebuild o b) <> Raise e.
Proof.
  unfold rebuild. destruct (num_leaves b =? 0); [done|].
  destruct (0 <? num_leaves b); destruct (o_sorted o) as [mc li];
    (destruct (if 1 <? num_leaves b then _ else _) as [topo|]; [|done]);
    (destruct (launchM _ _ _) as [esc|]; [|done]);
    match goal with |- context [refit ?o ?b] =>
      pose proof (refit_never_raises o b e); destruct (refit o b) end;
    done.
Qed.

Lemma check_array_shape_fits (count : Z) :
  0 <= count < 2 ^ 31 -> check_array_shape count = None.
Proof.
  intros Hc. unfold check_array_shape.
  destruct (Z.ltb_spec count 0); [lia|].
  destruct (Z.leb_spec (2 ^ 31) count); [lia|done].
Qed.

Lemma wp_zeros_all_fits (n : Z) :
  0 <= n < 2 ^ 30 -> wp_zeros_all (init_buffers n) = (alloc_log n, None).
Proof.
  intros Hn. assert (2 ^ 31 = 2 * 2 ^ 30) as Hp by done.
  unfold init_buffers, alloc_log. simpl.
  rewrite !check_array_shape_fits by lia. done.
Qed.

Lemma wp_zeros_all_refused (n : Z) :
  2 ^ 30 <= n ->
  exists msg,
    wp_zeros_all (init_buffers n)
      = (if n <=? 2 ^ 31
         then [OpAlloc "_flags" (n - 1); OpAlloc "_scene_lower_upper" 2]
         else [],
         Some (ValueError msg)).
Proof.
  intros Hn. assert (2 ^ 31 = 2 * 2 ^ 30) as Hp by done.
  unfold init_buffers. simpl. replace (Z.max 0 (n - 1)) with (n - 1) by lia.
  destruct (Z.leb_spec n (2 ^ 31)) as [Hle|Hgt].
  - rewrite (check_array_shape_fits (n - 1)) by lia.
    rewrite ?(check_array_shape_fits 2) by lia.
    unfold check_array_shape.
    destruct (Z.ltb_spec (n * 2) 0); [lia|].
    destruct (Z.leb_spec (2 ^ 31) (n * 2)); [|lia]. by eexists.
  - unfold check_array_shape.
    destruct (Z.ltb_spec (n - 1) 0); [lia|].
    destruct (Z.leb_spec (2 ^ 31) (n - 1)); [|lia]. by eexists.
Qed.

Lemma Bvh_init_valid (o : oracle) (lower upper : wp_array (vec3 F)) :
  alen (arr_data lower) = alen (arr_data upper) ->
  arr_device lower = arr_device upper ->
  is_cuda (arr_device lower) = true ->
  o_alloc_ok o = true ->
  Bvh_init o lower upper =
    match wp_zeros_all (init_buffers (alen (arr_data lower))) with
    | (log, Some e) => (log, Raise e)
    | (log, None) =>
        (log ++ fst (rebuild o (Bvh_alloc lower upper)),
         snd (rebuild o (Bvh_alloc lower upper)))
    end.
Proof.
  intros Hlen Hdev Hcuda Halloc. unfold Bvh_init.
  rewrite <- Hlen, Z.eqb_refl. cbn [negb snd fst].
  apply device_eqb_eq in Hdev. rewrite Hdev, Hcuda, Halloc. cbn [negb snd fst].
  destruct (wp_zeros_all (init_buffers (alen (arr_data lower))))
    as [log [e|]]; [done|].
  by destruct (rebuild o (Bvh_alloc lower upper)).
Qed.

(** What a constructor call that returns a [Bvh] went through. *)
Lemma Bvh_init_Ok_inv (o : oracle) (lower upper : wp_array (vec3 F)) log b' :
  Bvh_init o lower upper = (log, Ok b') ->
  alen (arr_data lower) = alen (arr_data upper) /\
  alen (arr_data lower) < 2 ^ 30 /\
  exists log',
    log = alloc_log (alen (arr_data lower)) ++ log' /\
    rebuild o (Bvh_alloc lower upper) = (log', Ok b').
Proof.
  unfold Bvh_init.
  destruct (Z.eqb_spec (alen (arr_data lower)) (alen (arr_data upper)))
    as [Hlen|Hlen]; cbn [negb snd fst]; [|done].
  destruct (device_eqb _ _); cbn [negb snd fst]; [|done].
  destruct (is_cuda _); cbn [negb snd fst]; [|done].
  destruct (o_alloc_ok o); cbn [negb snd fst]; [|done].
  assert (0 <= alen (arr_data lower)) by (unfold alen; lia).
  destruct (Z.lt_ge_cases (alen (arr_data lower)) (2 ^ 30)) as [Hlt|Hge].
  - rewrite wp_zeros_all_fits by lia.
    destruct (rebuild o (Bvh_alloc lower upper)) as [log' r].
    intros [= <- ->]. eauto.
  - destruct (wp_zeros_all_refused _ Hge) as [msg ->]. done.
Qed.

(** C8, as the code has it.  The constructor raises [ValueError], before
    anything is allocated or launched and without returning a [Bvh], when
    the two arrays differ in length, reside on different devices, or are
    not on a CUDA device.  Below [2^30] leaves it raises [ValueError] in no
    other case.  From [2^30] leaves on it raises [ValueError] on valid
    arguments too: [wp.zeros] refuses the size [2 N] of the leaf-index
    buffer, after the flag and scene-bound buffers have been allocated
    (or, beyond [2^31], the size [N - 1] of the flag buffer). *)
Theorem Bvh_init_value_error (o : oracle) (lower upper : wp_array (vec3 F)) :
  let n := alen (arr_data lower) in
  let invalid :=
    n <> alen (arr_data upper) \/
    arr_device lower <> arr_device upper \/
    is_cuda (arr_device lower) = false in
  (invalid ->
   exists msg, Bvh_init o lower upper = ([], Raise (ValueError msg))) /\
  (n < 2 ^ 30 ->
   ((exists msg, snd (Bvh_init o lower upper) = Raise (ValueError msg))
    <-> invalid)) /\
  (~ invalid -> o_alloc_ok o = true -> 2 ^ 30 <= n ->
   exists msg,
     Bvh_init o lower upper
       = (if n <=? 2 ^ 31
          then [OpAlloc "_flags" (n - 1); OpAlloc "_scene_lower_upper" 2]
          else [],
          Raise (ValueError msg))).
Proof.
  intros n invalid.
  assert (invalid ->
          exists msg, Bvh_init o lower upper = ([], Raise (ValueError msg)))
    as Hinv.
  { subst invalid n. unfold Bvh_init. intros Hi.
    destruct (Z.eqb_spec (alen (arr_data lower)) (alen (arr_data upper)))
      as [Hlen|Hlen]; cbn [negb snd fst]; [|eauto].
    destruct (device_eqb (arr_device lower) (arr_device upper)) eqn:Hdev;
      cbn [negb snd fst]; [|eauto].
    apply device_eqb_eq in Hdev.
    destruct (is_cuda (arr_device lower)) eqn:Hcuda; cbn [negb snd fst]; [|eauto].
    by destruct Hi as [?|[?|?]]. }
  assert (invalid \/
          (n = alen (arr_data upper) /\ arr_device lower = arr_device upper /\
           is_cuda (arr_device lower) = true)) as Hcases.
  { subst invalid n.
    destruct (Z.eq_dec (alen (arr_data lower)) (alen (arr_data upper)));
      [|tauto].
    destruct (device_eqb (arr_device lower) (arr_device upper)) eqn:Hdev.
    - apply device_eqb_eq in Hdev.
      destruct (is_cuda (arr_device lower)); tauto.
    - left. right. left. intros Heq%device_eqb_eq. congruence. }
  split; [done|]. split.
  - intros Hn. split; [|intros [msg Hm]%Hinv; rewrite Hm; eauto].
    intros [msg Hm]. destruct Hcases as [?|(Hlen & Hdev & Hcuda)]; [done|].
    exfalso. revert Hm. unfold Bvh_init. fold n.
    rewrite <- Hlen, Z.eqb_refl. cbn [negb snd fst].
    apply device_eqb_eq in Hdev. rewrite Hdev, Hcuda. cbn [negb snd fst].
    destruct (o_alloc_ok o); cbn [negb snd fst]; [|done].
    assert (0 <= n) by (subst n; unfold alen; lia).
    rewrite wp_zeros_all_fits by lia.
    pose proof (rebuild_never_raises o (Bvh_alloc lower upper)
                  (ValueError msg)).
    by destruct (rebuild o (Bvh_alloc lower upper)).
  - intros Hv Halloc Hn.
    destruct Hcases as [?|(Hlen & Hdev & Hcuda)]; [done|].
    rewrite Bvh_init_valid by done. fold n.
    destruct (wp_zeros_all_refused n Hn) as [msg ->]. eauto.
Qed.


End HostErrors.

(** ** Valid topologies

    The arrays [left], [right] and [parent] are a valid topology over [N]
    leaves when they are the links of a binary tree on the node indices
    [0 .. 2N-2]: the root is node [0], the internal nodes are the indices
    below [N-1], the leaves the others.  The tree is kept as a witness; its
    preorder is the depth-first order of the nodes. *)

Inductive tree :=
  | Leaf (v : Z)
  | Node (v : Z) (l r : tree).

Definition label (t : tree) : Z :=
  match t with Leaf v => v | Node v _ _ => v end.

Fixpoint preorder (t : tree) : list Z :=
  match t with
  | Leaf v => [v]
  | Node v l r => v :: preorder l ++ preorder r
  end.

Fixpoint subtrees (t : tree) : list tree :=
  match t with
  | Leaf v => [t]
  | Node v l r => t :: subtrees l ++ subtrees r
  end.

(** The nodes reached from [t] by following right-child links only. *)
Fixpoint right_spine (t : tree) : list Z :=
  match t with
  | Leaf v => [v]
  | Node v l r => v :: right_spine r
  end.

(** The leaves of [t], left to right. *)
Fixpoint fringe (t : tree) : list Z :=
  match t with
  | Leaf v => [v]
  | Node v l r => fringe l ++ fringe r
  end.

Fixpoint links_ok (n : Z) (left right : list Z) (t : tree) : Prop :=
  match t with
  | Leaf v => n - 1 <= v
  | Node v l r =>
      v < n - 1 /\ aget left v = label l /\ aget right v = label r /\
      links_ok n left right l /\ links_ok n left right r
  end.

Fixpoint parents_ok (parent : list Z) (t : tree) : Prop :=
  match t with
  | Leaf v => True
  | Node v l r =>
      aget parent (label l) = v /\ aget parent (label r) = v /\
      parents_ok parent l /\ parents_ok parent r
  end.

Record valid_topology (n : Z) (left right parent : list Z) (t : tree)
    : Prop := MkValid {
  vt_root : label t = 0;
  vt_nodes : preorder t ≡ₚ seqZ 0 (2 * n - 1);
  vt_links : links_ok n left right t;
  vt_parents : parents_ok parent t;
  vt_root_parent : aget parent 0 = -1;
}.

(** The escape link of every node of [t], when [e] is the link of [t]
    itself: the right sibling of the nearest ancestor-or-self that is a
    left child (section 4.5 of the specification). *)
Fixpoint escapes (t : tree) (e : Z) : list (Z * Z) :=
  match t with
  | Leaf v => [(v, e)]
  | Node v l r => (v, e) :: escapes l (label r) ++ escapes r e
  end.

(** The stackless depth-first walk the escape links are made for: from an
    internal node go to its left child, from a leaf follow the escape link,
    stop at [-1].  (The repository has no traversal kernel; this is the
    traversal the specification describes.) *)
Fixpoint stackless_dfs (fuel : nat) (num_leaves : Z)
    (left_nodes escape_indices : list Z) (v : Z) : option (list Z) :=
  if v =? -1 then Some []
  else
    match fuel with
    | O => None
    | S fuel' =>
        let next :=
          if v <? num_leaves - 1 then aget left_nodes v
          else aget escape_indices v in
        cons v <$> stackless_dfs fuel' num_leaves left_nodes escape_indices next
    end.

(** A sequence of stores [a[c] = x]. *)
Definition apply_writes {A} (w : list (Z * A)) (a : list A) : list A :=
  foldl (fun a cx => aset a (fst cx) (snd cx)) a w.

Lemma apply_writes_app {A} (w1 w2 : list (Z * A)) a :
  apply_writes (w1 ++ w2) a = apply_writes w2 (apply_writes w1 a).
Proof. unfold apply_writes. by rewrite foldl_app. Qed.

Lemma alen_apply_writes {A} (w : list (Z * A)) a :
  alen (apply_writes w a) = alen a.
Proof.
  induction w as [|[c x] w IH] using rev_ind; [done|].
  rewrite apply_writes_app. simpl. by rewrite alen_aset.
Qed.

Lemma apply_writes_other {A} `{Inhabited A} (w : list (Z * A)) a c :
  c ∉ w.*1 -> aget (apply_writes w a) c = aget a c.
Proof.
  induction w as [|[c' x] w IH] using rev_ind; [done|].
  rewrite fmap_app, elem_of_app, apply_writes_app. simpl.
  rewrite list_elem_of_singleton. intros Hc.
  rewrite aget_aset_ne by (intros ->; tauto). apply IH. tauto.
Qed.

(** When the stores agree on every cell they hit twice, each stored value
    is found in its cell afterwards. *)
Lemma apply_writes_lookup {A} `{Inhabited A} (w : list (Z * A)) a c x :
  (forall c x y, (c, x) ∈ w -> (c, y) ∈ w -> x = y) ->
  (forall c x, (c, x) ∈ w -> 0 <= c < alen a) ->
  (c, x) ∈ w -> aget (apply_writes w a) c = x.
Proof.
  induction w as [|[c' x'] w IH] using rev_ind; intros Hfun Hrange Hin.
  { by apply elem_of_nil in Hin. }
  rewrite apply_writes_app. simpl.
  assert ((c', x') ∈ w ++ [(c', x')]) as Hlast.
  { apply elem_of_app. right. by apply list_elem_of_singleton. }
  destruct (decide (c' = c)) as [->|Hne].
  - rewrite aget_aset_eq.
    + symmetry. by apply (Hfun c).
    + rewrite alen_apply_writes. by apply (Hrange c x).
  - rewrite aget_aset_ne by done. apply IH.
    + intros c0 x0 y0 H1 H2. apply (Hfun c0); apply elem_of_app; by left.
    + intros c0 x0 H1. apply (Hrange c0 x0). apply elem_of_app. by left.
    + apply elem_of_app in Hin as [Hin|Hin]; [done|].
      apply list_elem_of_singleton in Hin. congruence.
Qed.

(** ** Trees *)

Lemma preorder_head t : preorder t = label t :: tail (preorder t).
Proof. by destruct t. Qed.

Lemma right_spine_head t : right_spine t = label t :: tail (right_spine t).
Proof. by destruct t. Qed.

Lemma label_in_preorder t : label t ∈ preorder t.
Proof. rewrite preorder_head. apply elem_of_cons. by left. Qed.

Lemma right_spine_preorder t v : v ∈ right_spine t -> v ∈ preorder t.
Proof.
  induction t as [u|u l _ r IHr]; simpl; [done|].
  rewrite !elem_of_cons, elem_of_app. intros [->|Hv]; [by left|].
  right. right. by apply IHr.
Qed.

Lemma escapes_fst t e : (escapes t e).*1 = preorder t.
Proof.
  revert e. induction t as [u|u l IHl r IHr]; intros e; simpl; [done|].
  by rewrite fmap_app, IHl, IHr.
Qed.

Lemma subtrees_self t : t ∈ subtrees t.
Proof. destruct t; apply elem_of_cons; by left. Qed.

Lemma subtrees_label t s : s ∈ subtrees t -> label s ∈ preorder t.
Proof.
  induction t as [u|u l IHl r IHr]; simpl.
  - intros ->%list_elem_of_singleton. apply elem_of_cons. by left.
  - rewrite !elem_of_cons, !elem_of_app. intros [->|[Hs|Hs]]; [by left| |].
    + right. left. by apply IHl.
    + right. right. by apply IHr.
Qed.

Lemma preorder_subtree t v :
  v ∈ preorder t -> exists s, s ∈ subtrees t /\ label s = v.
Proof.
  induction t as [u|u l IHl r IHr]; simpl.
  - intros ->%list_elem_of_singleton. exists (Leaf u). split; [|done].
    by apply list_elem_of_singleton.
  - rewrite elem_of_cons, elem_of_app. intros [->|[Hv|Hv]].
    + exists (Node u l r). split; [|done]. apply elem_of_cons. by left.
    + destruct (IHl Hv) as (s & Hs & Hl). exists s. split; [|done].
      apply elem_of_cons. right. apply elem_of_app. by left.
    + destruct (IHr Hv) as (s & Hs & Hl). exists s. split; [|done].
      apply elem_of_cons. right. apply elem_of_app. by right.
Qed.

Lemma subtrees_links n left right t s :
  links_ok n left right t -> s ∈ subtrees t -> links_ok n left right s.
Proof.
  induction t as [u|u l IHl r IHr]; simpl.
  - by intros Hu ->%list_elem_of_singleton.
  - intros (Hu & Hl & Hr & Hlo & Hro).
    rewrite elem_of_cons, elem_of_app. intros [->|[Hs|Hs]]; auto.
    by simpl.
Qed.

Lemma subtrees_preorder t s v :
  s ∈ subtrees t -> v ∈ preorder s -> v ∈ preorder t.
Proof.
  induction t as [u|u l IHl r IHr]; simpl.
  - by intros ->%list_elem_of_singleton.
  - rewrite elem_of_cons, elem_of_app. intros [->|[Hs|Hs]] Hv; [done| |].
    + apply elem_of_cons. right. apply elem_of_app. left. by apply IHl.
    + apply elem_of_cons. right. apply elem_of_app. right. by apply IHr.
Qed.

(** An index below [N-1] that occurs in the tree is an internal node. *)
Lemma internal_subtree n left right t v :
  links_ok n left right t -> v ∈ preorder t -> v < n - 1 ->
  exists l r, Node v l r ∈ subtrees t.
Proof.
  intros Hlinks Hv Hlt.
  destruct (preorder_subtree t v Hv) as (s & Hs & Hl).
  pose proof (subtrees_links _ _ _ _ _ Hlinks Hs) as Hsl.
  destruct s as [u|u l r]; simpl in *; [lia|]. subst u. eauto.
Qed.

Lemma escapes_spine t e c : c ∈ right_spine t -> (c, e) ∈ escapes t e.
Proof.
  induction t as [u|u l _ r IHr]; simpl.
  - intros ->%list_elem_of_singleton. by apply list_elem_of_singleton.
  - rewrite !elem_of_cons, elem_of_app. intros [->|Hc]; [by left|].
    right. right. by apply IHr.
Qed.

Lemma escapes_subtree t s e :
  s ∈ subtrees t -> exists e', forall p, p ∈ escapes s e' -> p ∈ escapes t e.
Proof.
  revert e. induction t as [u|u l IHl r IHr]; intros e; simpl.
  - intros ->%list_elem_of_singleton. by exists e.
  - rewrite elem_of_cons, elem_of_app. intros [->|[Hs|Hs]].
    + by exists e.
    + destruct (IHl (label r) Hs) as [e' He']. exists e'. intros p Hp.
      apply elem_of_cons. right. apply elem_of_app. left. by apply He'.
    + destruct (IHr e Hs) as [e' He']. exists e'. intros p Hp.
      apply elem_of_cons. right. apply elem_of_app. right. by apply He'.
Qed.

(** Every node lies on the right spine of the root or on the right spine
    that starts at the left child of some internal node. *)
Lemma spine_cover t v :
  v ∈ preorder t ->
  v ∈ right_spine t \/
  exists i l r, Node i l r ∈ subtrees t /\ v ∈ right_spine l.
Proof.
  induction t as [u|u l IHl r IHr]; simpl.
  - by left.
  - rewrite !elem_of_cons, elem_of_app. intros [->|[Hv|Hv]].
    + left. by left.
    + right. destruct (IHl Hv) as [Hsp|(i & l' & r' & Hs & Hsp)].
      * exists u, l, r. split; [|done]. apply elem_of_cons. by left.
      * exists i, l', r'. split; [|done].
        apply elem_of_cons. right. apply elem_of_app. by left.
    + destruct (IHr Hv) as [Hsp|(i & l' & r' & Hs & Hsp)].
      * left. by right.
      * right. exists i, l', r'. split; [|done].
        apply elem_of_cons. right. apply elem_of_app. by right.
Qed.

(** A link is the link of the whole tree or one of its nodes; off the
    right spine of the root it is a node. *)
Lemma escapes_value t e v x :
  (v, x) ∈ escapes t e -> x = e \/ x ∈ preorder t.
Proof.
  revert e. induction t as [u|u l IHl r IHr]; intros e; simpl.
  - intros [= -> ->]%list_elem_of_singleton. by left.
  - rewrite !elem_of_cons, !elem_of_app. intros [[= -> ->]|[Hl|Hr]].
    + by left.
    + right. right. destruct (IHl _ Hl) as [->|Hx]; [|by left].
      right. apply label_in_preorder.
    + destruct (IHr _ Hr) as [->|Hx]; [by left|]. right. right. by right.
Qed.

Lemma escapes_off_spine t e v x :
  (v, x) ∈ escapes t e -> v ∈ right_spine t \/ x ∈ preorder t.
Proof.
  revert e. induction t as [u|u l IHl r IHr]; intros e; simpl.
  - intros [= -> ->]%list_elem_of_singleton. left.
    by apply list_elem_of_singleton.
  - rewrite !elem_of_cons, !elem_of_app. intros [[= -> ->]|[Hl|Hr]].
    + left. by left.
    + right. right. destruct (escapes_value _ _ _ _ Hl) as [->|Hx]; [|by left].
      right. apply label_in_preorder.
    + destruct (IHr _ Hr) as [Hv|Hx]; [left; by right|].
      right. right. by right.
Qed.

(** The node visited after the subtree [s] is left: [escapes] gives the
    node that follows [s] in the preorder, and [e] when [s] ends it. *)
Lemma escapes_next t s e :
  s ∈ subtrees t ->
  exists pre post,
    preorder t = pre ++ preorder s ++ post /\
    (label s, hd e post) ∈ escapes t e.
Proof.
  revert e. induction t as [u|u l IHl r IHr]; intros e; simpl.
  - intros ->%list_elem_of_singleton. exists [], []. split; [done|].
    by apply list_elem_of_singleton.
  - rewrite elem_of_cons, elem_of_app. intros [->|[Hs|Hs]].
    + exists [], []. simpl. rewrite app_nil_r. split; [done|].
      apply elem_of_cons. by left.
    + destruct (IHl (label r) Hs) as (pre & post & Hpre & Hin).
      exists (u :: pre), (post ++ preorder r). split.
      * rewrite Hpre. simpl. by rewrite <- !app_assoc.
      * apply elem_of_cons. right. apply elem_of_app. left.
        destruct post; [|done]. simpl in *. by rewrite preorder_head.
    + destruct (IHr e Hs) as (pre & post & Hpre & Hin).
      exists (u :: preorder l ++ pre), post. split.
      * rewrite Hpre. simpl. by rewrite <- !app_assoc.
      * apply elem_of_cons. right. apply elem_of_app. by right.
Qed.

Lemma right_spine_length t : (length (right_spine t) <= length (preorder t))%nat.
Proof.
  induction t as [u|u l _ r IHr]; simpl; [done|].
  rewrite length_app. lia.
Qed.

Lemma subtrees_length t s :
  s ∈ subtrees t -> (length (preorder s) <= length (preorder t))%nat.
Proof.
  induction t as [u|u l IHl r IHr]; simpl.
  - by intros ->%list_elem_of_singleton.
  - rewrite elem_of_cons, elem_of_app, length_app.
    intros [->|[Hs|Hs]].
    + simpl. rewrite length_app. lia.
    + specialize (IHl Hs). lia.
    + specialize (IHr Hs). lia.
Qed.

Lemma NoDup_fst_functional {A B} (l : list (A * B)) c x y :
  NoDup l.*1 -> (c, x) ∈ l -> (c, y) ∈ l -> x = y.
Proof.
  induction l as [|[c' z] l IH]; simpl; [by intros _ ?%elem_of_nil|].
  rewrite NoDup_cons, !elem_of_cons. intros [Hc' Hnd] [Hx|Hx] [Hy|Hy].
  - congruence.
  - injection Hx as -> ->. destruct Hc'.
    apply list_elem_of_fmap. by exists (c', y).
  - injection Hy as -> ->. destruct Hc'.
    apply list_elem_of_fmap. by exists (c', x).
  - by apply IH.
Qed.

(** Distinct labels: a node index names one subtree. *)
Lemma subtrees_unique t s1 s2 :
  NoDup (preorder t) -> s1 ∈ subtrees t -> s2 ∈ subtrees t ->
  label s1 = label s2 -> s1 = s2.
Proof.
  induction t as [u|u l IHl r IHr]; simpl.
  - intros _ ->%list_elem_of_singleton ->%list_elem_of_singleton. done.
  - rewrite NoDup_cons, NoDup_app, !elem_of_cons, !elem_of_app.
    intros (Hu & Hl & Hlr & Hr) H1 H2 Heq.
    assert (forall s, s ∈ subtrees l \/ s ∈ subtrees r -> label s <> u)
      as Hsub.
    { intros s [Hs|Hs] <-; apply Hu; [left|right]; by apply subtrees_label. }
    destruct H1 as [->|H1], H2 as [->|H2]; try done.
    + by destruct (Hsub s2 H2).
    + by destruct (Hsub s1 H1).
    + destruct H1 as [H1|H1], H2 as [H2|H2]; auto.
      * destruct (Hlr (label s1)); [by apply subtrees_label|].
        rewrite Heq. by apply subtrees_label.
      * destruct (Hlr (label s2)); [by apply subtrees_label|].
        rewrite <- Heq. by apply subtrees_label.
Qed.

(** ** C3, C9: the escape-index kernel *)

Section Escape.
Variables (n : Z) (left right parent : list Z) (t : tree).
Hypothesis Hvalid : valid_topology n left right parent t.

Lemma valid_node_range v : v ∈ preorder t <-> 0 <= v < 2 * n - 1.
Proof. rewrite (vt_nodes _ _ _ _ _ Hvalid), elem_of_seqZ. lia. Qed.

Lemma valid_links : links_ok n left right t.
Proof. apply Hvalid. Qed.

Lemma valid_NoDup : NoDup (preorder t).
Proof. rewrite (vt_nodes _ _ _ _ _ Hvalid). apply NoDup_seqZ. Qed.

Lemma valid_size : length (preorder t) = Z.to_nat (2 * n - 1).
Proof. rewrite (vt_nodes _ _ _ _ _ Hvalid). apply length_seqZ. Qed.

Lemma valid_escapes_functional e c x y :
  (c, x) ∈ escapes t e -> (c, y) ∈ escapes t e -> x = y.
Proof.
  apply NoDup_fst_functional. rewrite escapes_fst. apply valid_NoDup.
Qed.

(** The loop of the kernel walks down the right spine of [s]. *)
Lemma escape_loop (fuel : nat) (e : Z) (s : tree) (a : list Z) :
  links_ok n left right s ->
  (length (right_spine s) <= fuel)%nat ->
  exists c,
    while_loop fuel
      (fun '(current_index, escape_indices) => current_index <? n - 1)
      (fun '(current_index, escape_indices) =>
         (aget right current_index,
          aset escape_indices (aget right current_index) e))
      (label s, a)
    = Some (c, apply_writes ((fun c => (c, e)) <$> tail (right_spine s)) a).
Proof.
  revert fuel a. induction s as [u|u l _ r IHr]; intros fuel a; simpl.
  - intros Hu _. exists u. destruct fuel; simpl;
      destruct (Z.ltb_spec u (n - 1)); (lia || done).
  - intros (Hu & Hl & Hr & Hlo & Hro) Hfuel.
    destruct fuel as [|fuel]; [lia|]. simpl.
    destruct (Z.ltb_spec u (n - 1)); [|lia]. rewrite Hr.
    destruct (IHr fuel (aset a (label r) e) Hro) as [c Hc]; [lia|].
    exists c. simpl in Hc. rewrite Hc. f_equal. f_equal.
    by rewrite (right_spine_head r).
Qed.

Lemma escape_thread_spine (fuel : nat) (tid e : Z) (s : tree)
    (a : list Z) :
  links_ok n left right s ->
  (length (right_spine s) <= fuel)%nat ->
  (if tid <? n - 1 then aget left tid else 0) = label s ->
  (if tid <? n - 1 then aget right tid else -1) = e ->
  assign_escape_indices_kernel fuel (n - 1) left right tid a =
    Some (apply_writes ((fun c => (c, e)) <$> right_spine s) a).
Proof.
  intros Hs Hfuel Hc He. unfold assign_escape_indices_kernel. cbv zeta.
  rewrite Hc, He.
  destruct (escape_loop fuel e s (aset a (label s) e) Hs Hfuel) as [c ->].
  simpl. by rewrite (right_spine_head s).
Qed.

(** The stores of thread [tid]. *)
Definition escape_writes (tid : Z) (w : list (Z * Z)) : Prop :=
  (tid = n - 1 /\ w = (fun c => (c, -1)) <$> right_spine t) \/
  (exists l r, Node tid l r ∈ subtrees t /\
               w = (fun c => (c, label r)) <$> right_spine l).

Lemma escape_writes_exist tid :
  0 <= tid < n -> exists w, escape_writes tid w.
Proof.
  intros Htid. destruct (decide (tid = n - 1)) as [->|Hne].
  - eexists. by left.
  - destruct (internal_subtree n left right t tid) as (l & r & Hs).
    + apply valid_links.
    + apply valid_node_range. lia.
    + lia.
    + eexists. right. eauto.
Qed.

Lemma escape_writes_sound tid w p :
  escape_writes tid w -> p ∈ w -> p ∈ escapes t (-1).
Proof.
  intros [[-> ->]|(l & r & Hs & ->)] (c & -> & Hc)%list_elem_of_fmap.
  - by apply escapes_spine.
  - destruct (escapes_subtree t _ (-1) Hs) as [e' He']. apply He'. simpl.
    apply elem_of_cons. right. apply elem_of_app. left.
    by apply escapes_spine.
Qed.

Lemma escape_thread (fuel : nat) (tid : Z) (w : list (Z * Z)) (a : list Z) :
  (Z.to_nat (2 * n) <= fuel)%nat ->
  escape_writes tid w ->
  assign_escape_indices_kernel fuel (n - 1) left right tid a =
    Some (apply_writes w a).
Proof.
  intros Hfuel [[-> ->]|(l & r & Hs & ->)].
  - apply escape_thread_spine.
    + apply valid_links.
    + pose proof (right_spine_length t). pose proof valid_size. lia.
    + destruct (Z.ltb_spec (n - 1) (n - 1)); [lia|].
      symmetry. apply (vt_root _ _ _ _ _ Hvalid).
    + destruct (Z.ltb_spec (n - 1) (n - 1)); [lia|done].
  - pose proof (subtrees_links _ _ _ _ _ (vt_links _ _ _ _ _ Hvalid) Hs)
      as (Hu & Hl & Hr & Hlo & Hro).
    apply escape_thread_spine.
    + done.
    + pose proof (right_spine_length l). pose proof valid_size.
      pose proof (subtrees_length _ _ Hs) as Hlen. simpl in Hlen.
      rewrite length_app in Hlen. lia.
    + by destruct (Z.ltb_spec tid (n - 1)); [|lia].
    + by destruct (Z.ltb_spec tid (n - 1)); [|lia].
Qed.

Lemma launchM_snoc {St} (body : Z -> St -> option St) order tid s :
  launchM body (order ++ [tid]) s = launchM body order s ≫= body tid.
Proof. unfold launchM. by rewrite foldl_snoc. Qed.

Lemma escape_writes_unique tid w1 w2 :
  escape_writes tid w1 -> escape_writes tid w2 -> w1 = w2.
Proof.
  intros [[Hn ->]|(l & r & Hs & ->)] [[Hn' ->]|(l' & r' & Hs' & ->)];
    try done.
  - pose proof (subtrees_links _ _ _ _ _ valid_links Hs') as Hl.
    simpl in Hl. lia.
  - pose proof (subtrees_links _ _ _ _ _ valid_links Hs) as Hl.
    simpl in Hl. lia.
  - assert (Node tid l r = Node tid l' r') as [= -> ->]; [|done].
    by apply (subtrees_unique t); [apply valid_NoDup|..].
Qed.

Lemma escape_launch (fuel : nat) (order : list Z) (a : list Z) :
  (Z.to_nat (2 * n) <= fuel)%nat ->
  (forall tid, tid ∈ order -> 0 <= tid < n) ->
  exists w,
    launchM (assign_escape_indices_kernel fuel (n - 1) left right) order a
      = Some (apply_writes w a) /\
    forall p, p ∈ w <->
      exists tid wt, tid ∈ order /\ escape_writes tid wt /\ p ∈ wt.
Proof.
  intros Hfuel. induction order as [|tid order IH] using rev_ind; intros Hord.
  - exists []. split; [done|]. intros p. split.
    + by intros ?%elem_of_nil.
    + by intros (tid & wt & ?%elem_of_nil & _).
  - destruct IH as (w & Hw & Hin).
    { intros tid' Ht. apply Hord. apply elem_of_app. by left. }
    destruct (escape_writes_exist tid) as [wt Hwt].
    { apply Hord. apply elem_of_app. right. by apply list_elem_of_singleton. }
    exists (w ++ wt). split.
    + rewrite launchM_snoc, Hw. simpl.
      rewrite (escape_thread fuel tid wt) by done.
      by rewrite apply_writes_app.
    + intros p. rewrite elem_of_app, Hin. split.
      * intros [(tid' & wt' & Ht & Hw' & Hp)|Hp].
        -- exists tid', wt'. split; [|done]. apply elem_of_app. by left.
        -- exists tid, wt. split; [|done].
           apply elem_of_app. right. by apply list_elem_of_singleton.
      * intros (tid' & wt' & [Ht|Ht]%elem_of_app & Hw' & Hp).
        -- left. eauto.
        -- apply list_elem_of_singleton in Ht as ->. right.
           by rewrite (escape_writes_unique _ _ _ Hwt Hw').
Qed.

Lemma escape_writes_range tid w c x :
  escape_writes tid w -> (c, x) ∈ w -> 0 <= c < 2 * n - 1.
Proof.
  intros Hw Hin. apply valid_node_range.
  apply (escape_writes_sound _ _ _ Hw) in Hin.
  rewrite <- (escapes_fst t (-1)). apply list_elem_of_fmap. by exists (c, x).
Qed.

(** After the launch every node holds its escape link. *)
Lemma escape_launch_result (fuel : nat) (order : list Z) (esc0 : list Z) :
  (Z.to_nat (2 * n) <= fuel)%nat ->
  launch_order n order ->
  alen esc0 = 2 * n - 1 ->
  exists esc,
    launchM (assign_escape_indices_kernel fuel (n - 1) left right) order esc0
      = Some esc /\
    forall v x, (v, x) ∈ escapes t (-1) -> aget esc v = x.
Proof.
  intros Hfuel Hord Hlen.
  destruct (escape_launch fuel order esc0 Hfuel) as (w & Hw & Hin).
  { intros tid. by rewrite (launch_order_elem _ _ _ Hord). }
  exists (apply_writes w esc0). split; [done|]. intros v x Hvx.
  assert (forall p, p ∈ w -> p ∈ escapes t (-1)) as Hsound.
  { intros p (tid & wt & _ & Hwt & Hp)%Hin.
    by apply (escape_writes_sound tid wt). }
  assert (exists y, (v, y) ∈ w) as [y Hy].
  { assert (v ∈ preorder t) as Hv.
    { rewrite <- (escapes_fst t (-1)). apply list_elem_of_fmap.
      by exists (v, x). }
    destruct (spine_cover t v Hv) as [Hsp|(i & l & r & Hs & Hsp)].
    - exists (-1). apply Hin. exists (n - 1), ((fun c => (c, -1)) <$> right_spine t).
      split; [|split].
      + apply (launch_order_elem _ _ _ Hord).
        apply valid_node_range in Hv. lia.
      + by left.
      + apply list_elem_of_fmap. by exists v.
    - exists (label r). apply Hin.
      exists i, ((fun c => (c, label r)) <$> right_spine l).
      pose proof (subtrees_links _ _ _ _ _ valid_links Hs) as Hl.
      pose proof (proj1 (valid_node_range i) (subtrees_label _ _ Hs)).
      simpl in Hl. split; [|split].
      + apply (launch_order_elem _ _ _ Hord). lia.
      + right. eauto.
      + apply list_elem_of_fmap. by exists v. }
  rewrite (apply_writes_lookup w esc0 v y).
  - apply (valid_escapes_functional (-1) v); auto.
  - intros c x1 x2 H1 H2.
    apply (valid_escapes_functional (-1) c); auto.
  - intros c x1 (tid & wt & _ & Hwt & Hp)%Hin. rewrite Hlen.
    by apply (escape_writes_range tid wt c x1).
  - done.
Qed.

Lemma stackless_dfs_mono fuel fuel' esc v out :
  (fuel <= fuel')%nat ->
  stackless_dfs fuel n left esc v = Some out ->
  stackless_dfs fuel' n left esc v = Some out.
Proof.
  revert fuel' v out. induction fuel as [|fuel IH]; intros fuel' v out Hle.
  - simpl. destruct (v =? -1) eqn:E; [|done]. intros [= <-].
    destruct fuel'; simpl; by rewrite E.
  - destruct fuel' as [|fuel']; [lia|]. simpl.
    destruct (v =? -1); [done|].
    set (next := if v <? n - 1 then _ else _).
    destruct (stackless_dfs fuel n left esc next) as [o|] eqn:Ho; [|done].
    rewrite (IH fuel' next o); [done|lia|done].
Qed.

(** From the root of a subtree the walk lists the subtree in preorder and
    goes on at the subtree's escape link. *)
Lemma stackless_dfs_subtree esc s e k rest :
  links_ok n left right s ->
  (forall v x, (v, x) ∈ escapes s e -> aget esc v = x) ->
  (forall v, v ∈ preorder s -> v <> -1) ->
  stackless_dfs k n left esc e = Some rest ->
  stackless_dfs (length (preorder s) + k) n left esc (label s)
    = Some (preorder s ++ rest).
Proof.
  revert e k rest. induction s as [u|u l IHl r IHr]; intros e k rest; simpl.
  - intros Hu Hesc Hne Hrest.
    destruct (Z.eqb_spec u (-1)) as [->|_].
    { by destruct (Hne (-1)); [apply list_elem_of_singleton|]. }
    destruct (Z.ltb_spec u (n - 1)); [lia|].
    rewrite (Hesc u e) by (by apply list_elem_of_singleton).
    by rewrite Hrest.
  - intros (Hu & Hl & Hr & Hlo & Hro) Hesc Hne Hrest.
    destruct (Z.eqb_spec u (-1)) as [->|_].
    { by destruct (Hne (-1)); [apply elem_of_cons; left|]. }
    destruct (Z.ltb_spec u (n - 1)); [|lia]. rewrite Hl.
    rewrite length_app, <- Nat.add_assoc.
    rewrite (IHl (label r) _ (preorder r ++ rest)); try done.
    + simpl. by rewrite <- app_assoc.
    + intros v x Hin. apply Hesc.
      apply elem_of_cons. right. apply elem_of_app. by left.
    + intros v Hv. apply Hne.
      apply elem_of_cons. right. apply elem_of_app. by left.
    + apply (IHr e); try done.
      * intros v x Hin. apply Hesc.
        apply elem_of_cons. right. apply elem_of_app. by right.
      * intros v Hv. apply Hne.
        apply elem_of_cons. right. apply elem_of_app. by right.
Qed.

(** C3.  On a valid topology the escape-index kernel, launched with one
    thread per leaf in any order, terminates and leaves in [escape[v]] the
    node that follows the subtree of [v] in the depth-first order of the
    tree, [-1] when nothing follows; the value is [-1] exactly on the right
    spine of the root; and the stackless walk from node 0 (left child at an
    internal node, escape link at a leaf) lists the [2N-1] nodes in
    depth-first order, each once, and stops at [-1]. *)
Theorem assign_escape_indices_correct (fuel : nat) (order : list Z)
    (esc0 : list Z) :
  (Z.to_nat (2 * n) <= fuel)%nat ->
  launch_order n order ->
  alen esc0 = 2 * n - 1 ->
  exists escape,
    launchM (assign_escape_indices_kernel fuel (n - 1) left right) order esc0
      = Some escape /\
    (forall v, 0 <= v < 2 * n - 1 ->
       exists s pre post,
         s ∈ subtrees t /\ label s = v /\
         preorder t = pre ++ preorder s ++ post /\
         aget escape v = hd (-1) post) /\
    (forall v, 0 <= v < 2 * n - 1 ->
       (aget escape v = -1 <-> v ∈ right_spine t)) /\
    stackless_dfs fuel n left escape 0 = Some (preorder t) /\
    preorder t ≡ₚ seqZ 0 (2 * n - 1).
Proof.
  intros Hfuel Hord Hlen.
  destruct (escape_launch_result fuel order esc0 Hfuel Hord Hlen)
    as (esc & Hrun & Hesc).
  exists esc. split; [done|]. split; [|split; [|split]].
  - intros v Hv. apply valid_node_range in Hv.
    destruct (preorder_subtree t v Hv) as (s & Hs & <-).
    destruct (escapes_next t s (-1) Hs) as (pre & post & Hpre & Hin).
    exists s, pre, post. repeat split; try done. by apply Hesc.
  - intros v Hv. apply valid_node_range in Hv. split.
    + intros Hm1.
      assert (exists x, (v, x) ∈ escapes t (-1)) as [x Hx].
      { rewrite <- (escapes_fst t (-1)) in Hv.
        apply list_elem_of_fmap in Hv as ([v' x] & -> & Hin). by exists x. }
      destruct (escapes_off_spine _ _ _ _ Hx) as [Hsp|Hnode]; [done|].
      rewrite (Hesc v x Hx) in Hm1. subst x.
      apply valid_node_range in Hnode. lia.
    + intros Hsp. apply Hesc. by apply escapes_spine.
  - rewrite <- (vt_root _ _ _ _ _ Hvalid).
    apply (stackless_dfs_mono (length (preorder t) + 0)).
    { rewrite valid_size. lia. }
    rewrite <- (app_nil_r (preorder t)) at 2.
    apply (stackless_dfs_subtree esc t (-1)).
    + apply valid_links.
    + done.
    + intros v Hv%valid_node_range. lia.
    + done.
  - apply Hvalid.
Qed.

(** C9, as the code has it.  The launch has [N] threads.  Thread [N-1],
    the one that is not below [num_internal_nodes], starts at node 0 with
    escape value [-1]: it stores [-1] into the root's entry and into every
    node of the root's right spine, whatever the buffer held, and touches
    nothing else.  A thread [i < N-1] never stores into the root's entry. *)
Theorem escape_root_written_by_last_thread (fuel : nat) (esc0 : list Z) :
  (Z.to_nat (2 * n) <= fuel)%nat ->
  alen esc0 = 2 * n - 1 ->
  (exists escape,
     assign_escape_indices_kernel fuel (n - 1) left right (n - 1) esc0
       = Some escape /\
     aget escape 0 = -1 /\
     (forall v, v ∈ right_spine t -> aget escape v = -1) /\
     (forall v, v ∉ right_spine t -> aget escape v = aget esc0 v)) /\
  (forall i, 0 <= i < n - 1 ->
     exists escape,
       assign_escape_indices_kernel fuel (n - 1) left right i esc0
         = Some escape /\
       aget escape 0 = aget esc0 0).
Proof.
  intros Hfuel Hlen. split.
  - set (w := (fun c => (c, -1)) <$> right_spine t).
    assert (escape_writes (n - 1) w) as Hw by (by left).
    exists (apply_writes w esc0). split; [by apply escape_thread|].
    assert (forall v, v ∈ right_spine t -> aget (apply_writes w esc0) v = -1)
      as Hsp.
    { intros v Hv. apply apply_writes_lookup.
      - intros c x y (? & [= _ ->] & _)%list_elem_of_fmap
                     (? & [= _ ->] & _)%list_elem_of_fmap. done.
      - intros c x Hin. rewrite Hlen.
        by apply (escape_writes_range (n - 1) w c x).
      - apply list_elem_of_fmap. by exists v. }
    split; [|split; [done|]].
    + apply Hsp. rewrite <- (vt_root _ _ _ _ _ Hvalid), right_spine_head.
      apply elem_of_cons. by left.
    + intros v Hv. apply apply_writes_other. subst w.
      rewrite <- list_fmap_compose. simpl. by rewrite list_fmap_id.
  - intros i Hi.
    destruct (escape_writes_exist i) as [w Hw]; [lia|].
    exists (apply_writes w esc0). split; [by apply escape_thread|].
    apply apply_writes_other.
    intros ([c x] & Hc & Hin)%list_elem_of_fmap. simpl in Hc. subst c.
    pose proof (escape_writes_sound _ _ _ Hw Hin) as Hesc.
    destruct Hw as [[Hn _]|(l & r & Hs & ->)]; [lia|].
    apply list_elem_of_fmap in Hin as (c & [= <- ->] & Hc).
    assert ((0, -1) ∈ escapes t (-1)) as Hroot.
    { apply escapes_spine.
      rewrite <- (vt_root _ _ _ _ _ Hvalid), right_spine_head.
      apply elem_of_cons. by left. }
    pose proof (valid_escapes_functional _ _ _ _ Hesc Hroot) as Hr.
    assert (label r ∈ preorder t) as Hlr%valid_node_range; [|lia].
    apply (subtrees_preorder t (Node i l r)); [done|]. simpl.
    apply elem_of_cons. right. apply elem_of_app. right.
    apply label_in_preorder.
Qed.

End Escape.

(** A three-leaf topology: root 0 with children 1 (internal) and leaf 4;
    node 1 has the leaves 2 and 3. *)
Definition ex3_tree : tree := Node 0 (Node 1 (Leaf 2) (Leaf 3)) (Leaf 4).
Definition ex3_left : list Z := [1; 2].
Definition ex3_right : list Z := [4; 3].
Definition ex3_parent : list Z := [-1; 0; 1; 1; 0].

Lemma ex3_valid : valid_topology 3 ex3_left ex3_right ex3_parent ex3_tree.
Proof.
  split; [done|done| |done|done].
  simpl. unfold ex3_left, ex3_right. repeat split; (lia || by vm_compute).
Qed.

Lemma ex3_order : launch_order 3 [1; 2; 0].
Proof.
  unfold launch_order. change (seqZ 0 3) with [0; 1; 2].
  apply (bool_decide_unpack _). by vm_compute.
Qed.

Lemma assign_escape_indices_correct_witness :
  exists escape,
    launchM (assign_escape_indices_kernel 6 (3 - 1) ex3_left ex3_right)
      [1; 2; 0] (zeros 0 5) = Some escape /\
    (forall v, 0 <= v < 2 * 3 - 1 ->
       exists s pre post,
         s ∈ subtrees ex3_tree /\ label s = v /\
         preorder ex3_tree = pre ++ preorder s ++ post /\
         aget escape v = hd (-1) post) /\
    (forall v, 0 <= v < 2 * 3 - 1 ->
       (aget escape v = -1 <-> v ∈ right_spine ex3_tree)) /\
    stackless_dfs 6 3 ex3_left escape 0 = Some (preorder ex3_tree) /\
    preorder ex3_tree ≡ₚ seqZ 0 (2 * 3 - 1).
Proof.
  apply (assign_escape_indices_correct 3 ex3_left ex3_right ex3_parent
           ex3_tree ex3_valid 6 [1; 2; 0] (zeros 0 5)).
  - vm_compute. lia.
  - exact ex3_order.
  - reflexivity.
Defined.

(** C9 fails on the code: in the three-leaf launch the thread [i = 2]
    (which is [>= N-1]) stores into the escape buffer, and the root's [-1]
    is its store: [wp.zeros] had left [0] there. *)
Lemma escape_last_thread_counterexample :
  assign_escape_indices_kernel 6 (3 - 1) ex3_left ex3_right 2 (zeros 0 5)
    = Some [-1; 0; 0; 0; -1] /\
  ~ (assign_escape_indices_kernel 6 (3 - 1) ex3_left ex3_right 2 (zeros 0 5)
       = Some (zeros 0 5) /\
     aget (zeros 0 5) 0 = -1).
Proof.
  split; [by vm_compute|]. intros [_ Hinit]. by vm_compute in Hinit.
Qed.

Lemma escape_root_written_by_last_thread_witness :
  (exists escape,
     assign_escape_indices_kernel 6 (3 - 1) ex3_left ex3_right (3 - 1)
       (zeros 0 5) = Some escape /\
     aget escape 0 = -1 /\
     (forall v, v ∈ right_spine ex3_tree -> aget escape v = -1) /\
     (forall v, v ∉ right_spine ex3_tree ->
                aget escape v = aget (zeros 0 5) v)) /\
  (forall i, 0 <= i < 3 - 1 ->
     exists escape,
       assign_escape_indices_kernel 6 (3 - 1) ex3_left ex3_right i
         (zeros 0 5) = Some escape /\
       aget escape 0 = aget (zeros 0 5) 0).
Proof.
  apply (escape_root_written_by_last_thread 3 ex3_left ex3_right ex3_parent
           ex3_tree ex3_valid 6 (zeros 0 5)).
  - vm_compute. lia.
  - reflexivity.
Defined.

(** ** What [refit] and [rebuild] return *)

Section HostInversion.
Context {F : Type} `{Scalar F}.

Lemma refit_Ok_inv (o : oracle) (b b' : Bvh F) log :
  num_leaves b <> 0 ->
  refit o b = (log, Ok b') ->
  let st :=
    launch
      (assign_bounding_boxes_kernel (num_leaves b) (left_nodes b)
         (right_nodes b) (parent_nodes b) (lower_bounds b) (upper_bounds b)
         (_leaf_indices b))
      (o_sched_refit o)
      (refit_launch_state (num_leaves b) (fill_ (_flags b) 0)
         (bound_boxes b)) in
  all_done st = true /\
  b' = MkBvh (lower_bounds b) (upper_bounds b) (bvh_device b)
         (num_leaves b) (num_internal_nodes b) (num_total_nodes b)
         (rs_flags st) (_leaf_indices b) (_morton_codes b)
         (rs_boxes st) (parent_nodes b) (left_nodes b) (right_nodes b)
         (escape_indices b)
         (launch
            (compact_bvh_nodes_kernel (num_leaves b) (rs_boxes st)
               (left_nodes b) (_leaf_indices b) (escape_indices b))
            (o_order_compact o) (bvh_nodes b)).
Proof.
  intros Hn. unfold refit. destruct (Z.eqb_spec (num_leaves b) 0); [done|].
  cbv zeta. destruct (all_done _); [|done]. by intros [= _ <-].
Qed.

Lemma rebuild_Ok_inv (o : oracle) (b b' : Bvh F) log :
  1 <= num_leaves b ->
  rebuild o b = (log, Ok b') ->
  exists topo escape log',
    (if 1 <? num_leaves b then
       launchM
         (construct_binary_radix_tree_kernel (o_fuel o) (num_leaves b)
            (fst (o_sorted o)))
         (o_order_tree o)
         (MkTopology (left_nodes b) (right_nodes b) (parent_nodes b))
     else
       Some (MkTopology (left_nodes b) (right_nodes b)
               (fill_ (parent_nodes b) (-1)))) = Some topo /\
    launchM
      (assign_escape_indices_kernel (o_fuel o) (num_internal_nodes b)
         (top_left topo) (top_right topo))
      (o_order_escape o) (escape_indices b) = Some escape /\
    refit o
      (MkBvh (lower_bounds b) (upper_bounds b) (bvh_device b)
         (num_leaves b) (num_internal_nodes b) (num_total_nodes b)
         (_flags b) (snd (o_sorted o)) (fst (o_sorted o))
         (bound_boxes b) (top_parent topo) (top_left topo)
         (top_right topo) escape (bvh_nodes b)) = (log', Ok b').
Proof.
  intros Hn. unfold rebuild.
  destruct (Z.eqb_spec (num_leaves b) 0); [lia|].
  destruct (Z.ltb_spec 0 (num_leaves b)); [|lia].
  destruct (o_sorted o) as [mc li]. simpl.
  destruct (if 1 <? num_leaves b then _ else _) as [topo|]; [|done].
  destruct (launchM _ _ _) as [esc|] eqn:Hesc; [|done].
  destruct (refit _ _) as [log' r] eqn:Hr. intros [= _ ->].
  by exists topo, esc, log'.
Qed.

End HostInversion.

(** ** C6: the sorted leaf permutation *)

(** Modelled from the spec: the external device radix sort
    [wp_radix_sort_pairs_int_device] of the Warp runtime (section 4.3, the
    key-index sorter).  "Given paired arrays [keys[0..N)] and [perm[0..N)],
    sort by key ascending, moving [perm] in lockstep.  Ties may be broken
    arbitrarily by the sort."  The buffers keep their size; their second
    halves are scratch space. *)
Definition radix_sort_pairs (n : Z) (keys perm keys' perm' : list Z) : Prop :=
  alen keys' = alen keys /\ alen perm' = alen perm /\
  zip (take (Z.to_nat n) keys') (take (Z.to_nat n) perm')
    ≡ₚ zip (take (Z.to_nat n) keys) (take (Z.to_nat n) perm) /\
  (forall j k, 0 <= j <= k -> k < n -> aget keys' j <= aget keys' k).

Lemma aget_lookup {A} `{Inhabited A} (a : list A) i :
  0 <= i < alen a -> a !! Z.to_nat i = Some (aget a i).
Proof.
  unfold alen, aget. intros Hi. destruct (Z.leb_spec 0 i); [|lia].
  apply list_lookup_lookup_total_lt. lia.
Qed.

Lemma take_seqZ_aget (l : list Z) n :
  0 <= n <= alen l -> (forall t, 0 <= t < n -> aget l t = t) ->
  take (Z.to_nat n) l = seqZ 0 n.
Proof.
  intros Hn Hl. apply list_eq. intros i.
  destruct (decide (i < Z.to_nat n)%nat) as [Hi|Hi].
  - rewrite lookup_take_lt by done. rewrite lookup_seqZ_lt by lia.
    replace i with (Z.to_nat (Z.of_nat i)) at 1 by lia.
    rewrite aget_lookup by lia. f_equal. rewrite Hl; lia.
  - rewrite lookup_take_ge by lia. by rewrite lookup_seqZ_ge by lia.
Qed.

Lemma init_leaf_indices (order : list Z) (li : list Z) n :
  launch_order n order -> 0 <= n <= alen li ->
  take (Z.to_nat n) (launch init_leaf_indices_and_bounds_kernel order li)
    = seqZ 0 n.
Proof.
  intros Hord Hn. unfold init_leaf_indices_and_bounds_kernel.
  apply take_seqZ_aget.
  - by rewrite (launch_own_cell_len (fun tid => tid)).
  - intros t Ht. rewrite (launch_own_cell (fun tid => tid)) by lia.
    rewrite bool_decide_eq_true_2; [done|].
    by apply (launch_order_elem _ _ _ Hord).
Qed.

(** What the sorter's contract gives when the indices start out as the
    identity: a permutation, keys in order, and each key still paired with
    its index. *)
Lemma radix_sort_pairs_identity n keys perm keys' perm' :
  0 <= n -> n <= alen keys -> n <= alen perm ->
  take (Z.to_nat n) perm = seqZ 0 n ->
  radix_sort_pairs n keys perm keys' perm' ->
  take (Z.to_nat n) perm' ≡ₚ seqZ 0 n /\
  (forall k, 0 <= k < n -> aget keys' k = aget keys (aget perm' k)).
Proof.
  intros Hn Hk Hp Hid (Hlk & Hlp & Hperm & Hsorted).
  unfold alen in *.
  split.
  - rewrite <- Hid.
    rewrite <- (snd_zip (take (Z.to_nat n) keys') (take (Z.to_nat n) perm'))
      by (rewrite !length_take; lia).
    rewrite <- (snd_zip (take (Z.to_nat n) keys) (take (Z.to_nat n) perm))
      by (rewrite !length_take; lia).
    by rewrite Hperm.
  - intros k Hkn.
    assert ((aget keys' k, aget perm' k)
              ∈ zip (take (Z.to_nat n) keys') (take (Z.to_nat n) perm'))
      as Hin.
    { apply (list_elem_of_lookup_2 _ (Z.to_nat k)).
      apply lookup_zip_with_Some. eexists _, _. split; [done|].
      rewrite !lookup_take_lt by lia.
      split; apply aget_lookup; unfold alen; lia. }
    rewrite Hperm in Hin.
    apply list_elem_of_lookup_1 in Hin as [i Hi].
    apply lookup_zip_with_Some in Hi as (x & y & [= -> ->] & Hx & Hy).
    assert (i < Z.to_nat n)%nat as Hi.
    { apply lookup_lt_Some in Hx. rewrite length_take in Hx. lia. }
    rewrite Hid in Hy. apply lookup_seqZ in Hy as [Hy _].
    rewrite lookup_take_lt in Hx by done. subst y.
    replace i with (Z.to_nat (0 + Z.of_nat i)) in Hx by lia.
    rewrite aget_lookup in Hx by (unfold alen; lia). by injection Hx.
Qed.

(** Modelled from the spec: the order the external sort leaves equal keys
    in.  Section 3 has the sorted permutation with "ties broken by original
    leaf index"; section 4.3 allows the sort any tie order.  The sort the
    code calls is the runtime's least-significant-digit radix sort, every
    pass of which keeps the pairs of equal digit in their order: it is
    stable, and the indices enter it as the identity.  [insert_pair] puts a
    pair before the first pair whose key is not smaller. *)
Fixpoint insert_pair (p : Z * Z) (l : list (Z * Z)) : list (Z * Z) :=
  match l with
  | [] => [p]
  | q :: l' => if fst p <=? fst q then p :: q :: l' else q :: insert_pair p l'
  end.

(** Modelled from the spec: the stable sort of a list of (key, index)
    pairs by key.  A stable sort has one result; insertion from the right
    computes it. *)
Fixpoint stable_sort_pairs (l : list (Z * Z)) : list (Z * Z) :=
  match l with
  | [] => []
  | p :: l' => insert_pair p (stable_sort_pairs l')
  end.

(** Modelled from the spec: a call of [wp_radix_sort_pairs_int_device] on
    the first [n] entries of the key and index buffers, as a stable sort.
    The buffers keep their size; their second halves are scratch space. *)
Definition wp_radix_sort_pairs_int_device
    (n : Z) (keys perm keys' perm' : list Z) : Prop :=
  alen keys' = alen keys /\ alen perm' = alen perm /\
  zip (take (Z.to_nat n) keys') (take (Z.to_nat n) perm')
    = stable_sort_pairs (zip (take (Z.to_nat n) keys) (take (Z.to_nat n) perm)).

(** Key first, index second. *)
Definition pair_lt (p q : Z * Z) : Prop :=
  fst p < fst q \/ (fst p = fst q /\ snd p < snd q).

Lemma insert_pair_perm p l : insert_pair p l ≡ₚ p :: l.
Proof.
  induction l as [|q l IH]; simpl; [done|].
  destruct (fst p <=? fst q); [done|].
  rewrite IH. apply Permutation_swap.
Qed.

Lemma stable_sort_pairs_perm l : stable_sort_pairs l ≡ₚ l.
Proof.
  induction l as [|p l IH]; simpl; [done|].
  by rewrite insert_pair_perm, IH.
Qed.

Lemma insert_pair_sorted p l :
  StronglySorted pair_lt l -> Forall (fun q => snd p < snd q) l ->
  StronglySorted pair_lt (insert_pair p l).
Proof.
  induction 1 as [|q l Hl IH Hq]; intros Hp; simpl.
  - repeat constructor.
  - apply Forall_cons in Hp as [Hpq Hp].
    destruct (Z.leb_spec (fst p) (fst q)) as [Hle|Hgt].
    + constructor; [by constructor|]. constructor.
      * unfold pair_lt. lia.
      * rewrite Forall_forall in Hq, Hp. apply Forall_forall. intros r Hr.
        specialize (Hq r Hr). specialize (Hp r Hr). unfold pair_lt in *. lia.
    + constructor; [by apply IH|].
      rewrite insert_pair_perm. constructor; [unfold pair_lt; lia | done].
Qed.

Lemma stable_sort_pairs_sorted l :
  StronglySorted (fun p q => snd p < snd q) l ->
  StronglySorted pair_lt (stable_sort_pairs l).
Proof.
  induction 1 as [|p l Hl IH Hp]; simpl; [constructor|].
  apply insert_pair_sorted; [done|]. by rewrite stable_sort_pairs_perm.
Qed.

Lemma StronglySorted_lookup_lt {A} (R : A -> A -> Prop) l i j x y :
  StronglySorted R l -> l !! i = Some x -> l !! j = Some y -> (i < j)%nat ->
  R x y.
Proof.
  intros Hl. revert i j. induction Hl as [|z l Hl IH Hz]; intros i j Hi Hj Hij.
  - done.
  - destruct j as [|j]; [lia|]. simpl in Hj. destruct i as [|i].
    + injection Hi as ->. rewrite Forall_forall in Hz. apply Hz.
      by apply list_elem_of_lookup_2 in Hj.
    + simpl in Hi. apply (IH i j); [done|done|lia].
Qed.

Lemma StronglySorted_of_lookup {A} (R : A -> A -> Prop) l :
  (forall i j x y, l !! i = Some x -> l !! j = Some y -> (i < j)%nat -> R x y) ->
  StronglySorted R l.
Proof.
  induction l as [|z l IH]; intros Hl; constructor.
  - apply IH. intros i j x y Hi Hj Hij. apply (Hl (S i) (S j)); [done|done|lia].
  - apply Forall_forall. intros y [j Hj]%list_elem_of_lookup_1.
    apply (Hl 0%nat (S j)); [done|done|lia].
Qed.

(** The pairs handed to the sort, when the indices are the identity, are
    in the order of their indices. *)
Lemma zip_identity_sorted (keys : list Z) n :
  StronglySorted (fun p q : Z * Z => snd p < snd q) (zip keys (seqZ 0 n)).
Proof.
  apply StronglySorted_of_lookup. intros i j x y Hi Hj Hij.
  apply lookup_zip_with_Some in Hi as (a & b & -> & _ & Hb).
  apply lookup_zip_with_Some in Hj as (c & d & -> & _ & Hd).
  apply lookup_seqZ in Hb as [-> _]. apply lookup_seqZ in Hd as [-> _].
  simpl. lia.
Qed.

Lemma zip_take_lookup (ks vs : list Z) n k :
  0 <= k < n -> n <= alen ks -> n <= alen vs ->
  zip (take (Z.to_nat n) ks) (take (Z.to_nat n) vs) !! Z.to_nat k
    = Some (aget ks k, aget vs k).
Proof.
  intros Hk Hks Hvs. apply lookup_zip_with_Some. eexists _, _.
  split; [done|]. rewrite !lookup_take_lt by lia.
  split; apply aget_lookup; lia.
Qed.

(** The stable sort on identity indices leaves the pairs in the order of
    (key, original index). *)
Lemma stable_sort_identity n keys perm keys' perm' :
  0 <= n -> n <= alen keys -> n <= alen perm ->
  take (Z.to_nat n) perm = seqZ 0 n ->
  wp_radix_sort_pairs_int_device n keys perm keys' perm' ->
  forall j k, 0 <= j -> j < k -> k < n ->
    pair_lt (aget keys' j, aget perm' j) (aget keys' k, aget perm' k).
Proof.
  intros Hn Hk Hp Hid (Hlk & Hlp & Hsort) j k Hj Hjk Hkn.
  pose proof (stable_sort_pairs_sorted _
                (zip_identity_sorted (take (Z.to_nat n) keys) n)) as Hs.
  rewrite <- Hid, <- Hsort in Hs.
  apply (StronglySorted_lookup_lt _ _ (Z.to_nat j) (Z.to_nat k) _ _ Hs);
    [apply zip_take_lookup; lia | apply zip_take_lookup; lia | lia].
Qed.

(** A stable sort meets the contract of section 4.3. *)
Lemma stable_sort_radix_sort_pairs n keys perm keys' perm' :
  0 <= n -> n <= alen keys -> n <= alen perm ->
  take (Z.to_nat n) perm = seqZ 0 n ->
  wp_radix_sort_pairs_int_device n keys perm keys' perm' ->
  radix_sort_pairs n keys perm keys' perm'.
Proof.
  intros Hn Hk Hp Hid Hsort.
  pose proof (stable_sort_identity n keys perm keys' perm' Hn Hk Hp Hid Hsort)
    as Hlt.
  destruct Hsort as (Hlk & Hlp & Hsort).
  split; [done|]. split; [done|]. split.
  - rewrite Hsort. apply stable_sort_pairs_perm.
  - intros j k Hjk Hkn. destruct (decide (j = k)) as [->|Hne]; [lia|].
    specialize (Hlt j k). unfold pair_lt in Hlt. simpl in Hlt. lia.
Qed.

Section LeafPermutation.
Context {F : Type} `{Scalar F}.

(** The sort call of a [rebuild]: the keys the encoder wrote and the
    index buffer as the initialisation kernel left it. *)
Lemma rebuild_sort_call (o : oracle) (b : Bvh F) :
  num_leaves b <> 0 ->
  OpSort (num_leaves b) (o_morton o)
    (launch init_leaf_indices_and_bounds_kernel (o_order_init o)
       (_leaf_indices b))
    ∈ fst (rebuild o b).
Proof.
  intros Hn. unfold rebuild. apply Z.eqb_neq in Hn. rewrite Hn.
  destruct (0 <? num_leaves b); destruct (o_sorted o) as [mc li];
    (destruct (if 1 <? num_leaves b then _ else _) as [topo|];
     [destruct (launchM _ _ _) as [esc|];
      [destruct (refit _ _) as [log' r]|]|]);
    cbn [fst]; rewrite ?elem_of_app, ?elem_of_cons; intuition.
Qed.

(** C6.  After a rebuild over [N >= 1] leaves, the sort call of which
    left the stable sort of the buffers it was given, the leaf index
    buffer holds a permutation of [0, N), the Morton codes read along it
    are non-decreasing, the key buffer holds exactly these codes, and two
    leaves of equal code stand in the order of their original indices. *)
Theorem rebuild_leaf_permutation (o : oracle) (b b' : Bvh F) (log : list op) :
  1 <= num_leaves b ->
  alen (_leaf_indices b) = num_leaves b * 2 ->
  alen (o_morton o) = num_leaves b * 2 ->
  launch_order (num_leaves b) (o_order_init o) ->
  rebuild o b = (log, Ok b') ->
  (forall keys indices, OpSort (num_leaves b) keys indices ∈ log ->
     wp_radix_sort_pairs_int_device (num_leaves b) keys indices
       (fst (o_sorted o)) (snd (o_sorted o))) ->
  take (Z.to_nat (num_leaves b)) (_leaf_indices b')
    ≡ₚ seqZ 0 (num_leaves b) /\
  (forall j k, 0 <= j <= k -> k < num_leaves b ->
     aget (o_morton o) (aget (_leaf_indices b') j)
       <= aget (o_morton o) (aget (_leaf_indices b') k)) /\
  (forall k, 0 <= k < num_leaves b ->
     aget (_morton_codes b') k
       = aget (o_morton o) (aget (_leaf_indices b') k)) /\
  (forall j k, 0 <= j -> j < k -> k < num_leaves b ->
     aget (o_morton o) (aget (_leaf_indices b') j)
       = aget (o_morton o) (aget (_leaf_indices b') k) ->
     aget (_leaf_indices b') j < aget (_leaf_indices b') k).
Proof.
  intros Hn Hli Hmc Hord Hrun Hcall.
  assert (wp_radix_sort_pairs_int_device (num_leaves b) (o_morton o)
            (launch init_leaf_indices_and_bounds_kernel (o_order_init o)
               (_leaf_indices b))
            (fst (o_sorted o)) (snd (o_sorted o))) as Hsort.
  { apply Hcall. replace log with (fst (rebuild o b)) by (by rewrite Hrun).
    apply rebuild_sort_call. lia. }
  destruct (rebuild_Ok_inv o b b' log Hn Hrun)
    as (topo & esc & log' & _ & _ & Hrefit).
  apply refit_Ok_inv in Hrefit as [_ ->]; [|simpl; lia]. simpl.
  assert (num_leaves b
            <= alen (launch init_leaf_indices_and_bounds_kernel
                       (o_order_init o) (_leaf_indices b))) as Hlen.
  { unfold init_leaf_indices_and_bounds_kernel.
    rewrite (launch_own_cell_len (fun tid => tid)). lia. }
  assert (take (Z.to_nat (num_leaves b))
            (launch init_leaf_indices_and_bounds_kernel (o_order_init o)
               (_leaf_indices b)) = seqZ 0 (num_leaves b)) as Hid.
  { apply init_leaf_indices; [done|lia]. }
  assert (0 <= num_leaves b) as Hn0 by lia.
  assert (num_leaves b <= alen (o_morton o)) as Hmc' by lia.
  pose proof (stable_sort_identity _ _ _ _ _ Hn0 Hmc' Hlen Hid Hsort) as Hlt.
  pose proof (stable_sort_radix_sort_pairs _ _ _ _ _ Hn0 Hmc' Hlen Hid Hsort)
    as Hcontract.
  destruct (radix_sort_pairs_identity _ _ _ _ _ Hn0 Hmc' Hlen Hid Hcontract)
    as [Hperm Hkeys].
  split; [done|]. split; [|split; [done|]].
  - intros j k Hjk Hk. rewrite <- !Hkeys by lia.
    destruct Hcontract as (_ & _ & _ & Hsorted). by apply Hsorted.
  - intros j k Hj Hjk Hk Heq. rewrite <- !Hkeys in Heq by lia.
    specialize (Hlt j k Hj Hjk Hk). unfold pair_lt in Hlt. simpl in Hlt. lia.
Qed.

End LeafPermutation.

(** Two leaves with the same box, hence the same Morton code. *)
Definition tie_bvh : Bvh Z :=
  Bvh_alloc
    (MkArray [Vec3 0 0 0; Vec3 0 0 0] (MkDevice 0 true 8))
    (MkArray [Vec3 1 1 1; Vec3 1 1 1] (MkDevice 0 true 8)).

Definition tie_oracle : oracle :=
  MkOracle 8 true [1; 0] [5; 5; 0; 0] ([5; 5; 0; 0], [0; 1; 0; 0])
    [0] [0; 1] [0; 0; 1; 1; 1; 1; 1] [0; 1; 2].

Lemma tie_order_init : launch_order (num_leaves tie_bvh) (o_order_init tie_oracle).
Proof. unfold launch_order. apply (bool_decide_unpack _). by vm_compute. Qed.

Lemma tie_sort_stable (keys indices : list Z) :
  OpSort (num_leaves tie_bvh) keys indices
    ∈ fst (rebuild tie_oracle tie_bvh) ->
  wp_radix_sort_pairs_int_device (num_leaves tie_bvh) keys indices
    (fst (o_sorted tie_oracle)) (snd (o_sorted tie_oracle)).
Proof.
  assert (exists l1 l2,
            fst (rebuild tie_oracle tie_bvh)
              = l1 ++ OpSort 2 [5; 5; 0; 0] [0; 1; 0; 0] :: l2 /\
            Forall (fun c => match c with OpSort _ _ _ => False | _ => True end)
              (l1 ++ l2)) as (l1 & l2 & -> & Hno).
  { eexists [_; _; _], _. split; [vm_compute; reflexivity|].
    repeat constructor. }
  rewrite elem_of_app, elem_of_cons. rewrite Forall_app in Hno.
  destruct Hno as [Hno1 Hno2]. rewrite Forall_forall in Hno1, Hno2.
  intros [Hin|[Heq|Hin]].
  - by apply Hno1 in Hin.
  - injection Heq as -> ->. split; [done|]. split; [done|]. by vm_compute.
  - by apply Hno2 in Hin.
Qed.

Lemma tie_rebuild_ok :
  exists b' : Bvh Z, rebuild tie_oracle tie_bvh =
    (fst (rebuild tie_oracle tie_bvh), Ok b').
Proof. eexists. vm_compute. reflexivity. Qed.

Lemma rebuild_leaf_permutation_witness :
  exists b' : Bvh Z,
  take (Z.to_nat (num_leaves tie_bvh)) (_leaf_indices b')
    ≡ₚ seqZ 0 (num_leaves tie_bvh) /\
  (forall j k, 0 <= j <= k -> k < num_leaves tie_bvh ->
     aget (o_morton tie_oracle) (aget (_leaf_indices b') j)
       <= aget (o_morton tie_oracle) (aget (_leaf_indices b') k)) /\
  (forall k, 0 <= k < num_leaves tie_bvh ->
     aget (_morton_codes b') k
       = aget (o_morton tie_oracle) (aget (_leaf_indices b') k)) /\
  (forall j k, 0 <= j -> j < k -> k < num_leaves tie_bvh ->
     aget (o_morton tie_oracle) (aget (_leaf_indices b') j)
       = aget (o_morton tie_oracle) (aget (_leaf_indices b') k) ->
     aget (_leaf_indices b') j < aget (_leaf_indices b') k).
Proof.
  destruct tie_rebuild_ok as [b' Hb']. exists b'.
  apply (rebuild_leaf_permutation tie_oracle tie_bvh b'
           (fst (rebuild tie_oracle tie_bvh))).
  - by vm_compute.
  - reflexivity.
  - reflexivity.
  - exact tie_order_init.
  - exact Hb'.
  - exact tie_sort_stable.
Defined.

(** ** Loops *)

(** The rule for [while_loop]: an invariant and a measure that decreases
    as long as the condition holds; fuel above the measure suffices. *)
Lemma while_loop_rule {St} (I : St -> Prop) (m : St -> nat)
    (cond : St -> bool) (body : St -> St) (fuel : nat) (s : St) :
  I s ->
  (forall s, I s -> cond s = true -> I (body s) /\ (m (body s) < m s)%nat) ->
  (m s <= fuel)%nat ->
  exists s', while_loop fuel cond body s = Some s' /\ I s' /\ cond s' = false.
Proof.
  intros HI Hstep. revert s HI.
  induction fuel as [|fuel IH]; intros s HI Hm; simpl.
  - destruct (cond s) eqn:Hc; [|by eauto].
    destruct (Hstep s HI Hc) as [_ Hlt]. lia.
  - destruct (cond s) eqn:Hc; [|by eauto].
    destruct (Hstep s HI Hc) as [HI' Hlt]. apply IH; [done|lia].
Qed.

(** ** Common prefixes of sorted keys *)

Lemma log2_lxor_lt x y h :
  0 <= x -> 0 <= y -> x <> y -> 0 <= h ->
  (Z.log2 (Z.lxor x y) < h <-> Z.shiftr x h = Z.shiftr y h).
Proof.
  intros Hx Hy Hne Hh.
  assert (0 < Z.lxor x y) as Hpos.
  { assert (0 <= Z.lxor x y) by (apply Z.lxor_nonneg; tauto).
    assert (Z.lxor x y <> 0) by (by rewrite Z.lxor_eq_0_iff). lia. }
  rewrite <- Z.lxor_eq_0_iff, <- Z.shiftr_lxor, Z.shiftr_eq_0_iff.
  split; [intros; right; lia | intros [?|[_ ?]]; lia].
Qed.

Lemma shiftr_mono x y h : 0 <= h -> x <= y -> Z.shiftr x h <= Z.shiftr y h.
Proof.
  intros Hh Hxy. rewrite !Z.shiftr_div_pow2 by done.
  apply Z.div_le_mono; [|done]. by apply Z.pow_pos_nonneg.
Qed.

Lemma log2_lxor_max x y z :
  0 <= x -> x < y -> y < z ->
  Z.log2 (Z.lxor x z) = Z.max (Z.log2 (Z.lxor x y)) (Z.log2 (Z.lxor y z)).
Proof.
  intros Hx Hxy Hyz.
  assert (forall h, 0 <= h ->
            (Z.log2 (Z.lxor x z) < h <->
             Z.log2 (Z.lxor x y) < h /\ Z.log2 (Z.lxor y z) < h)) as Hiff.
  { intros h Hh. rewrite !log2_lxor_lt by lia.
    pose proof (shiftr_mono x y h Hh). pose proof (shiftr_mono y z h Hh).
    lia. }
  pose proof (Z.log2_nonneg (Z.lxor x z)).
  pose proof (Z.log2_nonneg (Z.lxor x y)).
  pose proof (Z.log2_nonneg (Z.lxor y z)).
  pose proof (Hiff (Z.log2 (Z.lxor x z) + 1)).
  pose proof (Hiff (Z.max (Z.log2 (Z.lxor x y)) (Z.log2 (Z.lxor y z)) + 1)).
  lia.
Qed.

Lemma log2_lxor_neq x y z :
  0 <= x -> x < y -> y < z ->
  Z.log2 (Z.lxor x y) <> Z.log2 (Z.lxor y z).
Proof.
  intros Hx Hxy Hyz Heq.
  set (h := Z.log2 (Z.lxor x y)) in *.
  assert (0 <= h) as Hh by apply Z.log2_nonneg.
  assert (Z.shiftr x h <> Z.shiftr y h) as H1.
  { rewrite <- log2_lxor_lt by lia. fold h. lia. }
  assert (Z.shiftr y h <> Z.shiftr z h) as H2.
  { rewrite <- log2_lxor_lt by lia. rewrite <- Heq. lia. }
  assert (Z.shiftr x (h + 1) = Z.shiftr y (h + 1)) as H3.
  { rewrite <- log2_lxor_lt by lia. fold h. lia. }
  assert (Z.shiftr y (h + 1) = Z.shiftr z (h + 1)) as H4.
  { rewrite <- log2_lxor_lt by lia. rewrite <- Heq. lia. }
  assert (forall a, Z.shiftr a (h + 1) = Z.shiftr a h / 2) as Hd.
  { intros a. rewrite <- Z.shiftr_shiftr by lia.
    by rewrite Z.shiftr_div_pow2 by lia. }
  rewrite !Hd in H3, H4.
  pose proof (shiftr_mono x y h Hh). pose proof (shiftr_mono y z h Hh).
  clear Hd. clearbody h.
  set (p := Z.shiftr x h) in *. set (q := Z.shiftr y h) in *.
  set (r := Z.shiftr z h) in *. clearbody p q r.
  pose proof (Z.div_mod p 2). pose proof (Z.div_mod q 2).
  pose proof (Z.div_mod r 2). pose proof (Z.mod_pos_bound p 2).
  pose proof (Z.mod_pos_bound q 2). pose proof (Z.mod_pos_bound r 2). lia.
Qed.

Lemma log2_lxor_bound x y b :
  0 < b -> 0 <= x < 2 ^ b -> 0 <= y < 2 ^ b -> x <> y ->
  0 <= Z.log2 (Z.lxor x y) < b /\ 0 < Z.lxor x y < 2 ^ b.
Proof.
  intros Hb Hx Hy Hne.
  assert (0 < Z.lxor x y) as Hpos.
  { assert (0 <= Z.lxor x y) by (apply Z.lxor_nonneg; lia).
    assert (Z.lxor x y <> 0) by (by rewrite Z.lxor_eq_0_iff). lia. }
  assert (Z.log2 (Z.lxor x y) < b) as Hlt.
  { pose proof (Z.log2_lxor x y). 
    assert (Z.log2 x < b).
    { destruct (decide (x = 0)) as [->|]; [simpl; lia|].
      apply Z.log2_lt_pow2; lia. }
    assert (Z.log2 y < b).
    { destruct (decide (y = 0)) as [->|]; [simpl; lia|].
      apply Z.log2_lt_pow2; lia. }
    lia. }
  split; [split; [apply Z.log2_nonneg|done]|]. split; [done|].
  by apply Z.log2_lt_pow2.
Qed.

(** ** Parents in a tree *)

(** The (child, parent) pairs of a tree. *)
Fixpoint parent_pairs (t : tree) : list (Z * Z) :=
  match t with
  | Leaf v => []
  | Node v l r =>
      (label l, v) :: (label r, v) :: parent_pairs l ++ parent_pairs r
  end.

Lemma parent_pairs_keys t : (parent_pairs t).*1 ≡ₚ tail (preorder t).
Proof.
  induction t as [u|u l IHl r IHr]; simpl; [done|].
  rewrite fmap_app, IHl, IHr.
  rewrite (preorder_head l) at 2. rewrite (preorder_head r) at 2. simpl.
  constructor. by rewrite <- Permutation_middle.
Qed.

Lemma parent_pairs_node t v l r :
  Node v l r ∈ subtrees t ->
  (label l, v) ∈ parent_pairs t /\ (label r, v) ∈ parent_pairs t.
Proof.
  induction t as [u|u tl IHl tr IHr]; simpl.
  - by intros ?%list_elem_of_singleton.
  - rewrite !elem_of_cons, !elem_of_app. intros [[= -> -> ->]|[Hs|Hs]].
    + split; [by left|right; by left].
    + destruct (IHl Hs). split; right; right; by left.
    + destruct (IHr Hs). split; right; right; by right.
Qed.

Lemma parent_pairs_inv t c x :
  (c, x) ∈ parent_pairs t ->
  exists l r, Node x l r ∈ subtrees t /\ (c = label l \/ c = label r).
Proof.
  induction t as [u|u tl IHl tr IHr]; simpl.
  - by intros ?%elem_of_nil.
  - rewrite !elem_of_cons, !elem_of_app.
    intros [[= -> ->]|[[= -> ->]|[Hs|Hs]]].
    + exists tl, tr. split; [by left|by left].
    + exists tl, tr. split; [by left|by right].
    + destruct (IHl Hs) as (l & r & Hin & Hc). exists l, r.
      split; [|done]. right. apply elem_of_app. by left.
    + destruct (IHr Hs) as (l & r & Hin & Hc). exists l, r.
      split; [|done]. right. apply elem_of_app. by right.
Qed.

Lemma parents_ok_pairs parent t :
  parents_ok parent t <->
  (forall c x, (c, x) ∈ parent_pairs t -> aget parent c = x).
Proof.
  induction t as [u|u l IHl r IHr]; simpl.
  - split; [by intros _ c x ?%elem_of_nil|done].
  - rewrite IHl, IHr. split.
    + intros (Hl & Hr & Hpl & Hpr) c x.
      rewrite !elem_of_cons, elem_of_app.
      intros [[= -> ->]|[[= -> ->]|[Hs|Hs]]]; auto.
    + intros Hall. repeat split.
      * apply Hall. by left.
      * apply Hall. right. by left.
      * intros c x Hin. apply Hall. right. right. apply elem_of_app. by left.
      * intros c x Hin. apply Hall. right. right. apply elem_of_app. by right.
Qed.

(** The parent/child consistency of a valid topology (invariant 2 of the
    specification and the data-model invariant on [left] and [right]). *)
Lemma valid_topology_parent_child n left right parent t :
  valid_topology n left right parent t ->
  aget parent 0 = -1 /\
  (forall v, 1 <= v < 2 * n - 1 ->
     0 <= aget parent v < n - 1 /\
     (v = aget left (aget parent v) \/ v = aget right (aget parent v))) /\
  (forall i, 0 <= i < n - 1 ->
     aget parent (aget left i) = i /\ aget parent (aget right i) = i).
Proof.
  intros Hvalid. pose proof Hvalid as [Hroot Hnodes Hlinks Hparents Hp0].
  rewrite parents_ok_pairs in Hparents.
  split; [done|]. split.
  - intros v Hv.
    assert (v ∈ (parent_pairs t).*1) as Hin.
    { rewrite parent_pairs_keys.
      assert (v ∈ preorder t) as Hvt.
      { rewrite Hnodes, elem_of_seqZ. lia. }
      rewrite preorder_head, Hroot in Hvt.
      apply elem_of_cons in Hvt as [?|?]; [lia|done]. }
    apply list_elem_of_fmap in Hin as ([c x] & -> & Hin). simpl.
    rewrite (Hparents _ _ Hin).
    destruct (parent_pairs_inv _ _ _ Hin) as (l & r & Hs & Hc).
    pose proof (subtrees_links _ _ _ _ _ Hlinks Hs) as (Hx & Hl & Hr & _).
    pose proof (subtrees_label _ _ Hs) as Hxt. simpl in Hxt.
    rewrite Hnodes, elem_of_seqZ in Hxt.
    split; [lia|]. rewrite Hl, Hr. done.
  - intros i Hi.
    destruct (internal_subtree n left right t i) as (l & r & Hs);
      [done| |lia|].
    { rewrite Hnodes, elem_of_seqZ. lia. }
    pose proof (subtrees_links _ _ _ _ _ Hlinks Hs) as (Hx & -> & -> & _).
    destruct (parent_pairs_node _ _ _ _ Hs). split; by apply Hparents.
Qed.

(** ** C2: the radix-tree builder *)

Section Karras.
Variables (n : Z) (codes : list Z).
Hypothesis Hn : 2 <= n <= 2 ^ 30.
Hypothesis Hrange : forall a, 0 <= a < n -> 0 <= aget codes a < 2 ^ 31.
Hypothesis Hsorted :
  forall a b, 0 <= a <= b -> b < n -> aget codes a <= aget codes b.

(** [delta] with its first key read from the array, as every caller has
    it. *)
Definition dd (a b : Z) : Z := delta (aget codes a) codes a b n.

(** The position of the highest bit in which the (key, index) pairs of
    [a] and [b] differ, counting the index as the low 32 bits. *)
Definition hb (a b : Z) : Z :=
  if decide (aget codes a = aget codes b)
  then Z.log2 (Z.lxor a b)
  else 32 + Z.log2 (Z.lxor (aget codes a) (aget codes b)).

Lemma common_prefix_hb a b :
  0 <= a < n -> 0 <= b < n -> a <> b ->
  common_prefix (aget codes a) (aget codes b) a b = 63 - hb a b /\
  0 <= hb a b <= 63.
Proof.
  intros Ha Hb Hne. unfold common_prefix, hb, clz, uint32.
  pose proof (Hrange a Ha). pose proof (Hrange b Hb).
  destruct (decide (aget codes a = aget codes b)) as [Heq|Hneq].
  - rewrite Heq, Z.eqb_refl. simpl.
    destruct (log2_lxor_bound a b 30) as [Hlog Hx]; try lia.
    rewrite Z.mod_small by lia.
    destruct (Z.eqb_spec (Z.lxor a b) 0); lia.
  - destruct (Z.eqb_spec (aget codes a) (aget codes b)); [done|]. simpl.
    destruct (log2_lxor_bound (aget codes a) (aget codes b) 31)
      as [Hlog Hx]; try lia.
    rewrite Z.mod_small by lia.
    destruct (Z.eqb_spec (Z.lxor (aget codes a) (aget codes b)) 0); lia.
Qed.

Lemma dd_out a b : ~ (0 <= b < n) -> dd a b = -1.
Proof.
  intros Hb. unfold dd, delta.
  destruct (Z.leb_spec 0 b); destruct (Z.ltb_spec b n); simpl; (lia || done).
Qed.

Lemma dd_in a b :
  0 <= a < n -> 0 <= b < n -> a <> b -> dd a b = 63 - hb a b.
Proof.
  intros Ha Hb Hne. unfold dd, delta.
  destruct (Z.leb_spec 0 b); [|lia]. destruct (Z.ltb_spec b n); [|lia].
  simpl. by apply common_prefix_hb.
Qed.

Lemma dd_nonneg a b : 0 <= a < n -> 0 <= b < n -> a <> b -> 0 <= dd a b.
Proof.
  intros Ha Hb Hne. rewrite dd_in by done.
  pose proof (common_prefix_hb a b Ha Hb Hne). lia.
Qed.

Lemma dd_lower a b : -1 <= dd a b.
Proof.
  unfold dd, delta.
  destruct (Z.leb_spec 0 b); destruct (Z.ltb_spec b n); simpl; try lia.
  unfold common_prefix, clz.
  assert (forall x, 0 <= uint32 x < 2 ^ 32) as Hu.
  { intros x. unfold uint32. apply Z.mod_pos_bound. lia. }
  assert (forall x, 0 <= x < 2 ^ 32 -> Z.log2 x <= 31) as Hl.
  { intros x Hx. destruct (decide (x = 0)) as [->|]; [simpl; lia|].
    assert (Z.log2 x < 32); [|lia]. apply Z.log2_lt_pow2; lia. }
  destruct (negb _);
    match goal with |- context [uint32 ?x] =>
      pose proof (Hl _ (Hu x)); destruct (uint32 x =? 0); lia end.
Qed.

Lemma hb_sym a b : hb a b = hb b a.
Proof.
  unfold hb. rewrite (Z.lxor_comm a b).
  rewrite (Z.lxor_comm (aget codes a) (aget codes b)).
  destruct (decide (aget codes a = aget codes b)),
           (decide (aget codes b = aget codes a)); congruence.
Qed.

Lemma dd_sym a b : 0 <= a < n -> 0 <= b < n -> a <> b -> dd a b = dd b a.
Proof.
  intros Ha Hb Hne. rewrite !dd_in by (done || lia). by rewrite hb_sym.
Qed.

Lemma hb_index_bound a b :
  0 <= a < n -> 0 <= b < n -> a <> b -> Z.log2 (Z.lxor a b) < 32.
Proof.
  intros Ha Hb Hne. destruct (log2_lxor_bound a b 30); lia.
Qed.

Lemma hb_max a b c :
  0 <= a -> a < b -> b < c -> c < n ->
  hb a c = Z.max (hb a b) (hb b c) /\ hb a b <> hb b c.
Proof.
  intros Ha Hab Hbc Hc.
  pose proof (Hsorted a b). pose proof (Hsorted b c).
  pose proof (Hrange a). pose proof (Hrange b). pose proof (Hrange c).
  pose proof (hb_index_bound a b). pose proof (hb_index_bound b c).
  pose proof (Z.log2_nonneg (Z.lxor (aget codes a) (aget codes b))).
  pose proof (Z.log2_nonneg (Z.lxor (aget codes b) (aget codes c))).
  unfold hb.
  destruct (decide (aget codes a = aget codes b)) as [Hab'|Hab'],
           (decide (aget codes b = aget codes c)) as [Hbc'|Hbc'].
  - destruct (decide (aget codes a = aget codes c)); [|congruence].
    split; [apply log2_lxor_max | apply log2_lxor_neq]; lia.
  - destruct (decide (aget codes a = aget codes c)); [congruence|].
    rewrite Hab'. lia.
  - destruct (decide (aget codes a = aget codes c)); [congruence|].
    rewrite <- Hbc'. lia.
  - destruct (decide (aget codes a = aget codes c)); [lia|].
    pose proof (log2_lxor_max (aget codes a) (aget codes b) (aget codes c)).
    pose proof (log2_lxor_neq (aget codes a) (aget codes b) (aget codes c)).
    lia.
Qed.

(** The two laws the construction rests on. *)
Lemma dd_min a b c :
  0 <= a -> a < b -> b < c -> c < n ->
  dd a c = Z.min (dd a b) (dd b c).
Proof.
  intros Ha Hab Hbc Hc. rewrite !dd_in by lia.
  destruct (hb_max a b c) as [-> _]; lia.
Qed.

Lemma dd_neq a b c :
  0 <= a -> a < b -> b < c -> c < n -> dd a b <> dd b c.
Proof.
  intros Ha Hab Hbc Hc. rewrite !dd_in by lia.
  destruct (hb_max a b c) as [_ Hne]; lia.
Qed.

(** *** The two searches of [determine_range] and the one of [find_split] *)

Lemma pow2_half j : 1 <= j -> 2 ^ j / 2 = 2 ^ (j - 1).
Proof.
  intros Hj. replace j with (Z.succ (j - 1)) at 1 by lia.
  rewrite Z.pow_succ_r by lia. rewrite Z.mul_comm. by apply Z.div_mul.
Qed.

Lemma pow2_pos j : 0 <= j -> 1 <= 2 ^ j.
Proof. intros Hj. pose proof (Z.pow_pos_nonneg 2 j). lia. Qed.

(** Doubling, then bisection: the largest [l] with [p l], for a [p] that
    holds at 1 and not beyond [bound]. *)
Lemma range_search (p : Z -> bool) (bound : Z) (fuel : nat) :
  p 1 = true ->
  (forall k, 1 <= k -> p k = true -> k < bound) ->
  (Z.to_nat bound <= fuel)%nat ->
  exists lmax l t,
    while_loop fuel p (fun lmax => lmax * 2) 2 = Some lmax /\
    while_loop fuel (fun '(l, t) => t >=? 1)
      (fun '(l, t) => (if p (l + t) then l + t else l, t / 2))
      (0, lmax / 2) = Some (l, t) /\
    1 <= l /\ p l = true /\ p (l + 1) = false.
Proof.
  intros Hp1 Hbound Hfuel.
  destruct (while_loop_rule
              (fun lmax => exists j, 1 <= j /\ lmax = 2 ^ j /\
                                     p (lmax / 2) = true)
              (fun lmax => Z.to_nat (bound - lmax))
              p (fun lmax => lmax * 2) fuel 2)
    as (lmax & Hloop1 & (j & Hj & -> & Hhalf) & Hexit).
  { exists 1. by repeat split. }
  { intros lmax (j & Hj & -> & Hhalf) Hc. split.
    - exists (j + 1). split; [lia|]. split.
      + rewrite Z.pow_add_r by lia. done.
      + by rewrite Z.div_mul by lia.
    - pose proof (pow2_pos j ltac:(lia)) as Hpos.
      specialize (Hbound _ Hpos Hc).
      set (x := 2 ^ j) in *. clearbody x. lia. }
  { lia. }
  pose proof (pow2_pos (j - 1) ltac:(lia)) as Hpos.
  rewrite pow2_half in Hhalf by done.
  destruct (while_loop_rule
              (fun '(l, t) =>
                 0 <= l /\ (l = 0 \/ p l = true) /\
                 ((t = 0 /\ p (l + 1) = false) \/
                  (exists j, 0 <= j /\ t = 2 ^ j /\ p (l + 2 * t) = false)))
              (fun '(l, t) => Z.to_nat t)
              (fun '(l, t) => t >=? 1)
              (fun '(l, t) => (if p (l + t) then l + t else l, t / 2))
              fuel (0, 2 ^ j / 2))
    as ([l t] & Hloop2 & (Hl & Hpl & Hinv) & Hexit2).
  { split; [done|]. split; [by left|]. right. exists (j - 1).
    rewrite pow2_half by done. split; [lia|]. split; [done|].
    replace (0 + 2 * 2 ^ (j - 1)) with (2 ^ j); [done|].
    replace j with (Z.succ (j - 1)) at 1 by lia.
    rewrite Z.pow_succ_r by lia. lia. }
  { intros [l t] (Hl & Hpl & Hinv) Hc.
    apply Z.geb_le in Hc.
    destruct Hinv as [[-> _]|(k & Hk & -> & Hfalse)]; [lia|].
    pose proof (pow2_pos k Hk) as Hkpos. split.
    - split; [destruct (p (l + 2 ^ k)); lia|].
      split; [destruct (p (l + 2 ^ k)) eqn:E; [by right|done]|].
      destruct (decide (k = 0)) as [->|Hk0].
      + left. change (2 ^ 0) with 1 in *. split; [done|].
        destruct (p (l + 1)) eqn:E; [|done].
        by replace (l + 1 + 1) with (l + 2 * 1) by lia.
      + right. exists (k - 1). rewrite pow2_half by lia.
        split; [lia|]. split; [done|].
        assert (2 * 2 ^ (k - 1) = 2 ^ k) as Hdbl.
        { replace k with (Z.succ (k - 1)) at 2 by lia.
          by rewrite Z.pow_succ_r by lia. }
        destruct (p (l + 2 ^ k)) eqn:E.
        * rewrite Hdbl. by replace (l + 2 ^ k + 2 ^ k) with (l + 2 * 2 ^ k)
            by lia.
        * by rewrite Hdbl.
    - assert (2 ^ k / 2 < 2 ^ k); [|lia].
      apply Z.div_lt; lia. }
  { rewrite pow2_half by done.
    specialize (Hbound _ Hpos Hhalf). lia. }
  exists (2 ^ j), l, t. split; [done|]. split; [done|].
  destruct Hinv as [[-> Hfalse]|(k & Hk & -> & _)].
  - destruct Hpl as [->|Hpl]; [rewrite Z.add_0_l in Hfalse; congruence|].
    repeat split; try done.
    destruct (decide (l = 0)) as [->|]; [|lia].
    rewrite Z.add_0_l in Hfalse. congruence.
  - pose proof (pow2_pos k Hk). simpl in Hexit2.
    destruct (Z.geb_spec (2 ^ k) 1); [done|lia].
Qed.

(** The bisection of [find_split] with its rounded-up halving: the
    largest position in [[first, last)] that is [first] or satisfies [q],
    for a [q] that is downward closed. *)
Lemma split_search (q : Z -> bool) (first last : Z) (fuel : nat) :
  first < last ->
  (forall x x', first < x -> x <= x' -> x' < last ->
                q x' = true -> q x = true) ->
  (Z.to_nat (last - first) <= fuel)%nat ->
  exists split step,
    while_loop fuel (fun '(split, step) => step >? 1)
      (fun '(split, step) =>
         (if split + (step + 1) / 2 <? last then
            if q (split + (step + 1) / 2) then split + (step + 1) / 2
            else split
          else split,
          (step + 1) / 2))
      (first, last - first) = Some (split, step) /\
    first <= split < last /\
    (split = first \/ q split = true) /\
    (forall x, split < x -> x < last -> q x = false).
Proof.
  intros Hlt Hanti Hfuel.
  destruct (while_loop_rule
              (fun '(split, step) =>
                 first <= split < last /\ 1 <= step /\
                 (split = first \/ q split = true) /\
                 (forall x, split + step <= x -> x < last -> q x = false))
              (fun '(split, step) => Z.to_nat step)
              (fun '(split, step) => step >? 1)
              (fun '(split, step) =>
                 (if split + (step + 1) / 2 <? last then
                    if q (split + (step + 1) / 2) then split + (step + 1) / 2
                    else split
                  else split,
                  (step + 1) / 2))
              fuel (first, last - first))
    as ([split step] & Hloop & (Hsplit & Hstep & Hq & Hup) & Hexit).
  { split; [lia|]. split; [lia|]. split; [by left|]. intros x Hx Hx'. lia. }
  { intros [split step] (Hsplit & Hstep & Hq & Hup) Hc.
    apply Z.gtb_lt in Hc.
    assert (1 <= (step + 1) / 2 < step) as Hhalf.
    { split; [apply Z.div_le_lower_bound; lia|].
      apply Z.div_lt_upper_bound; lia. }
    assert (step <= 2 * ((step + 1) / 2)) as Hdbl.
    { pose proof (Z.div_mod (step + 1) 2).
      pose proof (Z.mod_pos_bound (step + 1) 2). lia. }
    set (h := (step + 1) / 2) in *. clearbody h. split; [|lia].
    destruct (Z.ltb_spec (split + h) last) as [Hnew|Hnew].
    - destruct (q (split + h)) eqn:E.
      + split; [lia|]. split; [lia|]. split; [by right|].
        intros x Hx Hx'. apply Hup; lia.
      + split; [done|]. split; [lia|]. split; [done|].
        intros x Hx Hx'. destruct (q x) eqn:Ex; [|done].
        rewrite (Hanti (split + h) x) in E; (done || lia).
    - split; [done|]. split; [lia|]. split; [done|].
      intros x Hx Hx'. lia. }
  { lia. }
  exists split, step. split; [done|]. split; [done|]. split; [done|].
  intros x Hx Hx'. apply Hup; [|done]. simpl in Hexit.
  destruct (Z.gtb_spec step 1); [done|lia].
Qed.

(** *** What [determine_range] and [find_split] return *)

Variable fuel : nat.
Hypothesis Hfuel : (Z.to_nat n <= fuel)%nat.

(** Going away from [i] in direction [d], prefixes only get shorter. *)
Lemma dd_anti i d k k' :
  d = 1 \/ d = -1 -> 0 <= i < n -> 1 <= k -> k <= k' ->
  dd i (i + k' * d) <= dd i (i + k * d).
Proof.
  intros Hd Hi Hk Hkk'.
  destruct (decide (0 <= i + k' * d < n)) as [Hin|Hout].
  2:{ rewrite (dd_out i (i + k' * d)) by done. apply dd_lower. }
  destruct (decide (k = k')) as [->|Hne]; [lia|].
  destruct Hd as [-> | ->].
  - rewrite (dd_min i (i + k * 1) (i + k' * 1)) by lia. lia.
  - rewrite (dd_sym i (i + k' * -1)) by lia.
    rewrite (dd_sym i (i + k * -1)) by lia.
    rewrite (dd_min (i + k' * -1) (i + k * -1) i) by lia. lia.
Qed.

(** Node [i] owns the keys from [i] to [i + l*d] when the prefix it shares
    with that end is longer than the one it shares with its neighbour on
    the other side, and this fails one step further. *)
Lemma determine_range_dir i d l :
  d = 1 \/ d = -1 -> 0 <= i < n -> 1 <= l -> 0 <= i + l * d < n ->
  dd i (i - d) < dd i (i + l * d) ->
  dd i (i + (l + 1) * d) <= dd i (i - d) ->
  determine_range fuel codes i n
    = Some (Z.min i (i + l * d), Z.max i (i + l * d)).
Proof.
  intros Hd Hi Hl Hin Hlong Hshort.
  pose proof (dd_anti i d 1 l Hd Hi ltac:(lia) Hl) as Hone.
  assert (sign (delta (aget codes i) codes i (i + 1) n
                - delta (aget codes i) codes i (i - 1) n) = d) as Hsign.
  { fold (dd i (i + 1)) (dd i (i - 1)). unfold sign.
    destruct Hd as [-> | ->].
    - replace (i + 1 * 1) with (i + 1) in Hone by lia.
      destruct (Z.ltb_spec (dd i (i + 1) - dd i (i - 1)) 0); [lia|done].
    - replace (i + 1 * -1) with (i - 1) in Hone by lia.
      replace (i - -1) with (i + 1) in Hlong by lia.
      destruct (Z.ltb_spec (dd i (i + 1) - dd i (i - 1)) 0); [done|lia]. }
  assert (Z.min (delta (aget codes i) codes i (i - 1) n)
                (delta (aget codes i) codes i (i + 1) n) = dd i (i - d))
    as Hmin.
  { fold (dd i (i + 1)) (dd i (i - 1)). destruct Hd as [-> | ->].
    - replace (i + 1 * 1) with (i + 1) in Hone by lia. lia.
    - replace (i + 1 * -1) with (i - 1) in Hone by lia.
      replace (i - -1) with (i + 1) in * by lia. lia. }
  set (p := fun k => delta (aget codes i) codes i (i + k * d) n
                       >? dd i (i - d)).
  assert (forall k, p k = true <-> dd i (i - d) < dd i (i + k * d)) as Hp.
  { intros k. unfold p. fold (dd i (i + k * d)). by rewrite Z.gtb_lt. }
  destruct (range_search p n fuel) as (lmax & l' & t & H1 & H2 & Hl' & Hpl & Hpl').
  { apply Hp. lia. }
  { intros k Hk Hpk%Hp.
    destruct (decide (0 <= i + k * d < n)) as [Hk'|Hk'].
    - destruct Hd as [-> | ->]; lia.
    - rewrite (dd_out i (i + k * d)) in Hpk by done.
      pose proof (dd_lower i (i - d)). lia. }
  { done. }
  assert (l' = l) as ->.
  { apply Hp in Hpl. 
    assert (~ dd i (i - d) < dd i (i + (l' + 1) * d)) as Hnot.
    { rewrite <- Hp. by rewrite Hpl'. }
    destruct (Z.lt_trichotomy l' l) as [Hlt|[->|Hgt]]; [|done|].
    - pose proof (dd_anti i d (l' + 1) l Hd Hi ltac:(lia) ltac:(lia)). lia.
    - pose proof (dd_anti i d (l + 1) l' Hd Hi ltac:(lia) ltac:(lia)). lia. }
  unfold determine_range. cbv zeta. rewrite Hsign, Hmin.
  fold p. rewrite H1. simpl.
  change (fun '(l, t) =>
            (if delta (aget codes i) codes i (i + (l + t) * d) n
                  >? dd i (i - d) then l + t else l, t / 2))
    with (fun '(l, t) => (if p (l + t) then l + t else l, t / 2)).
  by rewrite H2.
Qed.

Lemma dd_common_prefix a b :
  0 <= b < n -> common_prefix (aget codes a) (aget codes b) a b = dd a b.
Proof.
  intros Hb. unfold dd, delta.
  destruct (Z.leb_spec 0 b); [|lia]. by destruct (Z.ltb_spec b n); [|lia].
Qed.

(** [find_split] returns the last position that shares with [first] a
    longer prefix than [last] does ([first] itself if there is none). *)
Lemma find_split_spec f l :
  0 <= f -> f < l -> l < n ->
  exists s,
    find_split fuel codes f l = Some s /\
    f <= s < l /\
    (s = f \/ dd f l < dd f s) /\
    (forall x, s < x -> x < l -> dd f x <= dd f l).
Proof.
  intros Hf Hfl Hl.
  set (q := fun x => common_prefix (aget codes f) (aget codes x) f x
                       >? common_prefix (aget codes f) (aget codes l) f l).
  assert (forall x, 0 <= x < n -> q x = true <-> dd f l < dd f x) as Hq.
  { intros x Hx. unfold q. rewrite !dd_common_prefix by lia.
    by rewrite Z.gtb_lt. }
  destruct (split_search q f l fuel) as (s & step & Hloop & Hs & Hqs & Hup).
  { done. }
  { intros x x' Hx Hxx' Hx'. rewrite !Hq by lia. intros Hlt.
    pose proof (dd_anti f 1 (x - f) (x' - f) ltac:(by left) ltac:(lia)
                  ltac:(lia) ltac:(lia)) as Ha.
    replace (f + (x - f) * 1) with x in Ha by lia.
    replace (f + (x' - f) * 1) with x' in Ha by lia. lia. }
  { lia. }
  exists s. split; [|split; [done|split]].
  - unfold find_split. cbv zeta. fold q.
    change (fun '(split, step) =>
              (if split + (step + 1) / 2 <? l
               then if common_prefix (aget codes f)
                         (aget codes (split + (step + 1) / 2)) f
                         (split + (step + 1) / 2)
                       >? common_prefix (aget codes f) (aget codes l) f l
                    then split + (step + 1) / 2 else split
               else split, (step + 1) / 2))
      with (fun '(split, step) =>
              (if split + (step + 1) / 2 <? l
               then if q (split + (step + 1) / 2)
                    then split + (step + 1) / 2 else split
               else split, (step + 1) / 2)).
    by rewrite Hloop.
  - destruct Hqs as [->|Hqs]; [by left|]. right. apply Hq; [lia|done].
  - intros x Hx Hx'. specialize (Hup x Hx Hx').
    assert (~ dd f l < dd f x); [|lia]. rewrite <- Hq by lia. by rewrite Hup.
Qed.

(** *** The ranges of the nodes *)

(** [[f, l]] is the key range of a node: the keys in it share a longer
    prefix than with either neighbour outside. *)
Definition is_range (f l : Z) : Prop :=
  0 <= f /\ f < l /\ l < n /\
  dd f (f - 1) < dd f l /\ dd l (l + 1) < dd f l.

Lemma root_range :
  is_range 0 (n - 1) /\ determine_range fuel codes 0 n = Some (0, n - 1).
Proof.
  assert (dd 0 (0 - 1) = -1) as Hl by (apply dd_out; lia).
  assert (dd (n - 1) (n - 1 + 1) = -1) as Hr by (apply dd_out; lia).
  pose proof (dd_nonneg 0 (n - 1) ltac:(lia) ltac:(lia) ltac:(lia)).
  split.
  - unfold is_range. rewrite Hl, Hr. lia.
  - rewrite (determine_range_dir 0 1 (n - 1));
      [f_equal; f_equal; lia|..]; try lia.
    + replace (0 + (n - 1) * 1) with (n - 1) by lia. lia.
    + rewrite (dd_out 0 (0 + (n - 1 + 1) * 1)) by lia. lia.
Qed.

(** The split of a range: the children are leaves or the nodes [s] and
    [s + 1], whose ranges are the two halves. *)
Lemma split_range f l :
  is_range f l ->
  exists s,
    find_split fuel codes f l = Some s /\ f <= s < l /\
    (f < s ->
       is_range f s /\ determine_range fuel codes s n = Some (f, s)) /\
    (s + 1 < l ->
       is_range (s + 1) l /\
       determine_range fuel codes (s + 1) n = Some (s + 1, l)).
Proof.
  intros (Hf & Hfl & Hl & Hleft & Hright).
  destruct (find_split_spec f l Hf Hfl Hl) as (s & Hsplit & Hs & Hlong & Hup).
  exists s. split; [done|]. split; [done|].
  (* the prefix across the split is the prefix of the whole range *)
  assert (dd f (s + 1) = dd f l) as Hacross.
  { destruct (decide (s + 1 = l)) as [->|Hne]; [done|].
    pose proof (Hup (s + 1) ltac:(lia) ltac:(lia)).
    pose proof (dd_anti f 1 (s + 1 - f) (l - f) ltac:(by left) ltac:(lia)
                  ltac:(lia) ltac:(lia)) as Ha.
    replace (f + (s + 1 - f) * 1) with (s + 1) in Ha by lia.
    replace (f + (l - f) * 1) with l in Ha by lia. lia. }
  assert (dd s (s + 1) = dd f l /\ (f < s -> dd f l < dd f s)) as [Hmid Hfs].
  { destruct Hlong as [->|Hlong]; [split; [done|lia]|].
    destruct (decide (f = s)) as [->|Hne]; [split; [done|lia]|].
    rewrite (dd_min f s (s + 1)) in Hacross by lia. split; lia. }
  split.
  - intros Hlt. specialize (Hfs Hlt).
    assert (dd s (s - -1) < dd s (s + (s - f) * -1)) as H1.
    { replace (s - -1) with (s + 1) by lia.
      replace (s + (s - f) * -1) with f by lia.
      rewrite (dd_sym s f) by lia. lia. }
    assert (dd s (s + (s - f + 1) * -1) <= dd s (s - -1)) as H2.
    { replace (s - -1) with (s + 1) by lia.
      replace (s + (s - f + 1) * -1) with (f - 1) by lia.
      destruct (decide (0 <= f - 1)) as [Hin|Hout].
      - rewrite (dd_sym s (f - 1)) by lia.
        rewrite (dd_min (f - 1) f s) by lia.
        rewrite (dd_sym (f - 1) f) by lia. lia.
      - rewrite (dd_out s (f - 1)) by lia. pose proof (dd_lower s (s + 1)).
        lia. }
    split.
    + unfold is_range. lia.
    + rewrite (determine_range_dir s (-1) (s - f));
        [f_equal; f_equal; lia|..]; (lia || done).
  - intros Hlt.
    assert (dd f l <= dd (s + 1) l) as Hle.
    { rewrite (dd_min f (s + 1) l) by lia. lia. }
    pose proof (dd_neq s (s + 1) l ltac:(lia) ltac:(lia) ltac:(lia)
                  ltac:(lia)) as Hneq.
    assert (dd (s + 1) (s + 1 - 1) < dd (s + 1) (s + 1 + (l - s - 1) * 1))
      as H1.
    { replace (s + 1 - 1) with s by lia.
      replace (s + 1 + (l - s - 1) * 1) with l by lia.
      rewrite (dd_sym (s + 1) s) by lia. lia. }
    assert (dd (s + 1) (s + 1 + (l - s - 1 + 1) * 1)
              <= dd (s + 1) (s + 1 - 1)) as H2.
    { replace (s + 1 - 1) with s by lia.
      replace (s + 1 + (l - s - 1 + 1) * 1) with (l + 1) by lia.
      rewrite (dd_sym (s + 1) s) by lia.
      destruct (decide (l + 1 < n)) as [Hin|Hout].
      - rewrite (dd_min (s + 1) l (l + 1)) by lia. lia.
      - rewrite (dd_out (s + 1) (l + 1)) by lia. pose proof (dd_lower s (s + 1)).
        lia. }
    split.
    + unfold is_range. replace (s + 1 - 1) with s in * by lia.
      replace (s + 1 + (l - s - 1) * 1) with l in H1 by lia. lia.
    + rewrite (determine_range_dir (s + 1) 1 (l - s - 1));
        [f_equal; f_equal; lia|..]; (lia || done).
Qed.

(** *** The tree the kernel builds *)

Definition child_left (f s : Z) : Z :=
  if f =? s then s + (n - 1) else s.

Definition child_right (l s : Z) : Z :=
  if l =? s + 1 then s + 1 + (n - 1) else s + 1.

(** The tree below internal node [i], unfolded [k] levels deep. *)
Fixpoint karras_tree (k : nat) (i : Z) : tree :=
  match k with
  | O => Leaf i
  | S k' =>
      match determine_range fuel codes i n with
      | Some (f, l) =>
          match find_split fuel codes f l with
          | Some s =>
              Node i
                (if f =? s then Leaf (s + (n - 1)) else karras_tree k' s)
                (if l =? s + 1 then Leaf (s + 1 + (n - 1))
                 else karras_tree k' (s + 1))
          | None => Leaf i
          end
      | None => Leaf i
      end
  end.

(** Every internal node of the tree is the output of its thread. *)
Fixpoint built (t : tree) : Prop :=
  match t with
  | Leaf v => n - 1 <= v
  | Node v tl tr =>
      0 <= v < n - 1 /\
      (exists f l s,
         determine_range fuel codes v n = Some (f, l) /\
         find_split fuel codes f l = Some s /\
         label tl = child_left f s /\ label tr = child_right l s) /\
      built tl /\ built tr
  end.

Lemma karras_subtree k i f l :
  (Z.to_nat (l - f) <= k)%nat ->
  is_range f l -> i = f \/ i = l -> i < n - 1 ->
  determine_range fuel codes i n = Some (f, l) ->
  label (karras_tree k i) = i /\
  built (karras_tree k i) /\
  NoDup (preorder (karras_tree k i)) /\
  (forall v, v ∈ preorder (karras_tree k i) <->
     (i = f /\ f <= v < l) \/ (i = l /\ f < v <= l) \/
     f + (n - 1) <= v <= l + (n - 1)).
Proof.
  revert i f l. induction k as [|k IH]; intros i f l Hk Hr Hi Hin Hdr.
  { destruct Hr as (? & ? & ?). lia. }
  pose proof Hr as (Hf & Hfl & Hl & _).
  destruct (split_range f l Hr) as (s & Hsplit & Hs & Hleft & Hright).
  simpl. rewrite Hdr, Hsplit.
  set (tl := if f =? s then Leaf (s + (n - 1)) else karras_tree k s).
  set (tr := if l =? s + 1 then Leaf (s + 1 + (n - 1))
             else karras_tree k (s + 1)).
  assert (label tl = child_left f s /\ built tl /\ NoDup (preorder tl) /\
          forall v, v ∈ preorder tl <->
                    f < v <= s \/ f + (n - 1) <= v <= s + (n - 1))
    as (Hll & Hbl & Hnl & Hml).
  { subst tl. unfold child_left. destruct (Z.eqb_spec f s) as [->|Hne].
    - simpl. split; [done|]. split; [lia|]. split; [apply NoDup_singleton|].
      intros v. rewrite list_elem_of_singleton. lia.
    - destruct Hleft as [Hrs Hds]; [lia|].
      destruct (IH s f s) as (H1 & H2 & H3 & H4); try done; try lia.
      split; [done|]. split; [done|]. split; [done|].
      intros v. rewrite H4. lia. }
  assert (label tr = child_right l s /\ built tr /\ NoDup (preorder tr) /\
          forall v, v ∈ preorder tr <->
                    s + 1 <= v < l \/ s + 1 + (n - 1) <= v <= l + (n - 1))
    as (Hlr & Hbr & Hnr & Hmr).
  { subst tr. unfold child_right. destruct (Z.eqb_spec l (s + 1)) as [->|Hne].
    - simpl. split; [done|]. split; [lia|]. split; [apply NoDup_singleton|].
      intros v. rewrite list_elem_of_singleton. lia.
    - destruct Hright as [Hrs Hds]; [lia|].
      destruct (IH (s + 1) (s + 1) l) as (H1 & H2 & H3 & H4);
        try done; try lia.
      split; [done|]. split; [done|]. split; [done|].
      intros v. rewrite H4. lia. }
  clearbody tl tr. simpl. split; [done|]. split; [|split].
  - split; [lia|]. split; [|done]. by exists f, l, s.
  - apply NoDup_cons. split.
    + rewrite elem_of_app, Hml, Hmr. lia.
    + apply NoDup_app. split; [done|]. split; [|done].
      intros v. rewrite Hml, Hmr. lia.
  - intros v. rewrite elem_of_cons, elem_of_app, Hml, Hmr. lia.
Qed.

(** The whole tree: [N-1] internal nodes and [N] leaves below node 0. *)
Definition karras_root : tree := karras_tree (Z.to_nat n) 0.

Lemma karras_root_spec :
  label karras_root = 0 /\ built karras_root /\
  preorder karras_root ≡ₚ seqZ 0 (2 * n - 1).
Proof.
  destruct root_range as [Hr Hdr].
  destruct (karras_subtree (Z.to_nat n) 0 0 (n - 1))
    as (H1 & H2 & H3 & H4); try done; try lia.
  split; [done|]. split; [done|].
  apply NoDup_Permutation; [done|apply NoDup_seqZ|].
  intros v. unfold karras_root. rewrite H4, elem_of_seqZ. lia.
Qed.

(** *** The launch *)

Lemma built_subtree t s : built t -> s ∈ subtrees t -> built s.
Proof.
  induction t as [u|u l IHl r IHr]; simpl.
  - by intros Hu ->%list_elem_of_singleton.
  - intros (Hu & Hex & Hbl & Hbr).
    rewrite elem_of_cons, elem_of_app. intros [->|[Hs|Hs]]; auto.
    by simpl.
Qed.

(** The children thread [i] computes. *)
Definition kernel_left (i : Z) : Z :=
  match determine_range fuel codes i n with
  | Some (f, l) =>
      match find_split fuel codes f l with
      | Some s => child_left f s
      | None => 0
      end
  | None => 0
  end.

Definition kernel_right (i : Z) : Z :=
  match determine_range fuel codes i n with
  | Some (f, l) =>
      match find_split fuel codes f l with
      | Some s => child_right l s
      | None => 0
      end
  | None => 0
  end.

(** The stores of thread [i] into [parent_nodes], in program order. *)
Definition parent_writes (i : Z) : list (Z * Z) :=
  [(kernel_left i, i); (kernel_right i, i)]
  ++ (if i =? 0 then [(0, -1)] else []).

Lemma built_node t i :
  built t -> i ∈ preorder t -> i < n - 1 ->
  exists tl tr f l s,
    Node i tl tr ∈ subtrees t /\
    determine_range fuel codes i n = Some (f, l) /\
    find_split fuel codes f l = Some s /\
    label tl = kernel_left i /\ label tr = kernel_right i.
Proof.
  intros Hb Hi Hlt.
  destruct (preorder_subtree t i Hi) as (s & Hs & Hl).
  pose proof (built_subtree _ _ Hb Hs) as Hbs.
  destruct s as [u|u tl tr]; simpl in *; [lia|]. subst u.
  destruct Hbs as (_ & (f & l & s & Hdr & Hfs & Hll & Hlr) & _).
  exists tl, tr, f, l, s. unfold kernel_left, kernel_right.
  by rewrite Hdr, Hfs.
Qed.

Lemma construct_thread i f l s (out : topology) :
  determine_range fuel codes i n = Some (f, l) ->
  find_split fuel codes f l = Some s ->
  construct_binary_radix_tree_kernel fuel n codes i out =
    Some (MkTopology (aset (top_left out) i (kernel_left i))
            (aset (top_right out) i (kernel_right i))
            (apply_writes (parent_writes i) (top_parent out))).
Proof.
  intros Hdr Hfs.
  unfold construct_binary_radix_tree_kernel, kernel_left, kernel_right,
    parent_writes.
  rewrite Hdr. simpl. rewrite Hfs. simpl.
  unfold kernel_left, kernel_right. rewrite Hdr, Hfs.
  unfold child_left, child_right. by destruct (i =? 0).
Qed.

Lemma construct_launch (order : list Z) (out : topology) :
  (forall i, i ∈ order -> 0 <= i < n - 1) ->
  launchM (construct_binary_radix_tree_kernel fuel n codes) order out =
    Some (MkTopology
            (launch (fun tid a => aset a tid (kernel_left tid)) order
               (top_left out))
            (launch (fun tid a => aset a tid (kernel_right tid)) order
               (top_right out))
            (apply_writes (order ≫= parent_writes) (top_parent out))).
Proof.
  destruct karras_root_spec as (Hlabel & Hbuilt & Hperm).
  induction order as [|i order IH] using rev_ind; intros Hord.
  - by destruct out.
  - rewrite launchM_snoc, IH.
    2:{ intros j Hj. apply Hord. apply elem_of_app. by left. }
    simpl.
    destruct (built_node karras_root i) as (tl & tr & f & l & s & _ & Hdr & Hfs & _).
    + done.
    + rewrite Hperm, elem_of_seqZ.
      specialize (Hord i ltac:(apply elem_of_app; right;
                               by apply list_elem_of_singleton)). lia.
    + specialize (Hord i ltac:(apply elem_of_app; right;
                               by apply list_elem_of_singleton)). lia.
    + rewrite (construct_thread i f l s) by done. simpl.
      rewrite !launch_snoc, bind_app, apply_writes_app. simpl.
      by rewrite app_nil_r.
Qed.

(** After the launch the three arrays are the links of [karras_root]. *)
Lemma construct_valid (order : list Z) (left0 right0 parent0 : list Z) :
  launch_order (n - 1) order ->
  alen left0 = n - 1 -> alen right0 = n - 1 -> alen parent0 = 2 * n - 1 ->
  exists topo,
    launchM (construct_binary_radix_tree_kernel fuel n codes) order
      (MkTopology left0 right0 parent0) = Some topo /\
    valid_topology n (top_left topo) (top_right topo) (top_parent topo)
      karras_root.
Proof.
  intros Hord Hl0 Hr0 Hp0.
  destruct karras_root_spec as (Hlabel & Hbuilt & Hperm).
  eexists. split.
  { apply construct_launch. intros i. by rewrite (launch_order_elem _ _ _ Hord). }
  simpl.
  assert (forall v, v ∈ preorder karras_root <-> 0 <= v < 2 * n - 1) as Hmem.
  { intros v. rewrite Hperm, elem_of_seqZ. lia. }
  (* the stores into [parent_nodes] are parent pairs of the tree *)
  assert (forall p, p ∈ order ≫= parent_writes ->
                    p ∈ (0, -1) :: parent_pairs karras_root) as Hsound.
  { intros p (i & Hp & Hi)%list_elem_of_bind.
    apply (launch_order_elem _ _ _ Hord) in Hi.
    destruct (built_node karras_root i)
      as (tl & tr & f & l & s & Hs & _ & _ & Hll & Hlr);
      [done|apply Hmem; lia|lia|].
    destruct (parent_pairs_node _ _ _ _ Hs) as [H1 H2].
    rewrite Hll in H1. rewrite Hlr in H2.
    unfold parent_writes in Hp. rewrite elem_of_app, !elem_of_cons in Hp.
    destruct Hp as [[->|[->|?%elem_of_nil]]|Hp]; try done.
    - by right.
    - by right.
    - destruct (i =? 0); [|by apply elem_of_nil in Hp].
      apply list_elem_of_singleton in Hp as ->. by left. }
  assert (NoDup ((0, -1) :: parent_pairs karras_root).*1) as Hnodup.
  { simpl. rewrite parent_pairs_keys, <- Hlabel, <- preorder_head.
    rewrite Hperm. apply NoDup_seqZ. }
  assert (forall c x, (c, x) ∈ (0, -1) :: parent_pairs karras_root ->
            aget (apply_writes (order ≫= parent_writes) parent0) c = x)
    as Hparent.
  { intros c x Hin.
    assert (exists y, (c, y) ∈ order ≫= parent_writes) as [y Hy].
    { apply elem_of_cons in Hin as [[= -> ->]|Hin].
      - exists (-1). apply list_elem_of_bind. exists 0. split.
        + unfold parent_writes. apply elem_of_app. right. simpl. by left.
        + apply (launch_order_elem _ _ _ Hord). lia.
      - destruct (parent_pairs_inv _ _ _ Hin) as (tl & tr & Hs & Hc).
        pose proof (built_subtree _ _ Hbuilt Hs) as (Hx & _).
        destruct (built_node karras_root x)
          as (tl' & tr' & f & l & s & Hs' & _ & _ & Hll & Hlr);
          [done|apply Hmem; lia|lia|].
        assert (Node x tl tr = Node x tl' tr') as [= <- <-].
        { apply (subtrees_unique karras_root); try done.
          rewrite Hperm. apply NoDup_seqZ. }
        exists x. apply list_elem_of_bind. exists x. split.
        + unfold parent_writes. apply elem_of_app. left.
          rewrite <- Hll, <- Hlr. destruct Hc as [-> | ->].
          * by left.
          * right. by left.
        + apply (launch_order_elem _ _ _ Hord). lia. }
    rewrite (apply_writes_lookup _ parent0 c y).
    - apply (NoDup_fst_functional _ c y x Hnodup); auto.
    - intros c' x1 x2 H1 H2.
      apply (NoDup_fst_functional _ c' x1 x2 Hnodup); auto.
    - intros c' x' Hin'%Hsound. rewrite Hp0.
      apply elem_of_cons in Hin' as [[= -> ->]|Hin']; [lia|].
      apply Hmem. rewrite preorder_head. right.
      rewrite <- parent_pairs_keys. apply list_elem_of_fmap.
      by exists (c', x').
    - done. }
  split.
  - done.
  - done.
  - assert (forall t, built t ->
              (forall v, v ∈ preorder t -> v ∈ preorder karras_root) ->
              links_ok n
                (launch (fun tid a => aset a tid (kernel_left tid)) order left0)
                (launch (fun tid a => aset a tid (kernel_right tid)) order
                   right0) t) as Hlinks.
    { induction t as [u|u tl IHl tr IHr]; simpl; [done|].
      intros (Hu & (f & l & s & Hdr & Hfs & Hll & Hlr) & Hbl & Hbr) Hsub.
      split; [lia|].
      rewrite (launch_own_cell kernel_left) by lia.
      rewrite (launch_own_cell kernel_right) by lia.
      rewrite bool_decide_eq_true_2
        by (apply (launch_order_elem _ _ _ Hord); lia).
      unfold kernel_left, kernel_right. rewrite Hdr, Hfs.
      split; [done|]. split; [done|]. split.
      - apply IHl; [done|]. intros v Hv. apply Hsub.
        right. apply elem_of_app. by left.
      - apply IHr; [done|]. intros v Hv. apply Hsub.
        right. apply elem_of_app. by right. }
    by apply Hlinks.
  - apply parents_ok_pairs. intros c x Hin. apply Hparent. by right.
  - apply Hparent. by left.
Qed.

End Karras.

(** C2.  For every [N >= 2] (with [2N-1] an int32) and every sorted array
    of Morton keys, all keys possibly equal, the construction kernel run
    over the [N-1] internal nodes in any order terminates, and afterwards
    [parent[0] = -1], every other node [v] has a parent in [[0, N-1)] of
    which it is the left or the right child, and both children of every
    internal node [i] have parent [i]. *)
Theorem construct_binary_radix_tree_correct (fuel : nat) (n : Z)
    (codes : list Z) (order : list Z) (left0 right0 parent0 : list Z) :
  2 <= n <= 2 ^ 30 ->
  (forall a, 0 <= a < n -> 0 <= aget codes a < 2 ^ 31) ->
  (forall a b, 0 <= a <= b -> b < n -> aget codes a <= aget codes b) ->
  (Z.to_nat n <= fuel)%nat ->
  launch_order (n - 1) order ->
  alen left0 = n - 1 -> alen right0 = n - 1 -> alen parent0 = 2 * n - 1 ->
  exists topo,
    launchM (construct_binary_radix_tree_kernel fuel n codes) order
      (MkTopology left0 right0 parent0) = Some topo /\
    aget (top_parent topo) 0 = -1 /\
    (forall v, 1 <= v < 2 * n - 1 ->
       0 <= aget (top_parent topo) v < n - 1 /\
       (v = aget (top_left topo) (aget (top_parent topo) v) \/
        v = aget (top_right topo) (aget (top_parent topo) v))) /\
    (forall i, 0 <= i < n - 1 ->
       aget (top_parent topo) (aget (top_left topo) i) = i /\
       aget (top_parent topo) (aget (top_right topo) i) = i).
Proof.
  intros Hn Hrange Hsorted Hfuel Hord Hl0 Hr0 Hp0.
  destruct (construct_valid n codes Hn Hrange Hsorted fuel Hfuel order
              left0 right0 parent0 Hord Hl0 Hr0 Hp0) as (topo & Hrun & Hvalid).
  exists topo. split; [done|].
  by apply (valid_topology_parent_child n _ _ _ (karras_root n codes fuel)).
Qed.

(** Eight leaves whose Morton keys are all equal. *)
Definition ex8_codes : list Z := [7; 7; 7; 7; 7; 7; 7; 7].

Lemma ex8_order : launch_order (8 - 1) [3; 0; 6; 1; 5; 2; 4].
Proof.
  unfold launch_order. change (seqZ 0 (8 - 1)) with [0; 1; 2; 3; 4; 5; 6].
  apply (bool_decide_unpack _). by vm_compute.
Qed.

Lemma ex8_codes_range a : 0 <= a < 8 -> 0 <= aget ex8_codes a < 2 ^ 31.
Proof.
  intros Ha.
  assert (a = 0 \/ a = 1 \/ a = 2 \/ a = 3 \/ a = 4 \/ a = 5 \/ a = 6 \/ a = 7)
    as Hcases by lia.
  repeat (destruct Hcases as [-> | Hcases]; [by vm_compute|]).
  subst. by vm_compute.
Qed.

Lemma ex8_codes_sorted a b :
  0 <= a <= b -> b < 8 -> aget ex8_codes a <= aget ex8_codes b.
Proof.
  intros Ha Hb.
  assert (forall c, 0 <= c < 8 -> aget ex8_codes c = 7) as Hall.
  { intros c Hc.
    assert (c = 0 \/ c = 1 \/ c = 2 \/ c = 3 \/ c = 4 \/ c = 5 \/ c = 6 \/ c = 7)
      as Hcases by lia.
    repeat (destruct Hcases as [-> | Hcases]; [by vm_compute|]).
    subst. by vm_compute. }
  rewrite !Hall by lia. lia.
Qed.

Lemma construct_binary_radix_tree_correct_witness :
  exists topo,
    launchM (construct_binary_radix_tree_kernel 8 8 ex8_codes)
      [3; 0; 6; 1; 5; 2; 4]
      (MkTopology (zeros 0 7) (zeros 0 7) (zeros 0 15)) = Some topo /\
    aget (top_parent topo) 0 = -1 /\
    (forall v, 1 <= v < 2 * 8 - 1 ->
       0 <= aget (top_parent topo) v < 8 - 1 /\
       (v = aget (top_left topo) (aget (top_parent topo) v) \/
        v = aget (top_right topo) (aget (top_parent topo) v))) /\
    (forall i, 0 <= i < 8 - 1 ->
       aget (top_parent topo) (aget (top_left topo) i) = i /\
       aget (top_parent topo) (aget (top_right topo) i) = i).
Proof.
  apply (construct_binary_radix_tree_correct 8 8 ex8_codes
           [3; 0; 6; 1; 5; 2; 4] (zeros 0 7) (zeros 0 7) (zeros 0 15)).
  - lia.
  - exact ex8_codes_range.
  - exact ex8_codes_sorted.
  - vm_compute. lia.
  - exact ex8_order.
  - reflexivity.
  - reflexivity.
  - reflexivity.
Defined.

(** ** More on valid topologies *)

Lemma subtrees_children t v l r :
  Node v l r ∈ subtrees t -> l ∈ subtrees t /\ r ∈ subtrees t.
Proof.
  induction t as [u|u tl IHl tr IHr]; simpl.
  - by intros ?%list_elem_of_singleton.
  - rewrite !elem_of_cons, !elem_of_app. intros [[= -> -> ->]|[Hs|Hs]].
    + split; right; [left|right]; apply subtrees_self.
    + destruct (IHl Hs). split; right; by left.
    + destruct (IHr Hs). split; right; by right.
Qed.

Lemma subtrees_NoDup t s :
  NoDup (preorder t) -> s ∈ subtrees t -> NoDup (preorder s).
Proof.
  induction t as [u|u l IHl r IHr]; simpl.
  - by intros Hnd ->%list_elem_of_singleton.
  - intros Hnd. pose proof Hnd as Hnd'. apply NoDup_cons in Hnd' as [_ Hnd'].
    apply NoDup_app in Hnd' as (Hl & _ & Hr).
    rewrite elem_of_cons, elem_of_app. intros [->|[Hs|Hs]]; auto.
Qed.

Section ValidFacts.
Variables (n : Z) (left right parent : list Z) (t : tree).
Hypothesis Hvalid : valid_topology n left right parent t.

Lemma valid_leaf k : 0 <= k < n -> Leaf (n - 1 + k) ∈ subtrees t.
Proof.
  intros Hk.
  destruct (preorder_subtree t (n - 1 + k)) as (s & Hs & Hl).
  { apply (valid_node_range _ _ _ _ _ Hvalid). lia. }
  pose proof (subtrees_links _ _ _ _ _ (vt_links _ _ _ _ _ Hvalid) Hs) as Hlk.
  destruct s as [u|u l r]; simpl in *; [by subst|lia].
Qed.

Lemma valid_leaf_inv v : Leaf v ∈ subtrees t -> n - 1 <= v < 2 * n - 1.
Proof.
  intros Hs.
  pose proof (subtrees_links _ _ _ _ _ (vt_links _ _ _ _ _ Hvalid) Hs) as Hl.
  pose proof (subtrees_label _ _ Hs) as Hv.
  apply (valid_node_range _ _ _ _ _ Hvalid) in Hv. simpl in *. lia.
Qed.

Lemma valid_node v l r :
  Node v l r ∈ subtrees t ->
  l ∈ subtrees t /\ r ∈ subtrees t /\
  aget left v = label l /\ aget right v = label r /\
  0 <= v < n - 1 /\
  label l <> label r /\ label l <> v /\ label r <> v /\
  label l <> 0 /\ label r <> 0 /\
  aget parent (label l) = v /\ aget parent (label r) = v.
Proof.
  intros Hs. destruct (subtrees_children _ _ _ _ Hs) as [Hl Hr].
  pose proof (subtrees_links _ _ _ _ _ (vt_links _ _ _ _ _ Hvalid) Hs)
    as (Hv & Hll & Hlr & _).
  pose proof (subtrees_label _ _ Hs) as Hvt.
  apply (valid_node_range _ _ _ _ _ Hvalid) in Hvt. simpl in Hvt.
  pose proof (subtrees_NoDup _ _ (valid_NoDup _ _ _ _ _ Hvalid) Hs) as Hnd.
  simpl in Hnd. apply NoDup_cons in Hnd as [Hv' Hnd].
  apply NoDup_app in Hnd as (_ & Hdisj & _).
  rewrite elem_of_app in Hv'.
  pose proof (label_in_preorder l). pose proof (label_in_preorder r).
  destruct (parent_pairs_node _ _ _ _ Hs) as [Hpl Hpr].
  pose proof (vt_parents _ _ _ _ _ Hvalid) as Hpar.
  rewrite parents_ok_pairs in Hpar.
  assert (forall c x, (c, x) ∈ parent_pairs t -> c <> 0) as Hne0.
  { intros c x Hin ->.
    assert (0 ∈ tail (preorder t)) as Hin'.
    { rewrite <- parent_pairs_keys. apply list_elem_of_fmap.
      by exists (0, x). }
    pose proof (valid_NoDup _ _ _ _ _ Hvalid) as Hnd'.
    rewrite preorder_head, (vt_root _ _ _ _ _ Hvalid) in Hnd'.
    by apply NoDup_cons in Hnd' as [? _]. }
  repeat split; try done; try lia.
  - intros Heq. apply (Hdisj (label l)); [done|]. by rewrite Heq.
  - intros Heq. apply Hv'. left. by rewrite <- Heq.
  - intros Heq. apply Hv'. right. by rewrite <- Heq.
  - by apply (Hne0 _ _ Hpl).
  - by apply (Hne0 _ _ Hpr).
  - by apply Hpar.
  - by apply Hpar.
Qed.

(** A node other than the root is a child of exactly one internal node. *)
Lemma valid_parent s :
  s ∈ subtrees t -> label s <> 0 ->
  exists p l r,
    Node p l r ∈ subtrees t /\ (s = l \/ s = r) /\
    aget parent (label s) = p.
Proof.
  intros Hs Hne.
  assert (label s ∈ (parent_pairs t).*1) as Hin.
  { rewrite parent_pairs_keys.
    pose proof (subtrees_label _ _ Hs) as Hl.
    rewrite preorder_head, (vt_root _ _ _ _ _ Hvalid) in Hl.
    by apply elem_of_cons in Hl as [?|?]. }
  apply list_elem_of_fmap in Hin as ([c p] & Hc & Hin). simpl in Hc. subst c.
  destruct (parent_pairs_inv _ _ _ Hin) as (l & r & Hnode & Hlr).
  destruct (subtrees_children _ _ _ _ Hnode) as [Hl Hr].
  pose proof (valid_NoDup _ _ _ _ _ Hvalid) as Hnd.
  pose proof (vt_parents _ _ _ _ _ Hvalid) as Hpar.
  rewrite parents_ok_pairs in Hpar.
  exists p, l, r. split; [done|]. split; [|by apply Hpar].
  destruct Hlr as [Heq|Heq]; [left|right];
    by apply (subtrees_unique t).
Qed.

Lemma valid_parent_unique c p l r p' l' r' :
  Node p l r ∈ subtrees t -> Node p' l' r' ∈ subtrees t ->
  c = label l \/ c = label r -> c = label l' \/ c = label r' -> p = p'.
Proof.
  intros Hs Hs' Hc Hc'.
  destruct (parent_pairs_node _ _ _ _ Hs) as [H1 H2].
  destruct (parent_pairs_node _ _ _ _ Hs') as [H1' H2'].
  assert (NoDup (parent_pairs t).*1) as Hnd.
  { rewrite parent_pairs_keys.
    pose proof (valid_NoDup _ _ _ _ _ Hvalid) as Hnd.
    rewrite preorder_head in Hnd. by apply NoDup_cons in Hnd as [_ ?]. }
  apply (NoDup_fst_functional (parent_pairs t) c p p' Hnd).
  - destruct Hc as [-> | ->]; done.
  - destruct Hc' as [-> | ->]; done.
Qed.

Lemma valid_root_parent c : aget parent c = -1 -> c ∈ preorder t -> c = 0.
Proof.
  intros Hp Hc. destruct (decide (c = 0)) as [|Hne]; [done|].
  destruct (preorder_subtree t c Hc) as (s & Hs & <-).
  destruct (valid_parent s Hs Hne) as (p & l & r & Hnode & _ & Hpar).
  destruct (valid_node _ _ _ Hnode) as (_ & _ & _ & _ & Hp' & _). lia.
Qed.

End ValidFacts.

(** ** Sums over arrays *)

Lemma sum_list_with_insert {A} (f : A -> nat) (l : list A) (i : nat) x y :
  l !! i = Some y ->
  (sum_list_with f (<[i:=x]> l) + f y = sum_list_with f l + f x)%nat.
Proof.
  revert i. induction l as [|a l IH]; intros [|i]; simpl; try done.
  - intros [= ->]. lia.
  - intros Hl. specialize (IH i Hl). lia.
Qed.

Lemma sum_list_with_aset {A} `{Inhabited A} (f : A -> nat) (a : list A) i x :
  0 <= i < alen a ->
  (sum_list_with f (aset a i x) + f (aget a i)
   = sum_list_with f a + f x)%nat.
Proof.
  intros Hi. unfold aset. destruct (Z.leb_spec 0 i); [|lia].
  apply sum_list_with_insert. by apply aget_lookup.
Qed.

Lemma aget_out_of_range {A} `{Inhabited A} (a : list A) i :
  ~ (0 <= i < alen a) -> aget a i = inhabitant.
Proof.
  unfold aget, alen. intros Hi. destruct (Z.leb_spec 0 i); [|done].
  rewrite list_lookup_total_alt.
  rewrite (lookup_ge_None_2 a (Z.to_nat i)); [done|lia].
Qed.

Lemma forallb_aget {A} `{Inhabited A} (f : A -> bool) (a : list A) :
  forallb f a = true <-> (forall i, 0 <= i < alen a -> f (aget a i) = true).
Proof.
  rewrite <- Is_true_true, forallb_True, Forall_lookup. split.
  - intros Hall i Hi. apply Is_true_true. apply (Hall (Z.to_nat i)).
    by apply aget_lookup.
  - intros Hall i x Hx. apply Is_true_true.
    pose proof (lookup_lt_Some _ _ _ Hx) as Hlt.
    assert (0 <= Z.of_nat i < alen a) as Hi by (unfold alen; lia).
    pose proof (aget_lookup a (Z.of_nat i) Hi) as Hget.
    rewrite Nat2Z.id, Hx in Hget. injection Hget as ->. by apply Hall.
Qed.

(** ** C1: the bottom-up refit kernel *)

Section Refit.
Context {F : Type} `{Scalar F}.
Variables (n : Z) (left right parent : list Z) (t : tree).
Variables (lower_bounds upper_bounds : list (vec3 F)) (leaf_indices : list Z).
Hypothesis Hvalid : valid_topology n left right parent t.

(** The box the kernel stores for the leaf at node index [v]. *)
Definition leaf_box (v : Z) : Aabb F :=
  MkAabb (aget lower_bounds (aget leaf_indices (v - (n - 1))))
         (aget upper_bounds (aget leaf_indices (v - (n - 1)))).

(** The box of a subtree: the merge of the boxes of its children. *)
Fixpoint tree_box (s : tree) : Aabb F :=
  match s with
  | Leaf v => leaf_box v
  | Node v l r => aabb_merge (tree_box l) (tree_box r)
  end.

Lemma aabb_merge_comm (a b : Aabb F) : aabb_merge a b = aabb_merge b a.
Proof.
  unfold aabb_merge, vmin, vmax.
  by rewrite !(fmin_comm (_ (lower a))), !(fmax_comm (_ (upper a))).
Qed.

(** One step of thread [tid]. *)
Definition refit_step (tid : Z) (st : refit_state F) : refit_state F :=
  assign_bounding_boxes_kernel n left right parent lower_bounds upper_bounds
    leaf_indices tid st.

(** The threads that stored [bound_boxes[v]], and the arrivals at [v] with
    the value [atomic_add] returned (most recent first). *)
Definition writers (v : Z) (tr : list event) : list Z :=
  omap (fun e => match e with
                 | EvWrite tid u => if u =? v then Some tid else None
                 | EvArrive _ _ _ => None
                 end) tr.

Definition arrivals (v : Z) (tr : list event) : list (Z * Z) :=
  omap (fun e => match e with
                 | EvArrive tid u old =>
                     if u =? v then Some (tid, old) else None
                 | EvWrite _ _ => None
                 end) tr.

(** *** The invariant

    Ghost status of a node: untouched; claimed by a thread that is about to
    store its box; held by the thread that has stored its box and has not
    yet moved on; passed (its thread has arrived at the parent, or, for the
    root, has returned). *)
Inductive nstate :=
  | NU
  | NC (w : Z)
  | NH (w : Z)
  | NP (w : Z).

Definition is_P (g : nstate) : bool :=
  match g with NP _ => true | _ => false end.

Definition upd (gs : Z -> nstate) (v : Z) (g : nstate) : Z -> nstate :=
  fun u => if u =? v then g else gs u.

Definition count_P (gs : Z -> nstate) (l r : tree) : Z :=
  (if is_P (gs (label l)) then 1 else 0)
  + (if is_P (gs (label r)) then 1 else 0).

Definition claims (th : thread F) (v w : Z) : Prop :=
  (th_pc th = PInit /\ v = n - 1 + w) \/
  (th_pc th = PMerge /\ th_parent_index th = v) \/
  (th_pc th = PStore /\ th_current_index th = v).

(** The arrivals at an internal node so far: none; one, by a thread that
    has returned; or two, by different threads, the second of which owns
    the node. *)
Definition arrivals_ok (ths : list (thread F)) (a : Z) (arr : list (Z * Z))
    (g : nstate) : Prop :=
  (a = 0 /\ arr = []) \/
  (a = 1 /\ exists a0, arr = [(a0, 0)] /\ th_pc (aget ths a0) = PDone) \/
  (a = 2 /\ exists a0 w, arr = [(w, 1); (a0, 0)] /\ a0 <> w /\
                         (g = NC w \/ g = NH w \/ g = NP w)).

Definition node_inv (gs : Z -> nstate) (st : refit_state F) (s : tree)
    : Prop :=
  (match gs (label s) with
   | NU | NC _ => writers (label s) (rs_trace st) = []
   | NH w | NP w =>
       writers (label s) (rs_trace st) = [w] /\
       aget (rs_boxes st) (label s) = tree_box s
   end) /\
  (match gs (label s) with
   | NU | NP _ => True
   | NC w => 0 <= w < n /\ claims (aget (rs_threads st) w) (label s) w
   | NH w =>
       0 <= w < n /\ th_pc (aget (rs_threads st) w) = PLoop /\
       th_current_index (aget (rs_threads st) w) = label s
   end) /\
  (match s with
   | Leaf _ => gs (label s) <> NU
   | Node _ l r =>
       aget (rs_flags st) (label s) = count_P gs l r /\
       (gs (label s) = NU <-> count_P gs l r < 2) /\
       arrivals_ok (rs_threads st) (count_P gs l r)
         (arrivals (label s) (rs_trace st)) (gs (label s))
   end).

Definition holds_box (th : thread F) : Prop :=
  exists s, s ∈ subtrees t /\ label s = th_current_index th /\
            th_aabb th = tree_box s.

Definition thread_inv (gs : Z -> nstate) (tid : Z) (th : thread F) : Prop :=
  match th_pc th with
  | PInit => gs (n - 1 + tid) = NC tid
  | PLoop =>
      gs (th_current_index th) = NH tid /\
      th_parent_index th = aget parent (th_current_index th) /\
      holds_box th
  | PMerge =>
      gs (th_parent_index th) = NC tid /\
      is_P (gs (th_current_index th)) = true /\
      (exists l r, Node (th_parent_index th) l r ∈ subtrees t /\
                   (th_current_index th = label l \/
                    th_current_index th = label r)) /\
      holds_box th
  | PStore =>
      gs (th_current_index th) = NC tid /\
      th_current_index th < n - 1 /\
      th_parent_index th = aget parent (th_current_index th) /\
      holds_box th
  | PDone => True
  end.

Record refit_inv (st : refit_state F) (gs : Z -> nstate) : Prop := MkInv {
  ri_flags : alen (rs_flags st) = n - 1;
  ri_boxes : alen (rs_boxes st) = 2 * n - 1;
  ri_threads : alen (rs_threads st) = n;
  ri_thread :
    forall tid, 0 <= tid < n -> thread_inv gs tid (aget (rs_threads st) tid);
  ri_node : forall s, s ∈ subtrees t -> node_inv gs st s;
}.

Lemma writers_cons_write v tid u tr :
  writers v (EvWrite tid u :: tr)
    = if u =? v then tid :: writers v tr else writers v tr.
Proof. unfold writers. simpl. by destruct (u =? v). Qed.

Lemma writers_cons_arrive v tid u old tr :
  writers v (EvArrive tid u old :: tr) = writers v tr.
Proof. done. Qed.

Lemma arrivals_cons_write v tid u tr :
  arrivals v (EvWrite tid u :: tr) = arrivals v tr.
Proof. done. Qed.

Lemma arrivals_cons_arrive v tid u old tr :
  arrivals v (EvArrive tid u old :: tr)
    = if u =? v then (tid, old) :: arrivals v tr else arrivals v tr.
Proof. unfold arrivals. simpl. by destruct (u =? v). Qed.

Lemma upd_eq gs v g : upd gs v g v = g.
Proof. unfold upd. by rewrite Z.eqb_refl. Qed.

Lemma upd_ne gs v g u : u <> v -> upd gs v g u = gs u.
Proof. unfold upd. intros. by destruct (Z.eqb_spec u v). Qed.

(** The launch state satisfies the invariant. *)
Lemma refit_inv_init (flags0 : list Z) (boxes0 : list (Aabb F)) :
  alen flags0 = n - 1 -> (forall p, 0 <= p < n - 1 -> aget flags0 p = 0) ->
  alen boxes0 = 2 * n - 1 ->
  refit_inv (refit_launch_state n flags0 boxes0)
    (fun v => if n - 1 <=? v then NC (v - (n - 1)) else NU).
Proof.
  intros Hfl Hzero Hbx.
  assert (1 <= n) as Hn.
  { pose proof (label_in_preorder t) as Hin.
    apply (valid_node_range _ _ _ _ _ Hvalid) in Hin. lia. }
  assert (forall w, 0 <= w < n ->
            aget (rs_threads (refit_launch_state n flags0 boxes0)) w
              = MkThread PInit 0 0 inhabitant) as Hth.
  { intros w Hw. simpl. apply aget_replicate. lia. }
  split; simpl; try done.
  - unfold alen. rewrite length_replicate. lia.
  - intros tid Htid. rewrite aget_replicate by lia. unfold thread_inv. simpl.
    destruct (Z.leb_spec (n - 1) (n - 1 + tid)); [|lia]. f_equal. lia.
  - intros s Hs. unfold node_inv. simpl.
    destruct s as [v|v l r]; simpl.
    + pose proof (valid_leaf_inv _ _ _ _ _ Hvalid _ Hs) as Hv.
      destruct (Z.leb_spec (n - 1) v); [|lia]. split; [done|].
      split; [|done]. split; [lia|]. rewrite aget_replicate by lia.
      left. simpl. split; [done|lia].
    + destruct (valid_node _ _ _ _ _ Hvalid _ _ _ Hs)
        as (_ & _ & _ & _ & Hv & _).
      destruct (Z.leb_spec (n - 1) v); [lia|].
      assert (count_P (fun v => if n - 1 <=? v then NC (v - (n - 1)) else NU)
                l r = 0) as ->.
      { unfold count_P. by destruct (n - 1 <=? label l), (n - 1 <=? label r). }
      split; [done|]. split; [done|]. split; [by apply Hzero|].
      split; [done|]. by left.
Qed.

(** *** Preservation *)

#[local] Instance nstate_eq_dec : EqDecision nstate.
Proof. solve_decision. Defined.

Lemma count_P_upd gs c g l r :
  is_P (gs c) = is_P g -> count_P (upd gs c g) l r = count_P gs l r.
Proof.
  intros Hg. unfold count_P, upd.
  destruct (label l =? c) eqn:El, (label r =? c) eqn:Er;
    try apply Z.eqb_eq in El as ->; try apply Z.eqb_eq in Er as ->;
    by rewrite <- ?Hg.
Qed.

(** A thread that recorded a first arrival does not take another step. *)
Lemma arrivals_ok_frame (ths ths' : list (thread F)) tid a arr g :
  arrivals_ok ths a arr g ->
  th_pc (aget ths tid) <> PDone ->
  (forall w, w <> tid -> aget ths' w = aget ths w) ->
  arrivals_ok ths' a arr g.
Proof.
  intros [?|[(Ha & a0 & Harr & Hpc)|?]] Hnd Hth; [by left| |by right; right].
  right. left. split; [done|]. exists a0. split; [done|].
  rewrite Hth; [done|]. by intros ->.
Qed.

(** A node that the step neither touches nor whose claimant it moves. *)
Lemma node_inv_frame gs gs' (st st' : refit_state F) tid s :
  node_inv gs st s ->
  th_pc (aget (rs_threads st) tid) <> PDone ->
  gs' (label s) = gs (label s) ->
  (forall v l r, s = Node v l r -> count_P gs' l r = count_P gs l r) ->
  aget (rs_flags st') (label s) = aget (rs_flags st) (label s) ->
  aget (rs_boxes st') (label s) = aget (rs_boxes st) (label s) ->
  writers (label s) (rs_trace st') = writers (label s) (rs_trace st) ->
  arrivals (label s) (rs_trace st') = arrivals (label s) (rs_trace st) ->
  (forall w, w <> tid ->
     aget (rs_threads st') w = aget (rs_threads st) w) ->
  gs (label s) <> NC tid -> gs (label s) <> NH tid ->
  node_inv gs' st' s.
Proof.
  intros (Hw & Hc & Hs) Hpc Hgs Hcount Hfl Hbx Hwr Har Hth Hnc Hnh.
  unfold node_inv. rewrite Hgs, Hfl, Hbx, Hwr, Har.
  split; [done|]. split.
  - destruct (gs (label s)) as [|w|w|w]; try done.
    + rewrite Hth; [done|]. intros ->. by apply Hnc.
    + rewrite Hth; [done|]. intros ->. by apply Hnh.
  - destruct s as [v|v l r]; [done|]. rewrite (Hcount v l r) by done.
    destruct Hs as (? & ? & Harr). split; [done|]. split; [done|].
    by apply (arrivals_ok_frame (rs_threads st) _ tid).
Qed.

(** The other threads only care about nodes they claim and passed nodes. *)
Lemma thread_inv_frame gs gs' tid tid' th :
  thread_inv gs tid' th -> tid' <> tid ->
  (forall v, gs' v <> gs v -> gs v = NU \/ gs v = NC tid \/ gs v = NH tid) ->
  thread_inv gs' tid' th.
Proof.
  intros Hth Hne Hgs.
  assert (forall v g, gs v = g -> g <> NU -> g <> NC tid -> g <> NH tid ->
                      gs' v = g) as Hsame.
  { intros v g Hv H1 H2 H3. destruct (decide (gs' v = gs v)) as [Heq|Hneq].
    - by rewrite Heq.
    - destruct (Hgs v Hneq) as [?|[?|?]]; congruence. }
  unfold thread_inv in *. destruct (th_pc th); try done.
  - apply Hsame; [done|done| |done]. congruence.
  - destruct Hth as (H1 & H2 & H3). split; [|done].
    apply Hsame; [done|done|done|]. congruence.
  - destruct Hth as (H1 & H2 & H3 & H4). split; [|split; [|done]].
    + apply Hsame; [done|done| |done]. congruence.
    + destruct (gs (th_current_index th)) as [| | |w] eqn:E; try done.
      by rewrite (Hsame _ (NP w) E).
  - destruct Hth as (H1 & H2 & H3 & H4). split; [|done].
    apply Hsame; [done|done| |done]. congruence.
Qed.

Lemma step_init (st : refit_state F) gs tid :
  refit_inv st gs -> 0 <= tid < n ->
  th_pc (aget (rs_threads st) tid) = PInit ->
  refit_inv (refit_step tid st) (upd gs (n - 1 + tid) (NH tid)).
Proof.
  intros [Hfl Hbx Hths Hthread Hnode] Htid Hpc.
  assert (th_pc (aget (rs_threads st) tid) <> PDone) as Hrun
    by (by rewrite Hpc).
  pose proof (Hthread tid Htid) as Hth. unfold thread_inv in Hth.
  rewrite Hpc in Hth.
  pose proof (valid_leaf _ _ _ _ _ Hvalid tid Htid) as Hleaf.
  set (c := n - 1 + tid) in *.
  unfold refit_step, assign_bounding_boxes_kernel. rewrite Hpc. fold c.
  split; simpl.
  - done.
  - by rewrite alen_aset.
  - by rewrite alen_aset.
  - intros tid' Htid'. destruct (decide (tid' = tid)) as [->|Hne].
    + rewrite aget_aset_eq by lia. unfold thread_inv. simpl.
      rewrite upd_eq. split; [done|]. split; [done|].
      exists (Leaf c). split; [done|]. split; [done|]. simpl.
      unfold leaf_box. by replace (c - (n - 1)) with tid by lia.
    + rewrite aget_aset_ne by done.
      apply (thread_inv_frame gs _ tid); [by apply Hthread|done|].
      intros v Hv. destruct (decide (v = c)) as [->|Hvc].
      * right. by left.
      * by rewrite upd_ne in Hv.
  - intros s Hs. destruct (decide (label s = c)) as [Hlc|Hlc].
    + assert (s = Leaf c) as ->.
      { by apply (subtrees_unique t);
          [apply (valid_NoDup _ _ _ _ _ Hvalid)|..]. }
      destruct (Hnode _ Hleaf) as (Hw & _ & _). simpl in Hw. rewrite Hth in Hw.
      unfold node_inv.
      cbn [label rs_trace rs_boxes rs_threads rs_flags tree_box].
      rewrite upd_eq, writers_cons_write, Z.eqb_refl.
      rewrite Hw. rewrite !aget_aset_eq by lia. simpl.
      split; [|done]. split; [done|].
      unfold leaf_box. by replace (c - (n - 1)) with tid by lia.
    + destruct (Hnode _ Hs) as (Hw & Hc & Hstr).
      apply (node_inv_frame gs _ st _ tid);
        cbn [rs_trace rs_boxes rs_threads rs_flags]; try done.
      * by rewrite upd_ne.
      * intros. apply count_P_upd. by rewrite Hth.
      * by rewrite aget_aset_ne.
      * rewrite writers_cons_write. by destruct (Z.eqb_spec c (label s)).
      * intros w Hw'. by rewrite aget_aset_ne.
      * intros Hg. rewrite Hg in Hc. destruct Hc as [_ [[_ ?]|[[? _]|[? _]]]];
          [done|congruence|congruence].
      * intros Hg. rewrite Hg in Hc. destruct Hc as (_ & ? & _). congruence.
Qed.

Lemma count_P_upd_other gs c g l r :
  label l <> c -> label r <> c -> count_P (upd gs c g) l r = count_P gs l r.
Proof. intros Hl Hr. unfold count_P. by rewrite !upd_ne. Qed.

Lemma arrivals_ok_pass ths a arr w g :
  arrivals_ok ths a arr (NC w) \/ arrivals_ok ths a arr (NH w) ->
  g = NH w \/ g = NP w ->
  arrivals_ok ths a arr g.
Proof.
  unfold arrivals_ok.
  intros [[?|[?|(Ha & a0 & w' & Harr & Hne & Hg)]]
         |[?|[?|(Ha & a0 & w' & Harr & Hne & Hg)]]]
    Hgw; auto; right; right; (split; [done|]); exists a0, w';
    (split; [done|]); (split; [done|]);
    destruct Hg as [Hg|[Hg|Hg]]; try done; injection Hg as ->;
    destruct Hgw as [-> | ->]; auto.
Qed.

Lemma holds_box_subtree (th : thread F) s :
  holds_box th -> s ∈ subtrees t -> label s = th_current_index th ->
  th_aabb th = tree_box s.
Proof.
  intros (s' & Hs' & Hl & Hb) Hs Hls. rewrite Hb. f_equal.
  apply (subtrees_unique t); [apply (valid_NoDup _ _ _ _ _ Hvalid)|done..|].
  congruence.
Qed.

Lemma step_store (st : refit_state F) gs tid :
  refit_inv st gs -> 0 <= tid < n ->
  th_pc (aget (rs_threads st) tid) = PStore ->
  refit_inv (refit_step tid st)
    (upd gs (th_current_index (aget (rs_threads st) tid)) (NH tid)).
Proof.
  intros [Hfl Hbx Hths Hthread Hnode] Htid Hpc.
  assert (th_pc (aget (rs_threads st) tid) <> PDone) as Hrun
    by (by rewrite Hpc).
  pose proof (Hthread tid Htid) as Hth. unfold thread_inv in Hth.
  rewrite Hpc in Hth. destruct Hth as (Hgc & Hc & Hpar & Hbox).
  set (th := aget (rs_threads st) tid) in *.
  set (c := th_current_index th) in *.
  pose proof Hbox as (s0 & Hs0 & Hl0 & Hb0). fold c in Hl0.
  assert (0 <= c < 2 * n - 1) as Hcr.
  { apply (valid_node_range _ _ _ _ _ Hvalid). rewrite <- Hl0.
    by apply subtrees_label. }
  unfold refit_step, assign_bounding_boxes_kernel. fold th. rewrite Hpc.
  fold c.
  split; cbn [rs_trace rs_boxes rs_threads rs_flags].
  - done.
  - by rewrite alen_aset.
  - by rewrite alen_aset.
  - intros tid' Htid'. destruct (decide (tid' = tid)) as [->|Hne].
    + rewrite aget_aset_eq by lia. unfold thread_inv. simpl.
      rewrite upd_eq. done.
    + rewrite aget_aset_ne by done.
      apply (thread_inv_frame gs _ tid); [by apply Hthread|done|].
      intros v Hv. destruct (decide (v = c)) as [->|Hvc].
      * right. by left.
      * by rewrite upd_ne in Hv.
  - intros s Hs. destruct (decide (label s = c)) as [Hlc|Hlc].
    + assert (s = s0) as ->.
      { apply (subtrees_unique t);
          [apply (valid_NoDup _ _ _ _ _ Hvalid)|done..|congruence]. }
      destruct (Hnode _ Hs0) as (Hw & _ & Hstr). rewrite Hl0 in *.
      rewrite Hgc in Hw, Hstr.
      unfold node_inv. cbn [rs_trace rs_boxes rs_threads rs_flags].
      rewrite Hl0, upd_eq, writers_cons_write, Z.eqb_refl, Hw.
      rewrite !aget_aset_eq by lia. cbn [th_pc th_current_index].
      split; [done|]. split; [done|].
      destruct s0 as [v|v l r]; [done|].
      rewrite count_P_upd by (by rewrite Hgc).
      destruct Hstr as (Hflags & Hiff & Harr).
      split; [done|]. split.
      * split; [done|]. intros Hlt. apply Hiff in Hlt. done.
      * apply (arrivals_ok_frame (rs_threads st) _ tid);
          [apply (arrivals_ok_pass _ _ _ tid); auto|done|].
        intros w' Hw'. by rewrite aget_aset_ne.
    + destruct (Hnode _ Hs) as (Hw & Hcl & Hstr).
      apply (node_inv_frame gs _ st _ tid);
        cbn [rs_trace rs_boxes rs_threads rs_flags]; try done.
      * by rewrite upd_ne.
      * intros. apply count_P_upd. by rewrite Hgc.
      * by rewrite aget_aset_ne.
      * rewrite writers_cons_write. by destruct (Z.eqb_spec c (label s)).
      * intros w Hw'. by rewrite aget_aset_ne.
      * intros Hg. rewrite Hg in Hcl. fold th in Hcl.
        destruct Hcl as [_ [[? _]|[[? _]|[_ Heq]]]];
          [congruence|congruence|]. apply Hlc. by rewrite <- Heq.
      * intros Hg. rewrite Hg in Hcl. fold th in Hcl.
        destruct Hcl as (_ & ? & _). congruence.
Qed.

Lemma step_merge (st : refit_state F) gs tid :
  refit_inv st gs -> 0 <= tid < n ->
  th_pc (aget (rs_threads st) tid) = PMerge ->
  refit_inv (refit_step tid st) gs.
Proof.
  intros [Hfl Hbx Hths Hthread Hnode] Htid Hpc.
  assert (th_pc (aget (rs_threads st) tid) <> PDone) as Hrun
    by (by rewrite Hpc).
  pose proof (Hthread tid Htid) as Hth. unfold thread_inv in Hth.
  rewrite Hpc in Hth.
  destruct Hth as (Hgp & Hgc & (l & r & Hnd & Hclr) & Hbox).
  set (th := aget (rs_threads st) tid) in *.
  set (c := th_current_index th) in *.
  set (p := th_parent_index th) in *.
  destruct (valid_node _ _ _ _ _ Hvalid _ _ _ Hnd)
    as (Hl & Hr & Hleft & Hright & Hp & Hlr & _).
  destruct (Hnode _ Hnd) as (_ & _ & Hflags & Hiff & _).
  cbn [label] in Hiff.
  assert (is_P (gs (label l)) = true /\ is_P (gs (label r)) = true)
    as [HPl HPr].
  { assert (~ count_P gs l r < 2) as Hcount.
    { intros Hlt. apply Hiff in Hlt. congruence. }
    unfold count_P in Hcount.
    destruct (is_P (gs (label l))), (is_P (gs (label r))); (done || lia). }
  assert (forall s, s ∈ subtrees t -> is_P (gs (label s)) = true ->
                    aget (rs_boxes st) (label s) = tree_box s) as Hpassed.
  { intros s Hs HP. destruct (Hnode _ Hs) as (Hw & _).
    destruct (gs (label s)); try done. by destruct Hw. }
  unfold refit_step, assign_bounding_boxes_kernel. fold th. rewrite Hpc.
  fold c p. rewrite Hleft, Hright.
  set (box' := if c =? label l then _ else _).
  assert (box' = tree_box (Node p l r)) as Hbox'.
  { subst box'. simpl. destruct Hclr as [Hcl|Hcr].
    - rewrite Hcl, Z.eqb_refl.
      rewrite (holds_box_subtree th l) by done. by rewrite Hpassed.
    - destruct (Z.eqb_spec c (label l)); [congruence|].
      rewrite Hcr, Z.eqb_refl.
      rewrite (holds_box_subtree th r) by done.
      rewrite Hpassed by done. apply aabb_merge_comm. }
  clearbody box'. subst box'.
  split; cbn [rs_trace rs_boxes rs_threads rs_flags].
  - done.
  - done.
  - by rewrite alen_aset.
  - intros tid' Htid'. destruct (decide (tid' = tid)) as [->|Hne].
    + rewrite aget_aset_eq by lia. unfold thread_inv.
      cbn [th_pc th_current_index th_parent_index th_aabb].
      split; [done|]. split; [lia|]. split; [done|].
      by exists (Node p l r).
    + rewrite aget_aset_ne by done. by apply Hthread.
  - intros s Hs. destruct (Hnode _ Hs) as (Hw & Hcl & Hstr).
    destruct (decide (gs (label s) = NC tid)) as [Hg|Hg].
    + unfold node_inv. cbn [rs_trace rs_boxes rs_threads rs_flags].
      split; [done|]. split.
      2:{ destruct s as [v|v l' r']; [done|].
          destruct Hstr as (? & ? & Harr). split; [done|]. split; [done|].
          apply (arrivals_ok_frame (rs_threads st) _ tid); [done..|].
          intros w' Hw'. by rewrite aget_aset_ne. }
      rewrite Hg in *.
      rewrite aget_aset_eq by lia. split; [done|].
      right. right. cbn [th_pc th_current_index]. split; [done|].
      fold th in Hcl.
      destruct Hcl as [_ [[? _]|[[_ Heq]|[? _]]]];
        [congruence|exact Heq|congruence].
    + apply (node_inv_frame gs _ st _ tid);
        cbn [rs_trace rs_boxes rs_threads rs_flags]; try done.
      * intros w Hw'. by rewrite aget_aset_ne.
      * intros Hg'. rewrite Hg' in Hcl. fold th in Hcl.
        destruct Hcl as (_ & ? & _). congruence.
Qed.

Lemma step_exit (st : refit_state F) gs tid :
  refit_inv st gs -> 0 <= tid < n ->
  th_pc (aget (rs_threads st) tid) = PLoop ->
  th_parent_index (aget (rs_threads st) tid) = -1 ->
  refit_inv (refit_step tid st)
    (upd gs (th_current_index (aget (rs_threads st) tid)) (NP tid)).
Proof.
  intros [Hfl Hbx Hths Hthread Hnode] Htid Hpc Hroot.
  assert (th_pc (aget (rs_threads st) tid) <> PDone) as Hrun
    by (by rewrite Hpc).
  pose proof (Hthread tid Htid) as Hth. unfold thread_inv in Hth.
  rewrite Hpc in Hth. destruct Hth as (Hgc & Hpar & Hbox).
  set (th := aget (rs_threads st) tid) in *.
  set (c := th_current_index th) in *.
  pose proof Hbox as (s0 & Hs0 & Hl0 & Hb0). fold c in Hl0.
  assert (c = 0) as Hc0.
  { apply (valid_root_parent _ _ _ _ _ Hvalid); [congruence|].
    rewrite <- Hl0. by apply subtrees_label. }
  unfold refit_step, assign_bounding_boxes_kernel. fold th.
  rewrite Hpc, Hroot, Z.eqb_refl. cbn [negb]. fold c.
  split; cbn [rs_trace rs_boxes rs_threads rs_flags].
  - done.
  - done.
  - by rewrite alen_aset.
  - intros tid' Htid'. destruct (decide (tid' = tid)) as [->|Hne].
    + rewrite aget_aset_eq by lia. by unfold thread_inv.
    + rewrite aget_aset_ne by done.
      apply (thread_inv_frame gs _ tid); [by apply Hthread|done|].
      intros v Hv. destruct (decide (v = c)) as [->|Hvc].
      * right. by right.
      * by rewrite upd_ne in Hv.
  - intros s Hs.
    assert (forall v l r, s = Node v l r ->
              count_P (upd gs c (NP tid)) l r = count_P gs l r) as Hcount.
    { intros v l r ->.
      destruct (valid_node _ _ _ _ _ Hvalid _ _ _ Hs)
        as (_ & _ & _ & _ & _ & _ & _ & _ & Hl & Hr & _).
      apply count_P_upd_other; congruence. }
    destruct (Hnode _ Hs) as (Hw & Hcl & Hstr).
    destruct (decide (label s = c)) as [Hlc|Hlc].
    + rewrite Hlc, Hgc in Hw, Hstr.
      unfold node_inv. cbn [rs_trace rs_boxes rs_threads rs_flags].
      rewrite Hlc, upd_eq. split; [done|]. split; [done|].
      destruct s as [v|v l r]; [done|].
      rewrite (Hcount v l r) by done.
      destruct Hstr as (Hflags & Hiff & Harr).
      split; [done|]. split.
      * split; [done|]. intros Hlt. apply Hiff in Hlt. done.
      * apply (arrivals_ok_frame (rs_threads st) _ tid);
          [apply (arrivals_ok_pass _ _ _ tid); auto|done|].
        intros w' Hw'. by rewrite aget_aset_ne.
    + apply (node_inv_frame gs _ st _ tid);
        cbn [rs_trace rs_boxes rs_threads rs_flags]; try done.
      * by rewrite upd_ne.
      * intros w Hw'. by rewrite aget_aset_ne.
      * intros Hg. rewrite Hg in Hcl. fold th in Hcl.
        destruct Hcl as [_ [[? _]|[[? _]|[? _]]]]; congruence.
      * intros Hg. rewrite Hg in Hcl. fold th in Hcl.
        destruct Hcl as (_ & _ & Heq). apply Hlc. by rewrite <- Heq.
Qed.

Lemma step_arrive (st : refit_state F) gs tid :
  refit_inv st gs -> 0 <= tid < n ->
  th_pc (aget (rs_threads st) tid) = PLoop ->
  th_parent_index (aget (rs_threads st) tid) <> -1 ->
  let th := aget (rs_threads st) tid in
  let old := aget (rs_flags st) (th_parent_index th) in
  (old = 0 \/ old = 1) /\
  0 <= th_parent_index th < n - 1 /\
  refit_inv (refit_step tid st)
    (upd (upd gs (th_current_index th) (NP tid)) (th_parent_index th)
       (if old =? 1 then NC tid else NU)).
Proof.
  intros [Hfl Hbx Hths Hthread Hnode] Htid Hpc Hnroot th old.
  assert (th_pc (aget (rs_threads st) tid) <> PDone) as Hrun
    by (by rewrite Hpc).
  pose proof (Hthread tid Htid) as Hth. unfold thread_inv in Hth.
  fold th in Hth, Hpc, Hnroot. rewrite Hpc in Hth.
  destruct Hth as (Hgc & Hpar & Hbox).
  set (c := th_current_index th) in *.
  set (p := th_parent_index th) in *.
  pose proof Hbox as (s0 & Hs0 & Hl0 & Hb0). fold c in Hl0.
  assert (c <> 0) as Hc0.
  { intros Hc. rewrite Hc in Hpar.
    rewrite (vt_root_parent _ _ _ _ _ Hvalid) in Hpar. done. }
  destruct (valid_parent _ _ _ _ _ Hvalid s0 Hs0) as (p' & l & r & Hnd & Hlr & Hp');
    [congruence|].
  assert (p' = p) as -> by congruence. clear Hp'.
  assert (c = label l \/ c = label r) as Hclr.
  { destruct Hlr as [<- | <-]; auto. }
  destruct (valid_node _ _ _ _ _ Hvalid _ _ _ Hnd)
    as (Hl & Hr & Hleft & Hright & Hp & Hlrne & Hlp & Hrp & _).
  assert (c <> p) as Hcp by (destruct Hclr; congruence).
  destruct (Hnode _ Hnd) as (Hwp & _ & Hflags & Hiff & Harr).
  cbn [label] in Hwp, Hflags, Hiff, Harr. fold old in Hflags.
  (* the sibling may have arrived, this child has not *)
  assert (count_P (upd (upd gs c (NP tid)) p (if old =? 1 then NC tid else NU))
            l r = count_P gs l r + 1 /\ count_P gs l r < 2) as [Hcount Hlt].
  { unfold count_P. rewrite !(upd_ne _ p) by done.
    destruct Hclr as [Hc|Hc].
    - rewrite <- Hc, upd_eq, (upd_ne _ c) by congruence. rewrite Hgc. simpl.
      destruct (is_P (gs (label r))); lia.
    - rewrite <- Hc, upd_eq, (upd_ne _ c) by congruence. rewrite Hgc. simpl.
      destruct (is_P (gs (label l))); lia. }
  assert (gs p = NU) as Hgp by (by apply Hiff).
  assert (old = 0 \/ old = 1) as Hold.
  { rewrite Hflags. unfold count_P in *.
    destruct (is_P (gs (label l))), (is_P (gs (label r))); lia. }
  split; [done|]. split; [done|].
  unfold refit_step, assign_bounding_boxes_kernel. fold th. rewrite Hpc.
  fold c p old.
  destruct (Z.eqb_spec p (-1)) as [|_]; [done|]. cbn [negb].
  split; cbn [rs_trace rs_boxes rs_threads rs_flags].
  - by rewrite alen_aset.
  - done.
  - by rewrite alen_aset.
  - intros tid' Htid'. destruct (decide (tid' = tid)) as [->|Hne].
    + rewrite aget_aset_eq by lia. unfold thread_inv.
      cbn [th_pc th_current_index th_parent_index th_aabb].
      destruct (Z.eqb_spec old 1); [|done].
      rewrite upd_eq, upd_ne, upd_eq by done.
      split; [done|]. split; [done|]. split; [|done]. by exists l, r.
    + rewrite aget_aset_ne by done.
      apply (thread_inv_frame gs _ tid); [by apply Hthread|done|].
      intros v Hv. destruct (decide (v = p)) as [->|Hvp]; [by left|].
      destruct (decide (v = c)) as [->|Hvc]; [right; by right|].
      by rewrite !upd_ne in Hv.
  - intros s Hs. destruct (Hnode _ Hs) as (Hw & Hcl & Hstr).
    destruct (decide (label s = c)) as [Hlc|Hlc];
      [|destruct (decide (label s = p)) as [Hlp'|Hlp']].
    + (* the node the thread leaves *)
      rewrite Hlc, Hgc in Hw, Hstr.
      unfold node_inv. cbn [rs_trace rs_boxes rs_threads rs_flags].
      rewrite Hlc, upd_ne, upd_eq by done.
      rewrite writers_cons_arrive, arrivals_cons_arrive.
      destruct (Z.eqb_spec p c); [congruence|].
      split; [done|]. split; [done|].
      destruct s as [v|v l' r']; [done|]. cbn [label] in Hlc. subst v.
      destruct (valid_node _ _ _ _ _ Hvalid _ _ _ Hs)
        as (_ & _ & _ & _ & _ & _ & Hl'c & Hr'c & _).
      rewrite count_P_upd
        by (rewrite upd_ne, Hgp by congruence; by destruct (old =? 1)).
      rewrite count_P_upd_other by done.
      rewrite aget_aset_ne by congruence.
      destruct Hstr as (Hflags' & Hiff' & Harr').
      split; [done|]. split.
      * split; [done|]. intros Hlt'. apply Hiff' in Hlt'. done.
      * apply (arrivals_ok_frame (rs_threads st) _ tid);
          [apply (arrivals_ok_pass _ _ _ tid); auto|done|].
        intros w' Hw'. by rewrite aget_aset_ne.
    + (* the parent *)
      assert (s = Node p l r) as ->.
      { apply (subtrees_unique t);
          [apply (valid_NoDup _ _ _ _ _ Hvalid)|done..]. }
      rewrite Hgp in Hwp, Harr.
      unfold node_inv. cbn [rs_trace rs_boxes rs_threads rs_flags label].
      rewrite upd_eq, Hcount.
      rewrite writers_cons_arrive, arrivals_cons_arrive, Z.eqb_refl.
      rewrite !aget_aset_eq by lia. fold old.
      split; [by destruct (old =? 1)|]. split.
      { destruct (Z.eqb_spec old 1); [|done]. split; [done|].
        rewrite aget_aset_eq by lia. right. by left. }
      split; [lia|]. split.
      { destruct (Z.eqb_spec old 1); split; (done || lia). }
      unfold arrivals_ok in *.
      destruct Harr as [[H0 ->]|[[H1 (a0 & -> & Hpc0)]|[H2 _]]]; [| |lia].
      * right. left. split; [lia|]. exists tid.
        assert (old = 0) as Hold0 by lia.
        rewrite aget_aset_eq by lia. rewrite Hold0. done.
      * right. right. split; [lia|]. exists a0, tid.
        assert (old = 1) as Hold1 by lia. rewrite Hold1.
        split; [done|]. split; [|by left].
        intros ->. fold th in Hpc0. congruence.
    + (* any other node *)
      apply (node_inv_frame gs _ st _ tid);
        cbn [rs_trace rs_boxes rs_threads rs_flags]; try done.
      * by rewrite !upd_ne.
      * intros v l' r' ->. cbn [label] in *.
        rewrite count_P_upd
          by (rewrite upd_ne, Hgp by congruence; by destruct (old =? 1)).
        apply count_P_upd_other.
        -- intros Hc. apply Hlp'.
           apply (valid_parent_unique _ _ _ _ _ Hvalid c v l' r' p l r);
             auto.
        -- intros Hc. apply Hlp'.
           apply (valid_parent_unique _ _ _ _ _ Hvalid c v l' r' p l r);
             auto.
      * by rewrite aget_aset_ne.
      * rewrite arrivals_cons_arrive. by destruct (Z.eqb_spec p (label s)).
      * intros w Hw'. by rewrite aget_aset_ne.
      * intros Hg. rewrite Hg in Hcl. fold th in Hcl.
        destruct Hcl as [_ [[? _]|[[? _]|[? _]]]]; congruence.
      * intros Hg. rewrite Hg in Hcl. fold th in Hcl.
        destruct Hcl as (_ & _ & Heq). apply Hlc. by rewrite <- Heq.
Qed.

Lemma step_done (st : refit_state F) tid :
  th_pc (aget (rs_threads st) tid) = PDone -> refit_step tid st = st.
Proof.
  intros Hpc. unfold refit_step, assign_bounding_boxes_kernel. by rewrite Hpc.
Qed.

Lemma step_out_of_range (st : refit_state F) tid :
  ~ (0 <= tid < alen (rs_threads st)) -> refit_step tid st = st.
Proof.
  intros Htid. apply step_done. by rewrite aget_out_of_range.
Qed.

(** Every step of every thread preserves the invariant. *)
Lemma refit_step_inv (st : refit_state F) gs tid :
  refit_inv st gs -> exists gs', refit_inv (refit_step tid st) gs'.
Proof.
  intros Hinv.
  destruct (decide (0 <= tid < n)) as [Htid|Htid].
  2:{ rewrite step_out_of_range; [eauto|]. by rewrite (ri_threads _ _ Hinv). }
  destruct (th_pc (aget (rs_threads st) tid)) eqn:Hpc.
  - eexists. by apply step_init.
  - destruct (decide (th_parent_index (aget (rs_threads st) tid) = -1)).
    + eexists. by apply step_exit.
    + eexists. by apply step_arrive.
  - eexists. by apply step_merge.
  - eexists. by apply step_store.
  - rewrite step_done by done. eauto.
Qed.

Lemma refit_run_inv (sched : list Z) (st : refit_state F) gs :
  refit_inv st gs -> exists gs', refit_inv (launch refit_step sched st) gs'.
Proof.
  revert st gs. induction sched as [|tid sched IH]; intros st gs Hinv.
  - by exists gs.
  - destruct (refit_step_inv st gs tid Hinv) as [gs' Hinv'].
    by apply (IH _ gs').
Qed.

(** *** The state when every thread has returned *)

Lemma all_done_pc (st : refit_state F) tid :
  all_done st = true -> 0 <= tid < alen (rs_threads st) ->
  th_pc (aget (rs_threads st) tid) = PDone.
Proof.
  unfold all_done. rewrite forallb_aget. intros Hall Htid.
  specialize (Hall tid Htid). unfold is_done in Hall.
  by destruct (th_pc _).
Qed.

Lemma refit_done_passed (st : refit_state F) gs s :
  refit_inv st gs -> all_done st = true -> s ∈ subtrees t ->
  exists w, gs (label s) = NP w.
Proof.
  intros Hinv Hdone.
  assert (forall s, s ∈ subtrees t -> gs (label s) <> NU ->
                    exists w, gs (label s) = NP w) as Hstat.
  { intros s' Hs' Hne. destruct (ri_node _ _ Hinv _ Hs') as (_ & Hcl & _).
    destruct (gs (label s')) as [|w|w|w]; [done| | |by exists w].
    - destruct Hcl as [Hw Hcl].
      rewrite <- (ri_threads _ _ Hinv) in Hw.
      pose proof (all_done_pc st w Hdone Hw) as Hpc.
      destruct Hcl as [[? _]|[[? _]|[? _]]]; congruence.
    - destruct Hcl as (Hw & Hpc' & _).
      rewrite <- (ri_threads _ _ Hinv) in Hw.
      pose proof (all_done_pc st w Hdone Hw) as Hpc. congruence. }
  induction s as [v|v l IHl r IHr]; intros Hs.
  - apply Hstat; [done|]. by destruct (ri_node _ _ Hinv _ Hs) as (_ & _ & ?).
  - destruct (subtrees_children _ _ _ _ Hs) as [Hl Hr].
    destruct (IHl Hl) as [wl Hwl]. destruct (IHr Hr) as [wr Hwr].
    apply Hstat; [done|].
    destruct (ri_node _ _ Hinv _ Hs) as (_ & _ & _ & Hiff & _).
    intros HU. apply Hiff in HU. unfold count_P in HU.
    rewrite Hwl, Hwr in HU. simpl in HU. lia.
Qed.

(** When the launch has completed, every node holds the box of its
    subtree, was stored once, and, if internal, was stored by the thread
    whose [atomic_add] returned 1, the second of exactly two arrivals, the
    first being another thread's. *)
Lemma refit_done_result (st : refit_state F) gs s :
  refit_inv st gs -> all_done st = true -> s ∈ subtrees t ->
  aget (rs_boxes st) (label s) = tree_box s /\
  exists w,
    writers (label s) (rs_trace st) = [w] /\
    (label s < n - 1 ->
     exists a0, a0 <> w /\
                arrivals (label s) (rs_trace st) = [(w, 1); (a0, 0)]).
Proof.
  intros Hinv Hdone Hs.
  destruct (refit_done_passed st gs s Hinv Hdone Hs) as [w Hw].
  destruct (ri_node _ _ Hinv _ Hs) as (Hwr & _ & Hstr).
  rewrite Hw in Hwr. destruct Hwr as [Hwr Hbox]. split; [done|].
  exists w. split; [done|]. intros Hint.
  destruct s as [v|v l r].
  { pose proof (valid_leaf_inv _ _ _ _ _ Hvalid _ Hs). simpl in *. lia. }
  destruct Hstr as (_ & Hiff & Harr). rewrite Hw in Hiff, Harr.
  destruct Harr as [[H0 _]|[[H1 _]|(_ & a0 & w' & Harr & Hne & Hg)]].
  - assert (count_P gs l r < 2) as Hlt by lia. by apply Hiff in Hlt.
  - assert (count_P gs l r < 2) as Hlt by lia. by apply Hiff in Hlt.
  - destruct Hg as [?|[?|[= ->]]]; try done. by exists a0.
Qed.


(** *** Termination

    A step of a thread that has not returned decreases a measure: a thread
    costs the number of steps to its next arrival, and an arrival uses up
    one of the two increments of a flag. *)
Definition pc_weight (th : thread F) : nat :=
  match th_pc th with
  | PInit => 2
  | PLoop => 1
  | PMerge => 3
  | PStore => 2
  | PDone => 0
  end%nat.

Definition flag_weight (f : Z) : nat := (3 * Z.to_nat (2 - f))%nat.

Definition refit_measure (st : refit_state F) : nat :=
  (sum_list_with pc_weight (rs_threads st)
   + sum_list_with flag_weight (rs_flags st))%nat.

Lemma step_measure (st : refit_state F) gs tid :
  refit_inv st gs -> 0 <= tid < n ->
  th_pc (aget (rs_threads st) tid) <> PDone ->
  (refit_measure (refit_step tid st) < refit_measure st)%nat.
Proof.
  intros Hinv Htid Hpc.
  assert (0 <= tid < alen (rs_threads st)) as Htid'
    by (by rewrite (ri_threads _ _ Hinv)).
  assert (forall th',
            (sum_list_with pc_weight (aset (rs_threads st) tid th')
             + pc_weight (aget (rs_threads st) tid)
             = sum_list_with pc_weight (rs_threads st) + pc_weight th')%nat)
    as Hsum by (intros; by apply sum_list_with_aset).
  destruct (th_pc (aget (rs_threads st) tid)) eqn:E; [| | | |done].
  - unfold refit_step, assign_bounding_boxes_kernel, refit_measure.
    rewrite E. cbn [rs_threads rs_flags].
    specialize (Hsum (MkThread PLoop (n - 1 + tid)
                        (aget parent (n - 1 + tid))
                        (MkAabb (aget lower_bounds (aget leaf_indices tid))
                           (aget upper_bounds (aget leaf_indices tid))))).
    unfold pc_weight in Hsum at 2 4. rewrite E in Hsum. simpl in Hsum. lia.
  - destruct (decide (th_parent_index (aget (rs_threads st) tid) = -1))
      as [Hroot|Hroot].
    + unfold refit_step, assign_bounding_boxes_kernel, refit_measure.
      rewrite E, Hroot, Z.eqb_refl. cbn [negb rs_threads rs_flags].
      specialize (Hsum (MkThread PDone
                          (th_current_index (aget (rs_threads st) tid)) (-1)
                          (th_aabb (aget (rs_threads st) tid)))).
      unfold pc_weight in Hsum at 2 4. rewrite E in Hsum. simpl in Hsum. lia.
    + destruct (step_arrive st gs tid Hinv Htid E Hroot) as (Hold & Hp & _).
      cbv zeta in Hold, Hp.
      unfold refit_step, assign_bounding_boxes_kernel, refit_measure.
      rewrite E. set (p := th_parent_index (aget (rs_threads st) tid)) in *.
      set (old := aget (rs_flags st) p) in *.
      destruct (Z.eqb_spec p (-1)) as [|_]; [done|].
      cbn [negb rs_threads rs_flags].
      specialize (Hsum (MkThread (if old =? 1 then PMerge else PDone)
                          (th_current_index (aget (rs_threads st) tid)) p
                          (th_aabb (aget (rs_threads st) tid)))).
      unfold pc_weight in Hsum at 2 4. rewrite E in Hsum.
      cbn [th_pc] in Hsum.
      assert (0 <= p < alen (rs_flags st)) as Hp'
        by (by rewrite (ri_flags _ _ Hinv)).
      pose proof (sum_list_with_aset flag_weight (rs_flags st) p (old + 1) Hp')
        as Hfl.
      fold old in Hfl. unfold flag_weight in Hfl at 2 4.
      clearbody old.
      destruct Hold as [-> | ->]; simpl in Hsum, Hfl |- *; lia.
  - unfold refit_step, assign_bounding_boxes_kernel, refit_measure.
    rewrite E. cbn [rs_threads rs_flags].
    match goal with
    | |- context [aset _ tid ?th'] => specialize (Hsum th')
    end.
    unfold pc_weight in Hsum at 2 4. rewrite E in Hsum. simpl in Hsum. lia.
  - unfold refit_step, assign_bounding_boxes_kernel, refit_measure.
    rewrite E. cbn [rs_threads rs_flags].
    match goal with
    | |- context [aset _ tid ?th'] => specialize (Hsum th')
    end.
    unfold pc_weight in Hsum at 2 4. rewrite E in Hsum. simpl in Hsum. lia.
Qed.

Lemma step_measure_le (st : refit_state F) gs tid :
  refit_inv st gs ->
  (refit_measure (refit_step tid st) <= refit_measure st)%nat.
Proof.
  intros Hinv.
  destruct (decide (0 <= tid < n)) as [Htid|Htid].
  2:{ rewrite step_out_of_range; [done|]. by rewrite (ri_threads _ _ Hinv). }
  assert (th_pc (aget (rs_threads st) tid) = PDone \/
          th_pc (aget (rs_threads st) tid) <> PDone) as [Hpc|Hpc]
    by (destruct (th_pc _); auto; by right).
  - by rewrite step_done.
  - pose proof (step_measure st gs tid Hinv Htid Hpc). lia.
Qed.

(** A step leaves the registers of the other threads alone. *)
Lemma step_other_thread (st : refit_state F) x tid :
  x <> tid ->
  aget (rs_threads (refit_step x st)) tid = aget (rs_threads st) tid.
Proof.
  intros Hne. unfold refit_step, assign_bounding_boxes_kernel.
  destruct (th_pc (aget (rs_threads st) x)); try done;
    try (cbn [rs_threads]; by rewrite aget_aset_ne).
  destruct (negb _); cbn [rs_threads]; by rewrite aget_aset_ne.
Qed.

Lemma run_measure_le (sched : list Z) (st : refit_state F) gs :
  refit_inv st gs ->
  (refit_measure (launch refit_step sched st) <= refit_measure st)%nat.
Proof.
  revert st gs. induction sched as [|x sched IH]; intros st gs Hinv; [done|].
  destruct (refit_step_inv st gs x Hinv) as [gs' Hinv'].
  pose proof (step_measure_le st gs x Hinv).
  pose proof (IH _ _ Hinv'). simpl. unfold launch in *. lia.
Qed.

(** A schedule in which a thread that has not returned takes a step. *)
Lemma run_progress (sched : list Z) (st : refit_state F) gs tid :
  refit_inv st gs -> 0 <= tid < n -> tid ∈ sched ->
  th_pc (aget (rs_threads st) tid) <> PDone ->
  (refit_measure (launch refit_step sched st) < refit_measure st)%nat.
Proof.
  revert st gs. induction sched as [|x sched IH]; intros st gs Hinv Htid Hin Hpc.
  { by apply elem_of_nil in Hin. }
  destruct (refit_step_inv st gs x Hinv) as [gs' Hinv'].
  change (launch refit_step (x :: sched) st)
    with (launch refit_step sched (refit_step x st)).
  destruct (decide (x = tid)) as [->|Hne].
  - pose proof (step_measure st gs tid Hinv Htid Hpc).
    pose proof (run_measure_le sched _ _ Hinv'). lia.
  - apply elem_of_cons in Hin as [?|Hin]; [congruence|].
    pose proof (step_measure_le st gs x Hinv).
    assert (refit_measure (launch refit_step sched (refit_step x st))
            < refit_measure (refit_step x st))%nat; [|lia].
    apply (IH _ gs'); try done. by rewrite step_other_thread.
Qed.

Lemma run_all_done (sched : list Z) (st : refit_state F) :
  all_done st = true -> launch refit_step sched st = st.
Proof.
  intros Hdone. induction sched as [|x sched IH]; [done|].
  change (launch refit_step (x :: sched) st)
    with (launch refit_step sched (refit_step x st)).
  destruct (decide (0 <= x < alen (rs_threads st))) as [Hx|Hx].
  - rewrite step_done; [done|]. by apply all_done_pc.
  - by rewrite step_out_of_range.
Qed.

Lemma not_all_done (st : refit_state F) :
  all_done st = false ->
  exists tid, 0 <= tid < alen (rs_threads st) /\
              th_pc (aget (rs_threads st) tid) <> PDone.
Proof.
  unfold all_done. intros Hnot.
  assert (exists (i : nat) th,
            rs_threads st !! i = Some th /\ is_done th = false)
    as (i & th & Hi & Hnd).
  { induction (rs_threads st) as [|a l IH]; [done|]. simpl in Hnot.
    destruct (is_done a) eqn:Ea.
    - destruct (IH Hnot) as (i & th & Hi & Hnd). by exists (S i), th.
    - by exists 0%nat, a. }
  pose proof (lookup_lt_Some _ _ _ Hi) as Hlt.
  exists (Z.of_nat i).
  assert (0 <= Z.of_nat i < alen (rs_threads st)) as Hr by (unfold alen; lia).
  split; [done|].
  pose proof (aget_lookup (rs_threads st) (Z.of_nat i) Hr) as Hget.
  rewrite Nat2Z.id, Hi in Hget. injection Hget as <-.
  intros Hpc. unfold is_done in Hnd. by rewrite Hpc in Hnd.
Qed.

(** [k] rounds in which every thread takes one step. *)
Definition rounds (k : nat) : list Z := concat (replicate k (seqZ 0 n)).

Lemma rounds_all_done (k : nat) (st : refit_state F) gs :
  refit_inv st gs -> (refit_measure st <= k)%nat ->
  all_done (launch refit_step (rounds k) st) = true.
Proof.
  revert st gs. induction k as [|k IH]; intros st gs Hinv Hm;
    (destruct (all_done st) eqn:Hdone; [by rewrite run_all_done|]);
    apply not_all_done in Hdone as (tid & Htid & Hpc);
    rewrite (ri_threads _ _ Hinv) in Htid;
    assert (tid ∈ seqZ 0 n) as Hin by (apply elem_of_seqZ; lia);
    pose proof (run_progress _ st gs tid Hinv Htid Hin Hpc) as Hlt.
  - lia.
  - unfold rounds. simpl. rewrite launch_app. fold (rounds k).
    destruct (refit_run_inv (seqZ 0 n) st gs Hinv) as [gs' Hinv'].
    apply (IH _ gs'); [done|lia].
Qed.

Lemma sum_list_with_replicate {A} (f : A -> nat) (k : nat) (x : A) :
  sum_list_with f (replicate k x) = (k * f x)%nat.
Proof. induction k as [|k IH]; simpl; [done|]. rewrite IH. lia. Qed.

Lemma sum_list_with_const {A} `{Inhabited A} (f : A -> nat) (l : list A) c :
  (forall i, 0 <= i < alen l -> f (aget l i) = c) ->
  sum_list_with f l = (length l * c)%nat.
Proof.
  intros Hall.
  assert (Forall (fun x => f x = c) l) as HF.
  { apply Forall_lookup. intros i x Hx.
    pose proof (lookup_lt_Some _ _ _ Hx) as Hlt.
    assert (0 <= Z.of_nat i < alen l) as Hi by (unfold alen; lia).
    pose proof (aget_lookup l (Z.of_nat i) Hi) as Hget.
    rewrite Nat2Z.id, Hx in Hget. injection Hget as ->. by apply Hall. }
  clear Hall. induction HF as [|x l Hx _ IH]; simpl; [done|].
  rewrite IH, Hx. lia.
Qed.

Lemma refit_measure_init (flags0 : list Z) (boxes0 : list (Aabb F)) :
  alen flags0 = n - 1 -> (forall p, 0 <= p < n - 1 -> aget flags0 p = 0) ->
  (refit_measure (refit_launch_state n flags0 boxes0) <= Z.to_nat (8 * n))%nat.
Proof.
  intros Hfl Hzero. unfold refit_measure, refit_launch_state.
  cbn [rs_threads rs_flags]. rewrite sum_list_with_replicate.
  rewrite (sum_list_with_const flag_weight flags0 6).
  - unfold alen in Hfl. unfold pc_weight. simpl. lia.
  - intros i Hi. rewrite Hzero by lia. done.
Qed.

(** An internal node index names a [Node] of the tree. *)
Lemma valid_internal i :
  0 <= i < n - 1 ->
  exists l r, Node i l r ∈ subtrees t /\
              aget left i = label l /\ aget right i = label r.
Proof.
  intros Hi.
  destruct (preorder_subtree t i) as (s & Hs & Hl).
  { apply (valid_node_range _ _ _ _ _ Hvalid). lia. }
  destruct s as [v|v l r]; simpl in Hl; subst v.
  - pose proof (valid_leaf_inv _ _ _ _ _ Hvalid _ Hs). lia.
  - destruct (valid_node _ _ _ _ _ Hvalid _ _ _ Hs)
      as (_ & _ & Hleft & Hright & _).
    by exists l, r.
Qed.

(** C1.  The bottom-up kernel on a valid topology, launched with the flags
    zeroed, under any interleaving of the steps of its threads.  The launch
    completes: whatever steps have been taken, letting every thread run
    (at most [8 N] rounds) makes all threads return.  Once all threads have
    returned, every internal node [i] holds the merge of the boxes of its
    two children, its box has been stored exactly once, and the thread that
    stored it is the second of the exactly two arrivals at [i], the one
    whose [atomic_add] returned 1; the first arrival is another thread's. *)
Theorem assign_bounding_boxes_correct (flags0 : list Z)
    (boxes0 : list (Aabb F)) (sched : list Z) :
  alen flags0 = n - 1 -> (forall p, 0 <= p < n - 1 -> aget flags0 p = 0) ->
  alen boxes0 = 2 * n - 1 ->
  let run sched :=
    launch
      (assign_bounding_boxes_kernel n left right parent lower_bounds
         upper_bounds leaf_indices)
      sched (refit_launch_state n flags0 boxes0) in
  all_done (run (sched ++ rounds (Z.to_nat (8 * n)))) = true /\
  (all_done (run sched) = true ->
   forall i, 0 <= i < n - 1 ->
     aget (rs_boxes (run sched)) i
       = aabb_merge (aget (rs_boxes (run sched)) (aget left i))
           (aget (rs_boxes (run sched)) (aget right i)) /\
     exists w a0,
       a0 <> w /\
       writers i (rs_trace (run sched)) = [w] /\
       arrivals i (rs_trace (run sched)) = [(w, 1); (a0, 0)]).
Proof.
  intros Hfl Hzero Hbx. cbv zeta.
  change (assign_bounding_boxes_kernel n left right parent lower_bounds
            upper_bounds leaf_indices) with refit_step.
  pose proof (refit_inv_init flags0 boxes0 Hfl Hzero Hbx) as Hinit.
  split.
  - rewrite launch_app.
    destruct (refit_run_inv sched _ _ Hinit) as [gs Hinv].
    apply (rounds_all_done _ _ gs); [done|].
    exact (Nat.le_trans _ _ _ (run_measure_le sched _ _ Hinit)
             (refit_measure_init flags0 boxes0 Hfl Hzero)).
  - intros Hdone i Hi.
    destruct (refit_run_inv sched _ _ Hinit) as [gs Hinv].
    destruct (valid_internal i Hi) as (l & r & Hs & -> & ->).
    destruct (subtrees_children _ _ _ _ Hs) as [Hl Hr].
    destruct (refit_done_result _ gs _ Hinv Hdone Hs) as (Hb & w & Hw & Harr).
    destruct (refit_done_result _ gs _ Hinv Hdone Hl) as (Hbl & _).
    destruct (refit_done_result _ gs _ Hinv Hdone Hr) as (Hbr & _).
    cbn [label tree_box] in Hb, Hw, Harr.
    split; [by rewrite Hb, Hbl, Hbr|].
    destruct (Harr ltac:(lia)) as (a0 & Hne & Ha0). by exists w, a0.
Qed.
End Refit.

(** Three leaves under the topology [ex3_tree]; leaf position [k] holds the
    input box [ex3_perm[k]]. *)
Definition ex3_lower : list (vec3 Z) := [Vec3 0 0 0; Vec3 4 1 2; Vec3 (-3) 5 1].
Definition ex3_upper : list (vec3 Z) := [Vec3 1 2 3; Vec3 6 2 4; Vec3 0 7 2].
Definition ex3_perm : list Z := [2; 0; 1; 0; 0; 0].

(** An interleaving in which thread 1 is the first and thread 0 the second
    to arrive at node 1, and thread 2 reaches the root before they do. *)
Definition ex3_sched : list Z := [2; 1; 0; 2; 1; 0; 0; 0; 0; 0; 0; 0].

Lemma assign_bounding_boxes_correct_witness :
  let run sched :=
    launch
      (assign_bounding_boxes_kernel 3 ex3_left ex3_right ex3_parent
         ex3_lower ex3_upper ex3_perm)
      sched (refit_launch_state 3 [0; 0] (zeros Aabb_zero 5)) in
  all_done (run (ex3_sched ++ rounds 3 (Z.to_nat (8 * 3)))) = true /\
  forall i, 0 <= i < 3 - 1 ->
    aget (rs_boxes (run ex3_sched)) i
      = aabb_merge (aget (rs_boxes (run ex3_sched)) (aget ex3_left i))
          (aget (rs_boxes (run ex3_sched)) (aget ex3_right i)) /\
    exists w a0,
      a0 <> w /\
      writers i (rs_trace (run ex3_sched)) = [w] /\
      arrivals i (rs_trace (run ex3_sched)) = [(w, 1); (a0, 0)].
Proof.
  destruct (assign_bounding_boxes_correct 3 ex3_left ex3_right ex3_parent
              ex3_tree ex3_lower ex3_upper ex3_perm ex3_valid
              [0; 0] (zeros Aabb_zero 5) ex3_sched) as [Hlive Hres].
  - reflexivity.
  - intros p Hp. assert (p = 0 \/ p = 1) as [-> | ->] by lia; reflexivity.
  - reflexivity.
  - split; [exact Hlive|]. apply Hres. vm_compute. reflexivity.
Defined.

(** ** The box of a tree is the merge of its leaves *)

(** The leaves of a valid topology, left to right, are the leaf nodes
    [N-1 .. 2N-2] in some order. *)
Lemma filter_all {A} (P : A -> Prop) `{forall x, Decision (P x)} (l : list A) :
  Forall P l -> filter P l = l.
Proof.
  induction 1 as [|x l Hx _ IH]; [done|].
  by rewrite filter_cons_True, IH.
Qed.

Lemma filter_none {A} (P : A -> Prop) `{forall x, Decision (P x)}
    (l : list A) :
  Forall (fun x => ~ P x) l -> filter P l = [].
Proof.
  induction 1 as [|x l Hx _ IH]; [done|].
  by rewrite filter_cons_False.
Qed.

Lemma fringe_filter n left right t :
  links_ok n left right t ->
  filter (fun v => n - 1 <= v) (preorder t) = fringe t.
Proof.
  induction t as [v|v l IHl r IHr]; simpl.
  - intros Hv. by rewrite filter_cons_True.
  - intros (Hv & _ & _ & Hl & Hr).
    rewrite filter_cons_False by lia.
    by rewrite filter_app, IHl, IHr.
Qed.

Lemma valid_fringe n left right parent t :
  valid_topology n left right parent t -> fringe t ≡ₚ seqZ (n - 1) n.
Proof.
  intros Hvalid.
  assert (1 <= n) as Hn.
  { pose proof (label_in_preorder t) as Hin.
    apply (valid_node_range _ _ _ _ _ Hvalid) in Hin. lia. }
  rewrite <- (fringe_filter n left right) by apply Hvalid.
  rewrite (vt_nodes _ _ _ _ _ Hvalid).
  replace (2 * n - 1) with ((n - 1) + n) by lia.
  rewrite seqZ_app, filter_app by lia.
  rewrite filter_none, filter_all; [done| |].
  - apply Forall_forall. intros v Hv%elem_of_seqZ. lia.
  - apply Forall_forall. intros v Hv%elem_of_seqZ. lia.
Qed.

Lemma fmap_aget_seqZ {A} `{Inhabited A} (l : list A) n :
  0 <= n <= alen l -> aget l <$> seqZ 0 n = take (Z.to_nat n) l.
Proof.
  intros Hn. apply list_eq. intros i. rewrite list_lookup_fmap.
  destruct (decide (Z.of_nat i < n)) as [Hi|Hi].
  - rewrite lookup_seqZ_lt, lookup_take_lt by lia. simpl. rewrite Z.add_0_l.
    rewrite <- (Nat2Z.id i) at 2. by rewrite aget_lookup by lia.
  - rewrite lookup_seqZ_ge, lookup_take_ge by lia. done.
Qed.

Lemma zip_with_aget {A B C} `{Inhabited A, Inhabited B} (f : A -> B -> C)
    (la : list A) (lb : list B) n :
  alen la = n -> alen lb = n ->
  zip_with f la lb = (fun k => f (aget la k) (aget lb k)) <$> seqZ 0 n.
Proof.
  intros Ha Hb. apply list_eq. intros i.
  rewrite lookup_zip_with, list_lookup_fmap.
  destruct (decide (Z.of_nat i < n)) as [Hi|Hi].
  - rewrite lookup_seqZ_lt by lia. simpl. rewrite Z.add_0_l.
    assert (la !! i = Some (aget la (Z.of_nat i))) as ->.
    { rewrite <- (Nat2Z.id i) at 1. apply aget_lookup. lia. }
    assert (lb !! i = Some (aget lb (Z.of_nat i))) as ->.
    { rewrite <- (Nat2Z.id i) at 1. apply aget_lookup. lia. }
    done.
  - rewrite lookup_seqZ_ge by lia. simpl.
    rewrite (lookup_ge_None_2 la); [done|]. unfold alen in Ha. lia.
Qed.

(** The merge of a non-empty list; [None] for the empty list. *)
Definition fold1 {A} (f : A -> A -> A) (l : list A) : option A :=
  foldr (fun a acc => Some (match acc with Some b => f a b | None => a end))
    None l.

Section Fold1.
Context {A : Type} (f : A -> A -> A).
Hypothesis f_comm : forall a b, f a b = f b a.
Hypothesis f_assoc : forall a b c, f a (f b c) = f (f a b) c.

Lemma fold1_app (l1 l2 : list A) x y :
  fold1 f l1 = Some x -> fold1 f l2 = Some y ->
  fold1 f (l1 ++ l2) = Some (f x y).
Proof.
  revert x. induction l1 as [|a l1 IH]; intros x Hx Hy; [done|].
  simpl in *. destruct (fold1 f l1) as [z|] eqn:Hz.
  - rewrite (IH z eq_refl Hy). injection Hx as <-. by rewrite f_assoc.
  - destruct l1; [|done]. simpl. rewrite Hy.
    by injection Hx as <-.
Qed.

Lemma fold1_perm (l1 l2 : list A) : l1 ≡ₚ l2 -> fold1 f l1 = fold1 f l2.
Proof.
  apply (foldr_permutation_proper eq); [apply _|].
  intros a1 a2 [b|]; f_equal.
  - by rewrite !f_assoc, (f_comm a1 a2).
  - apply f_comm.
Qed.

End Fold1.

Section Boxes.
Context {F : Type} `{Scalar F}.

Lemma vmin_comm (a b : vec3 F) : vmin a b = vmin b a.
Proof. unfold vmin. f_equal; apply fmin_comm. Qed.

Lemma vmax_comm (a b : vec3 F) : vmax a b = vmax b a.
Proof. unfold vmax. f_equal; apply fmax_comm. Qed.

Lemma vmin_assoc (a b c : vec3 F) : vmin a (vmin b c) = vmin (vmin a b) c.
Proof. unfold vmin. simpl. f_equal; apply fmin_assoc. Qed.

Lemma vmax_assoc (a b c : vec3 F) : vmax a (vmax b c) = vmax (vmax a b) c.
Proof. unfold vmax. simpl. f_equal; apply fmax_assoc. Qed.

Lemma aabb_merge_assoc (a b c : Aabb F) :
  aabb_merge a (aabb_merge b c) = aabb_merge (aabb_merge a b) c.
Proof. unfold aabb_merge. simpl. by rewrite vmin_assoc, vmax_assoc. Qed.

(** Merging boxes takes the minimum of the lower and the maximum of the
    upper corners. *)
Lemma fold1_aabb_merge (lo up : list (vec3 F)) (b : Aabb F) :
  length lo = length up ->
  fold1 aabb_merge (zip_with MkAabb lo up) = Some b ->
  fold1 vmin lo = Some (lower b) /\ fold1 vmax up = Some (upper b).
Proof.
  revert up b. induction lo as [|l lo IH]; intros [|u up] b Hlen; try done.
  simpl. injection Hlen as Hlen.
  destruct (fold1 aabb_merge (zip_with MkAabb lo up)) as [b'|] eqn:Hb'.
  - destruct (IH up b' Hlen Hb') as [-> ->]. by intros [= <-].
  - destruct lo, up; try done. by intros [= <-].
Qed.

Variables (n : Z) (lower_bounds upper_bounds : list (vec3 F)).
Variable leaf_indices : list Z.

Lemma tree_box_fringe (s : tree) :
  fold1 aabb_merge
    (leaf_box n lower_bounds upper_bounds leaf_indices <$> fringe s)
    = Some (tree_box n lower_bounds upper_bounds leaf_indices s).
Proof.
  induction s as [v|v l IHl r IHr]; [done|].
  simpl. rewrite fmap_app. apply fold1_app; [|done..].
  apply aabb_merge_assoc.
Qed.

(** The box of the whole tree is the merge of all the input boxes. *)
Lemma tree_box_root left right parent t :
  valid_topology n left right parent t ->
  alen lower_bounds = n -> alen upper_bounds = n ->
  take (Z.to_nat n) leaf_indices ≡ₚ seqZ 0 n ->
  fold1 aabb_merge (zip_with MkAabb lower_bounds upper_bounds)
    = Some (tree_box n lower_bounds upper_bounds leaf_indices t).
Proof.
  intros Hvalid Hlo Hup Hperm.
  assert (0 <= n <= alen leaf_indices) as Hn.
  { pose proof (label_in_preorder t) as Hin.
    apply (valid_node_range _ _ _ _ _ Hvalid) in Hin.
    apply Permutation_length in Hperm.
    rewrite length_take, length_seqZ in Hperm. unfold alen. lia. }
  rewrite <- tree_box_fringe.
  rewrite (fold1_perm aabb_merge aabb_merge_comm aabb_merge_assoc _ _
             (fmap_Permutation _ _ _ (valid_fringe _ _ _ _ _ Hvalid))).
  rewrite (zip_with_aget MkAabb lower_bounds upper_bounds n) by done.
  replace (leaf_box n lower_bounds upper_bounds leaf_indices <$> seqZ (n - 1) n)
    with ((fun k => MkAabb (aget lower_bounds k) (aget upper_bounds k))
            <$> take (Z.to_nat n) leaf_indices).
  { apply fold1_perm; [apply aabb_merge_comm|apply aabb_merge_assoc|].
    by apply fmap_Permutation. }
  rewrite <- (fmap_aget_seqZ leaf_indices n) by done.
  rewrite <- list_fmap_compose.
  replace (seqZ (n - 1) n) with (Z.add (n - 1) <$> seqZ 0 n)
    by (rewrite fmap_add_seqZ; f_equal; lia).
  rewrite <- list_fmap_compose.
  apply list_fmap_ext. intros _ k _. simpl. unfold leaf_box.
  by replace (n - 1 + k - (n - 1)) with k by lia.
Qed.

End Boxes.

(** ** The host pipeline: what [rebuild] and [refit] leave in the buffers *)

Section HostPipeline.
Context {F : Type} `{Scalar F}.

(** The buffer sizes [__init__] establishes and no method changes. *)
Record Bvh_sized (b : Bvh F) : Prop := MkSized {
  sz_lower : alen (lower_bounds b) = num_leaves b;
  sz_upper : alen (upper_bounds b) = num_leaves b;
  sz_internal : num_internal_nodes b = Z.max 0 (num_leaves b - 1);
  sz_total : num_total_nodes b = Z.max 0 (2 * num_leaves b - 1);
  sz_flags : alen (_flags b) = num_internal_nodes b;
  sz_leaf_indices : alen (_leaf_indices b) = num_leaves b * 2;
  sz_morton_codes : alen (_morton_codes b) = num_leaves b * 2;
  sz_boxes : alen (bound_boxes b) = num_total_nodes b;
  sz_parent : alen (parent_nodes b) = num_total_nodes b;
  sz_left : alen (left_nodes b) = num_internal_nodes b;
  sz_right : alen (right_nodes b) = num_internal_nodes b;
  sz_escape : alen (escape_indices b) = num_total_nodes b;
  sz_nodes : alen (bvh_nodes b) = num_total_nodes b;
}.

Lemma Bvh_alloc_sized (lower upper : wp_array (vec3 F)) :
  alen (arr_data lower) = alen (arr_data upper) ->
  Bvh_sized (Bvh_alloc lower upper).
Proof.
  intros Hlen. unfold Bvh_alloc.
  assert (0 <= alen (arr_data lower)) by (unfold alen; lia).
  split; cbn; rewrite ?alen_zeros; lia.
Qed.

(** What one call of [rebuild] takes as given: enough iterations for the
    device loops, every thread of a launch runs once, the encoder writes
    30-bit keys ([morton_encode]), and the external sort meets its
    contract. *)
Record admissible (o : oracle) (b : Bvh F) : Prop := MkAdmissible {
  adm_fuel : (Z.to_nat (2 * num_leaves b) <= o_fuel o)%nat;
  adm_order_init : launch_order (num_leaves b) (o_order_init o);
  adm_order_tree : launch_order (num_leaves b - 1) (o_order_tree o);
  adm_order_escape : launch_order (num_leaves b) (o_order_escape o);
  adm_order_compact : launch_order (2 * num_leaves b - 1) (o_order_compact o);
  adm_morton_len : alen (o_morton o) = num_leaves b * 2;
  adm_morton_range :
    forall k, 0 <= k < num_leaves b -> 0 <= aget (o_morton o) k < 2 ^ 30;
  adm_sort :
    radix_sort_pairs (num_leaves b) (o_morton o)
      (launch init_leaf_indices_and_bounds_kernel (o_order_init o)
         (_leaf_indices b))
      (fst (o_sorted o)) (snd (o_sorted o));
}.

Lemma admissible_ext (o : oracle) (b b' : Bvh F) :
  num_leaves b' = num_leaves b -> _leaf_indices b' = _leaf_indices b ->
  admissible o b -> admissible o b'.
Proof. intros Hn Hli [? ? ? ? ? ? ? ?]. split; by rewrite ?Hn, ?Hli. Qed.

(** The sorted buffers: a permutation of the leaves, keys ascending and in
    range. *)
Lemma admissible_sorted (o : oracle) (b : Bvh F) :
  Bvh_sized b -> 1 <= num_leaves b -> admissible o b ->
  take (Z.to_nat (num_leaves b)) (snd (o_sorted o)) ≡ₚ seqZ 0 (num_leaves b) /\
  (forall a, 0 <= a < num_leaves b ->
     0 <= aget (fst (o_sorted o)) a < 2 ^ 31) /\
  (forall a c, 0 <= a <= c -> c < num_leaves b ->
     aget (fst (o_sorted o)) a <= aget (fst (o_sorted o)) c).
Proof.
  intros Hsz Hn Hadm.
  destruct (radix_sort_pairs_identity (num_leaves b) (o_morton o)
              (launch init_leaf_indices_and_bounds_kernel (o_order_init o)
                 (_leaf_indices b))
              (fst (o_sorted o)) (snd (o_sorted o))) as [Hperm Hkeys].
  - lia.
  - rewrite (adm_morton_len _ _ Hadm). lia.
  - unfold init_leaf_indices_and_bounds_kernel.
    rewrite (launch_own_cell_len (fun tid => tid)).
    rewrite (sz_leaf_indices _ Hsz). lia.
  - apply init_leaf_indices; [apply Hadm|].
    rewrite (sz_leaf_indices _ Hsz). lia.
  - apply Hadm.
  - split; [done|]. split.
    + intros a Ha. rewrite Hkeys by done.
      assert (aget (snd (o_sorted o)) a ∈ seqZ 0 (num_leaves b)) as Hin.
      { rewrite <- Hperm. apply (list_elem_of_lookup_2 _ (Z.to_nat a)).
        rewrite lookup_take_lt by lia. apply aget_lookup.
        apply Permutation_length in Hperm.
        rewrite length_take, length_seqZ in Hperm. unfold alen. lia. }
      apply elem_of_seqZ in Hin.
      assert (0 <= aget (snd (o_sorted o)) a < num_leaves b) as Hin' by lia.
      pose proof (adm_morton_range _ _ Hadm _ Hin') as Hr.
      assert (2 ^ 30 < 2 ^ 31) by done. lia.
    + destruct (adm_sort _ _ Hadm) as (_ & _ & _ & Hsorted).
      intros a c Hac Hc. by apply Hsorted.
Qed.

Lemma single_leaf_valid (left right parent : list Z) :
  1 <= alen parent ->
  valid_topology 1 left right (fill_ parent (-1)) (Leaf 0).
Proof.
  intros Hp. split; simpl; try done.
  by rewrite aget_fill by lia.
Qed.

(** [refit] on a valid topology: every node ends up with the box of its
    subtree. *)
Lemma refit_boxes (o : oracle) (b b' : Bvh F) (log : list op) (t : tree) :
  valid_topology (num_leaves b) (left_nodes b) (right_nodes b)
    (parent_nodes b) t ->
  alen (_flags b) = num_leaves b - 1 ->
  alen (bound_boxes b) = 2 * num_leaves b - 1 ->
  refit o b = (log, Ok b') ->
  alen (bound_boxes b') = 2 * num_leaves b - 1 /\
  forall s, s ∈ subtrees t ->
    aget (bound_boxes b') (label s)
      = tree_box (num_leaves b) (lower_bounds b) (upper_bounds b)
          (_leaf_indices b) s.
Proof.
  intros Hvalid Hfl Hbx Hrun.
  assert (1 <= num_leaves b) as Hn.
  { pose proof (label_in_preorder t) as Hin.
    apply (valid_node_range _ _ _ _ _ Hvalid) in Hin. lia. }
  apply refit_Ok_inv in Hrun as [Hdone ->]; [|lia]. cbn [bound_boxes].
  pose proof (refit_inv_init _ _ _ _ _ (lower_bounds b) (upper_bounds b)
                (_leaf_indices b) Hvalid (fill_ (_flags b) 0) (bound_boxes b))
    as Hinit.
  destruct (refit_run_inv _ _ _ _ _ _ _ _ Hvalid (o_sched_refit o) _ _
              (Hinit ltac:(by rewrite alen_fill)
                 ltac:(intros p Hp; apply aget_fill; lia) Hbx))
    as [gs Hinv].
  split; [exact (ri_boxes _ _ _ _ _ _ _ _ Hinv)|].
  intros s Hs.
  by destruct (refit_done_result _ _ _ _ _ _ _ _ Hvalid _ gs s Hinv Hdone Hs).
Qed.

(** The tree [rebuild] builds: the radix tree of the sorted keys, or the
    single leaf. *)
Definition built_tree (o : oracle) (n : Z) : tree :=
  if 1 <? n then karras_root n (fst (o_sorted o)) (o_fuel o) else Leaf 0.

Lemma rebuild_result (o : oracle) (b b' : Bvh F) (log : list op) :
  Bvh_sized b -> 1 <= num_leaves b <= 2 ^ 30 -> admissible o b ->
  rebuild o b = (log, Ok b') ->
  let n := num_leaves b in
  let t := built_tree o n in
  valid_topology n (left_nodes b') (right_nodes b') (parent_nodes b') t /\
  num_leaves b' = n /\
  lower_bounds b' = lower_bounds b /\ upper_bounds b' = upper_bounds b /\
  _leaf_indices b' = snd (o_sorted o) /\
  _morton_codes b' = fst (o_sorted o) /\
  alen (bound_boxes b') = 2 * n - 1 /\
  (forall s, s ∈ subtrees t ->
     aget (bound_boxes b') (label s)
       = tree_box n (lower_bounds b) (upper_bounds b) (snd (o_sorted o)) s) /\
  launchM
    (assign_escape_indices_kernel (o_fuel o) (n - 1) (left_nodes b')
       (right_nodes b'))
    (o_order_escape o) (escape_indices b) = Some (escape_indices b') /\
  bvh_nodes b' =
    launch
      (compact_bvh_nodes_kernel n (bound_boxes b') (left_nodes b')
         (_leaf_indices b') (escape_indices b'))
      (o_order_compact o) (bvh_nodes b).
Proof.
  intros Hsz Hn Hadm Hrun n t.
  destruct (admissible_sorted o b Hsz ltac:(lia) Hadm)
    as (Hperm & Hrange & Hsorted).
  destruct (rebuild_Ok_inv o b b' log ltac:(lia) Hrun)
    as (topo & esc & log' & Htopo & Hesc & Hrefit).
  pose proof (sz_internal _ Hsz) as Hint. pose proof (sz_total _ Hsz) as Htot.
  assert (valid_topology n (top_left topo) (top_right topo) (top_parent topo)
            t) as Hvalid.
  { subst t. unfold built_tree. fold n in Htopo.
    destruct (Z.ltb_spec 1 n) as [Hn2|Hn1].
    - destruct (construct_valid n (fst (o_sorted o)) ltac:(lia) Hrange Hsorted
                  (o_fuel o) ltac:(pose proof (adm_fuel _ _ Hadm); lia)
                  (o_order_tree o) (left_nodes b) (right_nodes b)
                  (parent_nodes b) (adm_order_tree _ _ Hadm))
        as (topo' & Htopo' & Hvalid).
      + rewrite (sz_left _ Hsz). lia.
      + rewrite (sz_right _ Hsz). lia.
      + rewrite (sz_parent _ Hsz). lia.
      + rewrite Htopo in Htopo'. by injection Htopo' as <-.
    - injection Htopo as <-. simpl.
      assert (n = 1) as -> by lia.
      apply single_leaf_valid. rewrite (sz_parent _ Hsz). lia. }
  pose proof (fun Hv Hf Hb => refit_boxes o _ b' log' t Hv Hf Hb Hrefit)
    as Hrb.
  cbn [num_leaves left_nodes right_nodes parent_nodes _flags bound_boxes]
    in Hrb.
  destruct (Hrb Hvalid) as [Hlen Hboxes];
    [rewrite (sz_flags _ Hsz); lia|rewrite (sz_boxes _ Hsz); lia|].
  clear Hrb.
  cbn [lower_bounds upper_bounds _leaf_indices] in Hboxes.
  apply refit_Ok_inv in Hrefit as [_ ->]; [|simpl; lia].
  cbn. rewrite Hint in Hesc.
  replace (Z.max 0 (num_leaves b - 1)) with (n - 1) in Hesc by lia.
  done.
Qed.

End HostPipeline.

Section HostResults.
Context {F : Type} `{Scalar F}.

Lemma list_eq_aget {A} `{Inhabited A} (a b : list A) :
  alen a = alen b ->
  (forall i, 0 <= i < alen a -> aget a i = aget b i) -> a = b.
Proof.
  intros Hlen Hall. apply list_eq. intros i. unfold alen in *.
  destruct (decide (i < length a)%nat) as [Hi|Hi].
  - rewrite <- (Nat2Z.id i).
    rewrite !aget_lookup by (unfold alen; lia). f_equal. apply Hall. lia.
  - rewrite !lookup_ge_None_2 by lia. done.
Qed.

Lemma subtrees_fringe (t s : tree) v :
  s ∈ subtrees t -> v ∈ fringe s -> v ∈ fringe t.
Proof.
  induction t as [u|u l IHl r IHr]; simpl.
  - by intros ->%list_elem_of_singleton.
  - rewrite elem_of_cons, !elem_of_app. intros [->|[Hs|Hs]] Hv.
    + by apply elem_of_app in Hv.
    + left. by apply IHl.
    + right. by apply IHr.
Qed.

(** [tree_box] reads the leaf permutation at the leaf positions only. *)
Lemma tree_box_ext n (lo up : list (vec3 F)) (li li' : list Z)
    left right (s : tree) :
  links_ok n left right s ->
  (forall v, v ∈ fringe s -> aget li (v - (n - 1)) = aget li' (v - (n - 1))) ->
  tree_box n lo up li s = tree_box n lo up li' s.
Proof.
  induction s as [v|v l IHl r IHr]; simpl.
  - intros _ Hli. unfold leaf_box. rewrite Hli; [done|].
    by apply list_elem_of_singleton.
  - intros (_ & _ & _ & Hl & Hr) Hli.
    rewrite IHl, IHr; try done; intros u Hu; apply Hli, elem_of_app; auto.
Qed.

Lemma refit_completes (o : oracle) (b : Bvh F) (t : tree) (sched : list Z) :
  valid_topology (num_leaves b) (left_nodes b) (right_nodes b)
    (parent_nodes b) t ->
  alen (_flags b) = num_leaves b - 1 ->
  alen (bound_boxes b) = 2 * num_leaves b - 1 ->
  o_sched_refit o
    = sched ++ rounds (num_leaves b) (Z.to_nat (8 * num_leaves b)) ->
  exists b' log, refit o b = (log, Ok b').
Proof.
  intros Hvalid Hfl Hbx Hsched.
  assert (1 <= num_leaves b) as Hn.
  { pose proof (label_in_preorder t) as Hin.
    apply (valid_node_range _ _ _ _ _ Hvalid) in Hin. lia. }
  unfold refit. destruct (Z.eqb_spec (num_leaves b) 0); [lia|].
  cbv zeta.
  pose proof (refit_inv_init _ _ _ _ _ (lower_bounds b) (upper_bounds b)
                (_leaf_indices b) Hvalid (fill_ (_flags b) 0) (bound_boxes b)
                ltac:(by rewrite alen_fill)
                ltac:(intros p Hp; apply aget_fill; lia) Hbx) as Hinit.
  destruct (refit_run_inv _ _ _ _ _ _ _ _ Hvalid sched _ _ Hinit)
    as [gs Hinv].
  pose proof (rounds_all_done _ _ _ _ _ _ _ _ Hvalid
                (Z.to_nat (8 * num_leaves b)) _ gs Hinv) as Hdone.
  rewrite <- launch_app, <- Hsched in Hdone.
  assert (all_done
            (launch
               (assign_bounding_boxes_kernel (num_leaves b) (left_nodes b)
                  (right_nodes b) (parent_nodes b) (lower_bounds b)
                  (upper_bounds b) (_leaf_indices b))
               (o_sched_refit o)
               (refit_launch_state (num_leaves b) (fill_ (_flags b) 0)
                  (bound_boxes b))) = true) as ->; [|by eexists _, _].
  apply Hdone.
  refine (Nat.le_trans _ _ _ (run_measure_le _ _ _ _ _ _ _ _ Hvalid sched _ _
                                Hinit) _).
  apply refit_measure_init; [by rewrite alen_fill|].
  intros p Hp. apply aget_fill. lia.
Qed.

(** The root box after a build is the merge of all the input boxes: the
    component-wise minimum of the lower and maximum of the upper corners
    (for a single leaf, its own box). *)
Theorem rebuild_root_box (o : oracle) (b b' : Bvh F) (log : list op) :
  Bvh_sized b -> 1 <= num_leaves b <= 2 ^ 30 -> admissible o b ->
  rebuild o b = (log, Ok b') ->
  fold1 aabb_merge (zip_with MkAabb (lower_bounds b) (upper_bounds b))
    = Some (aget (bound_boxes b') 0) /\
  fold1 vmin (lower_bounds b) = Some (lower (aget (bound_boxes b') 0)) /\
  fold1 vmax (upper_bounds b) = Some (upper (aget (bound_boxes b') 0)).
Proof.
  intros Hsz Hn Hadm Hrun.
  destruct (rebuild_result o b b' log Hsz Hn Hadm Hrun)
    as (Hvalid & _ & _ & _ & Hli & _ & _ & Hboxes & _).
  destruct (admissible_sorted o b Hsz ltac:(lia) Hadm) as (Hperm & _).
  assert (fold1 aabb_merge (zip_with MkAabb (lower_bounds b) (upper_bounds b))
          = Some (aget (bound_boxes b') 0)) as Hroot.
  { rewrite <- (vt_root _ _ _ _ _ Hvalid).
    rewrite (Hboxes _ (subtrees_self _)).
    apply (tree_box_root _ _ _ _ _ _ _ _ Hvalid); [apply Hsz..|done]. }
  split; [done|]. apply fold1_aabb_merge; [|done].
  pose proof (sz_lower _ Hsz). pose proof (sz_upper _ Hsz).
  unfold alen in *. lia.
Qed.

(** After a build every leaf node holds the input box of the leaf the
    sorted permutation puts there, and every internal node the merge of
    the boxes of its two children. *)
Theorem rebuild_node_boxes (o : oracle) (b b' : Bvh F) (log : list op) :
  Bvh_sized b -> 1 <= num_leaves b <= 2 ^ 30 -> admissible o b ->
  rebuild o b = (log, Ok b') ->
  let n := num_leaves b in
  (forall k, 0 <= k < n ->
     aget (bound_boxes b') (n - 1 + k)
       = MkAabb (aget (lower_bounds b) (aget (_leaf_indices b') k))
                (aget (upper_bounds b) (aget (_leaf_indices b') k))) /\
  (forall i, 0 <= i < n - 1 ->
     aget (bound_boxes b') i
       = aabb_merge (aget (bound_boxes b') (aget (left_nodes b') i))
                    (aget (bound_boxes b') (aget (right_nodes b') i))).
Proof.
  intros Hsz Hn Hadm Hrun n.
  destruct (rebuild_result o b b' log Hsz Hn Hadm Hrun)
    as (Hvalid & _ & _ & _ & Hli & _ & _ & Hboxes & _).
  fold n in Hvalid, Hboxes. split.
  - intros k Hk.
    pose proof (Hboxes _ (valid_leaf _ _ _ _ _ Hvalid k Hk)) as Hb.
    cbn [label tree_box] in Hb. rewrite Hb.
    unfold leaf_box. rewrite Hli.
    by replace (n - 1 + k - (n - 1)) with k by lia.
  - intros i Hi.
    destruct (valid_internal _ _ _ _ _ Hvalid i Hi) as (l & r & Hs & -> & ->).
    destruct (subtrees_children _ _ _ _ Hs) as [Hl Hr].
    pose proof (Hboxes _ Hs) as Hb. cbn [label tree_box] in Hb.
    by rewrite Hb, (Hboxes _ Hl), (Hboxes _ Hr).
Qed.

(** [refit] against a fresh build.  [b] is the state [refit] is called
    on, [b0] the state a build on the same (mutated) inputs starts from.
    When the build leaves the topology and the leaf permutation [b]
    already has, [refit] leaves the boxes the build leaves. *)
Theorem refit_matches_rebuild (o o' : oracle) (b b0 b1 b2 : Bvh F)
    (log log' : list op) :
  Bvh_sized b0 -> 1 <= num_leaves b0 <= 2 ^ 30 -> admissible o' b0 ->
  rebuild o' b0 = (log', Ok b2) ->
  num_leaves b = num_leaves b0 ->
  lower_bounds b = lower_bounds b0 -> upper_bounds b = upper_bounds b0 ->
  left_nodes b = left_nodes b2 -> right_nodes b = right_nodes b2 ->
  parent_nodes b = parent_nodes b2 ->
  (forall k, 0 <= k < num_leaves b ->
     aget (_leaf_indices b) k = aget (_leaf_indices b2) k) ->
  alen (_flags b) = num_leaves b - 1 ->
  alen (bound_boxes b) = 2 * num_leaves b - 1 ->
  refit o b = (log, Ok b1) ->
  bound_boxes b1 = bound_boxes b2.
Proof.
  intros Hsz Hn Hadm Hrun Hnb Hlo Hup Hleft Hright Hparent Hli Hfl Hbx Hrefit.
  destruct (rebuild_result o' b0 b2 log' Hsz Hn Hadm Hrun)
    as (Hvalid2 & _ & _ & _ & Hli2 & _ & Hlen2 & Hboxes2 & _).
  set (t := built_tree o' (num_leaves b0)) in *.
  assert (valid_topology (num_leaves b) (left_nodes b) (right_nodes b)
            (parent_nodes b) t) as Hvalid
    by (by rewrite Hnb, Hleft, Hright, Hparent).
  destruct (refit_boxes o b b1 log _ Hvalid Hfl Hbx Hrefit) as [Hlen1 Hboxes1].
  apply list_eq_aget; [rewrite Hlen1, Hlen2; lia|].
  intros i Hi. rewrite Hlen1 in Hi.
  destruct (preorder_subtree t i) as (s & Hs & <-).
  { apply (valid_node_range _ _ _ _ _ Hvalid). lia. }
  rewrite (Hboxes1 _ Hs), (Hboxes2 _ Hs), Hnb, Hlo, Hup, <- Hli2.
  apply (tree_box_ext _ _ _ _ _ (left_nodes b2) (right_nodes b2)).
  - apply (subtrees_links _ _ _ _ _ (vt_links _ _ _ _ _ Hvalid2) Hs).
  - intros v Hv. apply Hli.
    pose proof (subtrees_fringe _ _ _ Hs Hv) as Hv'.
    rewrite (valid_fringe _ _ _ _ _ Hvalid) in Hv'.
    apply elem_of_seqZ in Hv'. lia.
Qed.

End HostResults.

Section HostProgress.
Context {F : Type} `{Scalar F}.

Lemma rebuild_topology_step (o : oracle) (b : Bvh F) :
  Bvh_sized b -> 1 <= num_leaves b <= 2 ^ 30 -> admissible o b ->
  exists topo,
    (if 1 <? num_leaves b then
       launchM
         (construct_binary_radix_tree_kernel (o_fuel o) (num_leaves b)
            (fst (o_sorted o)))
         (o_order_tree o)
         (MkTopology (left_nodes b) (right_nodes b) (parent_nodes b))
     else
       Some (MkTopology (left_nodes b) (right_nodes b)
               (fill_ (parent_nodes b) (-1)))) = Some topo /\
    valid_topology (num_leaves b) (top_left topo) (top_right topo)
      (top_parent topo) (built_tree o (num_leaves b)).
Proof.
  intros Hsz Hn Hadm.
  destruct (admissible_sorted o b Hsz ltac:(lia) Hadm)
    as (Hperm & Hrange & Hsorted).
  pose proof (sz_internal _ Hsz) as Hint. pose proof (sz_total _ Hsz) as Htot.
  unfold built_tree. destruct (Z.ltb_spec 1 (num_leaves b)) as [Hn2|Hn1].
  - apply (construct_valid (num_leaves b) (fst (o_sorted o)) ltac:(lia)
             Hrange Hsorted (o_fuel o)
             ltac:(pose proof (adm_fuel _ _ Hadm); lia)
             (o_order_tree o) (left_nodes b) (right_nodes b)
             (parent_nodes b) (adm_order_tree _ _ Hadm)).
    + rewrite (sz_left _ Hsz). lia.
    + rewrite (sz_right _ Hsz). lia.
    + rewrite (sz_parent _ Hsz). lia.
  - eexists. split; [done|]. simpl.
    assert (num_leaves b = 1) as -> by lia.
    apply single_leaf_valid. rewrite (sz_parent _ Hsz). lia.
Qed.

(** A build does not get stuck: with bounds that cover the device loops
    and a refit schedule that lets every thread run, [rebuild] returns. *)
Theorem rebuild_completes (o : oracle) (b : Bvh F) (sched : list Z) :
  Bvh_sized b -> 1 <= num_leaves b <= 2 ^ 30 -> admissible o b ->
  o_sched_refit o
    = sched ++ rounds (num_leaves b) (Z.to_nat (8 * num_leaves b)) ->
  exists b' log, rebuild o b = (log, Ok b').
Proof.
  intros Hsz Hn Hadm Hsched.
  destruct (rebuild_topology_step o b Hsz Hn Hadm) as (topo & Htopo & Hvalid).
  pose proof (sz_internal _ Hsz) as Hint. pose proof (sz_total _ Hsz) as Htot.
  destruct (escape_launch_result _ _ _ _ _ Hvalid (o_fuel o)
              (o_order_escape o) (escape_indices b))
    as (esc & Hesc & _).
  { apply Hadm. }
  { apply Hadm. }
  { rewrite (sz_escape _ Hsz). lia. }
  destruct (refit_completes o
              (MkBvh (lower_bounds b) (upper_bounds b) (bvh_device b)
                 (num_leaves b) (num_internal_nodes b) (num_total_nodes b)
                 (_flags b) (snd (o_sorted o)) (fst (o_sorted o))
                 (bound_boxes b) (top_parent topo) (top_left topo)
                 (top_right topo) esc (bvh_nodes b))
              (built_tree o (num_leaves b)) sched)
    as (b' & log' & Hrefit); cbn; try done.
  { rewrite (sz_flags _ Hsz). lia. }
  { rewrite (sz_boxes _ Hsz). lia. }
  unfold rebuild. destruct (Z.eqb_spec (num_leaves b) 0); [lia|].
  destruct (Z.ltb_spec 0 (num_leaves b)); [|lia].
  destruct (o_sorted o) as [mc li]. cbn [fst snd] in *.
  rewrite Htopo.
  replace (num_internal_nodes b) with (num_leaves b - 1) by lia.
  rewrite Hesc.
  replace (num_leaves b - 1) with (num_internal_nodes b) by lia.
  rewrite Hrefit. by eexists _, _.
Qed.

End HostProgress.

(** *** A scene of three leaves *)

Definition scene3_device : device := MkDevice 0 true 8.

Definition scene3 : Bvh Z :=
  Bvh_alloc (MkArray ex3_lower scene3_device) (MkArray ex3_upper scene3_device).

(** Keys 9, 3, 5 for the three leaves; the sort returns the leaves in the
    order 1, 2, 0. *)
Definition scene3_oracle : oracle :=
  MkOracle 8 true [2; 0; 1] [9; 3; 5; 0; 0; 0]
    ([3; 5; 9; 0; 0; 0], [1; 2; 0; 0; 0; 0])
    [1; 0] [0; 2; 1] ([2; 1; 0] ++ rounds 3 24) [4; 0; 1; 3; 2].

Lemma scene3_sized : Bvh_sized scene3.
Proof. by apply Bvh_alloc_sized. Qed.

Lemma scene3_admissible : admissible scene3_oracle scene3.
Proof.
  split.
  - vm_compute. lia.
  - unfold launch_order. apply (bool_decide_unpack _). by vm_compute.
  - unfold launch_order. apply (bool_decide_unpack _). by vm_compute.
  - unfold launch_order. apply (bool_decide_unpack _). by vm_compute.
  - unfold launch_order. apply (bool_decide_unpack _). by vm_compute.
  - done.
  - intros k Hk. change (num_leaves scene3) with 3 in Hk.
    assert (k = 0 \/ k = 1 \/ k = 2) as [-> | [-> | ->]] by lia;
      by vm_compute.
  - split; [done|]. split; [done|]. split.
    + apply (bool_decide_unpack _). by vm_compute.
    + intros j k Hjk Hk. change (num_leaves scene3) with 3 in Hk.
      assert (j = 0 \/ j = 1 \/ j = 2) as [-> | [-> | ->]] by lia;
        assert (k = 0 \/ k = 1 \/ k = 2) as [-> | [-> | ->]] by lia;
        (lia || by vm_compute).
Qed.

Lemma scene3_range : 1 <= num_leaves scene3 <= 2 ^ 30.
Proof. by vm_compute. Qed.

Lemma scene3_rebuild_ok :
  exists b' : Bvh Z, rebuild scene3_oracle scene3 =
    (fst (rebuild scene3_oracle scene3), Ok b').
Proof. eexists. vm_compute. reflexivity. Qed.

Lemma rebuild_root_box_witness :
  exists b' : Bvh Z,
    snd (rebuild scene3_oracle scene3) = Ok b' /\
    fold1 aabb_merge
      (zip_with MkAabb (lower_bounds scene3) (upper_bounds scene3))
      = Some (aget (bound_boxes b') 0) /\
    fold1 vmin (lower_bounds scene3) = Some (lower (aget (bound_boxes b') 0)) /\
    fold1 vmax (upper_bounds scene3) = Some (upper (aget (bound_boxes b') 0)).
Proof.
  destruct scene3_rebuild_ok as [b' Hb']. exists b'.
  split; [rewrite Hb'; reflexivity|].
  apply (rebuild_root_box scene3_oracle scene3 b'
           (fst (rebuild scene3_oracle scene3))).
  - exact scene3_sized.
  - exact scene3_range.
  - exact scene3_admissible.
  - exact Hb'.
Defined.

Lemma rebuild_node_boxes_witness :
  exists b' : Bvh Z,
    snd (rebuild scene3_oracle scene3) = Ok b' /\
    (forall k, 0 <= k < 3 ->
       aget (bound_boxes b') (3 - 1 + k)
         = MkAabb (aget ex3_lower (aget (_leaf_indices b') k))
                  (aget ex3_upper (aget (_leaf_indices b') k))) /\
    (forall i, 0 <= i < 3 - 1 ->
       aget (bound_boxes b') i
         = aabb_merge (aget (bound_boxes b') (aget (left_nodes b') i))
                      (aget (bound_boxes b') (aget (right_nodes b') i))).
Proof.
  destruct scene3_rebuild_ok as [b' Hb']. exists b'.
  split; [rewrite Hb'; reflexivity|].
  apply (rebuild_node_boxes scene3_oracle scene3 b'
           (fst (rebuild scene3_oracle scene3))).
  - exact scene3_sized.
  - exact scene3_range.
  - exact scene3_admissible.
  - exact Hb'.
Defined.

Lemma rebuild_completes_witness :
  exists (b' : Bvh Z) log, rebuild scene3_oracle scene3 = (log, Ok b').
Proof.
  apply (rebuild_completes scene3_oracle scene3 [2; 1; 0]).
  - exact scene3_sized.
  - exact scene3_range.
  - exact scene3_admissible.
  - reflexivity.
Defined.

(** The inputs are moved after the build (the arrays the [Bvh] holds are
    the caller's): the same buffers with other bounds. *)
Definition with_bounds {F} `{Scalar F} (b : Bvh F) (lo up : list (vec3 F))
    : Bvh F :=
  MkBvh lo up (bvh_device b) (num_leaves b) (num_internal_nodes b)
    (num_total_nodes b) (_flags b) (_leaf_indices b) (_morton_codes b)
    (bound_boxes b) (parent_nodes b) (left_nodes b) (right_nodes b)
    (escape_indices b) (bvh_nodes b).

Definition scene3_built : Bvh Z :=
  match snd (rebuild scene3_oracle scene3) with
  | Ok b => b
  | _ => scene3
  end.

Definition moved_lower : list (vec3 Z) :=
  [Vec3 10 0 0; Vec3 4 1 (-8); Vec3 (-3) 5 1].
Definition moved_upper : list (vec3 Z) :=
  [Vec3 12 2 3; Vec3 6 2 (-5); Vec3 0 9 2].

Definition scene3_moved : Bvh Z :=
  with_bounds scene3_built moved_lower moved_upper.

Definition scene3_fresh : Bvh Z :=
  Bvh_alloc (MkArray moved_lower scene3_device)
    (MkArray moved_upper scene3_device).

Lemma scene3_fresh_admissible : admissible scene3_oracle scene3_fresh.
Proof. by apply (admissible_ext _ scene3), scene3_admissible. Qed.

Lemma scene3_fresh_sized : Bvh_sized scene3_fresh.
Proof. by apply Bvh_alloc_sized. Qed.

Lemma scene3_refit_ok :
  exists b1 : Bvh Z, refit scene3_oracle scene3_moved =
    (fst (refit scene3_oracle scene3_moved), Ok b1).
Proof. eexists. vm_compute. reflexivity. Qed.

Lemma scene3_fresh_rebuild_ok :
  exists b2 : Bvh Z,
    rebuild scene3_oracle scene3_fresh =
      (fst (rebuild scene3_oracle scene3_fresh), Ok b2) /\
    left_nodes scene3_moved = left_nodes b2 /\
    right_nodes scene3_moved = right_nodes b2 /\
    parent_nodes scene3_moved = parent_nodes b2 /\
    _leaf_indices scene3_moved = _leaf_indices b2.
Proof. eexists. vm_compute. repeat split; reflexivity. Qed.

Lemma refit_matches_rebuild_witness :
  exists b1 b2 : Bvh Z,
    snd (refit scene3_oracle scene3_moved) = Ok b1 /\
    snd (rebuild scene3_oracle scene3_fresh) = Ok b2 /\
    bound_boxes b1 = bound_boxes b2.
Proof.
  destruct scene3_refit_ok as [b1 Hb1].
  destruct scene3_fresh_rebuild_ok as (b2 & Hb2 & Hl & Hr & Hp & Hli).
  exists b1, b2.
  split; [rewrite Hb1; reflexivity|]. split; [rewrite Hb2; reflexivity|].
  apply (refit_matches_rebuild scene3_oracle scene3_oracle scene3_moved
           scene3_fresh b1 b2 (fst (refit scene3_oracle scene3_moved))
           (fst (rebuild scene3_oracle scene3_fresh))).
  - exact scene3_fresh_sized.
  - exact scene3_range.
  - exact scene3_fresh_admissible.
  - exact Hb2.
  - reflexivity.
  - reflexivity.
  - reflexivity.
  - exact Hl.
  - exact Hr.
  - exact Hp.
  - intros k _. rewrite Hli. reflexivity.
  - reflexivity.
  - reflexivity.
  - exact Hb1.
Defined.

(** ** The constructor: the state of a [Bvh] that is handed out *)

Section Constructor.
Context {F : Type} `{Scalar F}.

Lemma refit_kernel_lengths n left right parent (lo up : list (vec3 F)) li tid
    (st : refit_state F) :
  let st' :=
    assign_bounding_boxes_kernel n left right parent lo up li tid st in
  alen (rs_flags st') = alen (rs_flags st) /\
  alen (rs_boxes st') = alen (rs_boxes st).
Proof.
  unfold assign_bounding_boxes_kernel.
  destruct (th_pc (aget (rs_threads st) tid)); cbn;
    rewrite ?alen_aset; try done.
  destruct (negb _); cbn; rewrite ?alen_aset; done.
Qed.

Lemma refit_launch_lengths n left right parent (lo up : list (vec3 F)) li sched
    (st : refit_state F) :
  let st' :=
    launch (assign_bounding_boxes_kernel n left right parent lo up li) sched
      st in
  alen (rs_flags st') = alen (rs_flags st) /\
  alen (rs_boxes st') = alen (rs_boxes st).
Proof.
  induction sched as [|tid sched IH] using rev_ind; [done|].
  cbv zeta in *. rewrite launch_snoc.
  destruct (refit_kernel_lengths n left right parent lo up li tid
              (launch (assign_bounding_boxes_kernel n left right parent lo up
                         li) sched st)) as [-> ->].
  exact IH.
Qed.

(** [refit] changes no size. *)
Lemma refit_sizes (o : oracle) (b b' : Bvh F) (log : list op) :
  refit o b = (log, Ok b') ->
  num_leaves b' = num_leaves b /\
  alen (_flags b') = alen (_flags b) /\
  alen (bound_boxes b') = alen (bound_boxes b).
Proof.
  destruct (Z.eq_dec (num_leaves b) 0) as [Hn|Hn].
  - unfold refit. apply Z.eqb_eq in Hn. rewrite Hn. by intros [= _ <-].
  - intros [_ ->]%refit_Ok_inv; [|done]. cbn.
    destruct (refit_launch_lengths (num_leaves b) (left_nodes b)
                (right_nodes b) (parent_nodes b) (lower_bounds b)
                (upper_bounds b) (_leaf_indices b) (o_sched_refit o)
                (refit_launch_state (num_leaves b) (fill_ (_flags b) 0)
                   (bound_boxes b))) as [-> ->].
    cbn. by rewrite alen_fill.
Qed.

(** The sizes of the object the constructor returns. *)
Lemma Bvh_init_sizes (o : oracle) (lower upper : wp_array (vec3 F))
    (b : Bvh F) (log : list op) :
  Bvh_init o lower upper = (log, Ok b) ->
  num_leaves b = alen (arr_data lower) /\
  alen (_flags b) = Z.max 0 (alen (arr_data lower) - 1) /\
  alen (bound_boxes b) = Z.max 0 (2 * alen (arr_data lower) - 1).
Proof.
  intros (Hlen & _ & log' & _ & Hrun)%Bvh_init_Ok_inv.
  assert (0 <= alen (arr_data lower)) as Hn0 by (unfold alen; lia).
  pose proof (Bvh_alloc_sized lower upper Hlen) as Hsz.
  assert (num_leaves (Bvh_alloc lower upper) = alen (arr_data lower)) as HN
    by done.
  pose proof (sz_flags _ Hsz) as Hfl. pose proof (sz_boxes _ Hsz) as Hbx.
  rewrite (sz_internal _ Hsz), HN in Hfl. rewrite (sz_total _ Hsz), HN in Hbx.
  destruct (Z.eq_dec (alen (arr_data lower)) 0) as [Hn|Hn].
  - revert Hrun. unfold rebuild. rewrite HN.
    apply Z.eqb_eq in Hn. rewrite Hn. by intros [= _ <-].
  - destruct (rebuild_Ok_inv o _ b log' ltac:(rewrite HN; lia) Hrun)
      as (topo & esc & log'' & _ & _ & Hrefit).
    apply refit_sizes in Hrefit as (-> & -> & ->). done.
Qed.

(** C5.  When the constructor returns for [N >= 1] leaves, the box of the
    root, node [0], is the merge of all the input boxes: its lower corner
    is the component-wise minimum of the input lower bounds, its upper
    corner the component-wise maximum of the input upper bounds (for a
    single leaf, the box of that leaf). *)
Theorem Bvh_init_root_box (o : oracle)
    (lower_arr upper_arr : wp_array (vec3 F)) (b : Bvh F) (log : list op) :
  1 <= alen (arr_data lower_arr) ->
  admissible o (Bvh_alloc lower_arr upper_arr) ->
  Bvh_init o lower_arr upper_arr = (log, Ok b) ->
  fold1 aabb_merge (zip_with MkAabb (arr_data lower_arr) (arr_data upper_arr))
    = Some (aget (bound_boxes b) 0) /\
  fold1 vmin (arr_data lower_arr) = Some (lower (aget (bound_boxes b) 0)) /\
  fold1 vmax (arr_data upper_arr) = Some (upper (aget (bound_boxes b) 0)).
Proof.
  intros Hn Hadm (Hlen & Hmax & log' & _ & Hrun)%Bvh_init_Ok_inv.
  pose proof (Bvh_alloc_sized lower_arr upper_arr Hlen) as Hsz.
  assert (1 <= num_leaves (Bvh_alloc lower_arr upper_arr) <= 2 ^ 30)
    as Hrange by (cbn; lia).
  destruct (rebuild_result o _ b log' Hsz Hrange Hadm Hrun)
    as (Hvalid & _ & _ & _ & Hli & _ & _ & Hboxes & _).
  destruct (admissible_sorted o _ Hsz ltac:(lia) Hadm) as (Hperm & _).
  assert (fold1 aabb_merge
            (zip_with MkAabb (arr_data lower_arr) (arr_data upper_arr))
          = Some (aget (bound_boxes b) 0)) as Hroot.
  { rewrite <- (vt_root _ _ _ _ _ Hvalid).
    rewrite (Hboxes _ (subtrees_self _)).
    apply (tree_box_root _ _ _ _ _ _ _ _ Hvalid); [apply Hsz..|done]. }
  split; [done|]. apply fold1_aabb_merge; [|done].
  unfold alen in *. lia.
Qed.

End Constructor.

Section RefitAfterBuild.
Context {F : Type} `{Scalar F}.

(** C7.  A [Bvh] is built, the caller then overwrites the input arrays the
    object holds, keeping their length, and calls [refit].  If a fresh
    build on the new inputs ends with the parent, left and right links
    and the leaf permutation the object already has, then the boxes
    [refit] leaves are, at every node, the boxes of that fresh build. *)
Theorem refit_after_build_matches_fresh_build
    (o o1 o2 : oracle) (lower upper lower' upper' : wp_array (vec3 F))
    (b b1 b2 : Bvh F) (log log1 log2 : list op) :
  Bvh_init o lower upper = (log, Ok b) ->
  alen (arr_data lower') = alen (arr_data lower) ->
  refit o1 (with_bounds b (arr_data lower') (arr_data upper'))
    = (log1, Ok b1) ->
  admissible o2 (Bvh_alloc lower' upper') ->
  Bvh_init o2 lower' upper' = (log2, Ok b2) ->
  left_nodes b2 = left_nodes b -> right_nodes b2 = right_nodes b ->
  parent_nodes b2 = parent_nodes b ->
  (forall k, 0 <= k < alen (arr_data lower) ->
     aget (_leaf_indices b2) k = aget (_leaf_indices b) k) ->
  bound_boxes b1 = bound_boxes b2.
Proof.
  intros Hinit HN Hrefit Hadm Hinit2 Hleft Hright Hparent Hli.
  destruct (Bvh_init_sizes _ _ _ _ _ Hinit) as (Hnb & Hflb & Hbxb).
  destruct (Bvh_init_sizes _ _ _ _ _ Hinit2) as (Hnb2 & _ & Hbxb2).
  assert (0 <= alen (arr_data lower)) as Hn0 by (unfold alen; lia).
  set (bm := with_bounds b (arr_data lower') (arr_data upper')) in *.
  destruct (Z.eq_dec (alen (arr_data lower)) 0) as [Hz|Hnz].
  - apply refit_sizes in Hrefit as (_ & _ & Hbx1). cbn in Hbx1.
    rewrite Hbxb, Hz in Hbx1. rewrite HN, Hz in Hbxb2.
    unfold alen in Hbx1, Hbxb2.
    destruct (bound_boxes b1), (bound_boxes b2); simpl in *; (done || lia).
  - apply Bvh_init_Ok_inv in Hinit2 as (Hlen2 & Hmax2 & log' & _ & Hrun2).
    pose proof (Bvh_alloc_sized lower' upper' Hlen2) as Hsz.
    assert (1 <= num_leaves (Bvh_alloc lower' upper') <= 2 ^ 30) as Hrange
      by (cbn; lia).
    destruct (rebuild_result o2 _ b2 log' Hsz Hrange Hadm Hrun2)
      as (Hvalid2 & _ & _ & _ & Hli2 & _ & Hlen2' & Hboxes2 & _).
    cbn [num_leaves lower_bounds upper_bounds Bvh_alloc] in Hvalid2, Hboxes2,
      Hlen2'.
    set (t := built_tree o2 (alen (arr_data lower'))) in *.
    assert (valid_topology (num_leaves bm) (left_nodes bm) (right_nodes bm)
              (parent_nodes bm) t) as Hvalid.
    { cbn. by rewrite Hnb, <- HN, <- Hleft, <- Hright, <- Hparent. }
    destruct (refit_boxes o1 bm b1 log1 t Hvalid) as [Hlen1 Hboxes1];
      [cbn; lia | cbn; lia | done |].
    cbn [num_leaves lower_bounds upper_bounds _leaf_indices bm with_bounds]
      in Hlen1, Hboxes1.
    rewrite Hnb, <- HN in Hlen1, Hboxes1.
    apply list_eq_aget; [rewrite Hlen1, Hlen2'; lia|].
    intros i Hi. rewrite Hlen1 in Hi.
    destruct (preorder_subtree t i) as (s & Hs & <-).
    { apply (valid_node_range _ _ _ _ _ Hvalid2). lia. }
    rewrite (Hboxes1 _ Hs), (Hboxes2 _ Hs), <- Hli2.
    symmetry. apply (tree_box_ext _ _ _ _ _ (left_nodes b2) (right_nodes b2)).
    + apply (subtrees_links _ _ _ _ _ (vt_links _ _ _ _ _ Hvalid2) Hs).
    + intros v Hv. apply Hli.
      pose proof (subtrees_fringe _ _ _ Hs Hv) as Hv'.
      rewrite (valid_fringe _ _ _ _ _ Hvalid2) in Hv'.
      apply elem_of_seqZ in Hv'. lia.
Qed.

End RefitAfterBuild.

(** *** The scene of three leaves, through the constructor *)

Definition scene3_lower : wp_array (vec3 Z) := MkArray ex3_lower scene3_device.
Definition scene3_upper : wp_array (vec3 Z) := MkArray ex3_upper scene3_device.

Lemma scene3_init_ok :
  Bvh_init scene3_oracle scene3_lower scene3_upper
    = (fst (Bvh_init scene3_oracle scene3_lower scene3_upper), Ok scene3_built).
Proof. vm_compute. reflexivity. Qed.

Lemma scene3_leaves : 1 <= alen (arr_data scene3_lower).
Proof. by vm_compute. Qed.

Lemma Bvh_init_root_box_witness :
  fold1 aabb_merge (zip_with MkAabb ex3_lower ex3_upper)
    = Some (aget (bound_boxes scene3_built) 0) /\
  fold1 vmin ex3_lower = Some (lower (aget (bound_boxes scene3_built) 0)) /\
  fold1 vmax ex3_upper = Some (upper (aget (bound_boxes scene3_built) 0)).
Proof.
  apply (Bvh_init_root_box scene3_oracle scene3_lower scene3_upper
           scene3_built
           (fst (Bvh_init scene3_oracle scene3_lower scene3_upper))).
  - exact scene3_leaves.
  - exact scene3_admissible.
  - exact scene3_init_ok.
Defined.

Definition scene3_moved_lower : wp_array (vec3 Z) :=
  MkArray moved_lower scene3_device.
Definition scene3_moved_upper : wp_array (vec3 Z) :=
  MkArray moved_upper scene3_device.

Lemma scene3_fresh_init_ok :
  exists b2 : Bvh Z,
    Bvh_init scene3_oracle scene3_moved_lower scene3_moved_upper =
      (fst (Bvh_init scene3_oracle scene3_moved_lower scene3_moved_upper),
       Ok b2) /\
    left_nodes b2 = left_nodes scene3_built /\
    right_nodes b2 = right_nodes scene3_built /\
    parent_nodes b2 = parent_nodes scene3_built /\
    _leaf_indices b2 = _leaf_indices scene3_built.
Proof. eexists. vm_compute. repeat split; reflexivity. Qed.

Lemma refit_after_build_matches_fresh_build_witness :
  exists b1 b2 : Bvh Z,
    snd (refit scene3_oracle
           (with_bounds scene3_built moved_lower moved_upper)) = Ok b1 /\
    snd (Bvh_init scene3_oracle scene3_moved_lower scene3_moved_upper)
      = Ok b2 /\
    bound_boxes b1 = bound_boxes b2.
Proof.
  destruct scene3_refit_ok as [b1 Hb1].
  destruct scene3_fresh_init_ok as (b2 & Hb2 & Hl & Hr & Hp & Hli).
  exists b1, b2.
  split; [exact (f_equal snd Hb1)|]. split; [exact (f_equal snd Hb2)|].
  apply (refit_after_build_matches_fresh_build scene3_oracle scene3_oracle
           scene3_oracle scene3_lower scene3_upper scene3_moved_lower
           scene3_moved_upper scene3_built b1 b2
           (fst (Bvh_init scene3_oracle scene3_lower scene3_upper))
           (fst (refit scene3_oracle scene3_moved))
           (fst (Bvh_init scene3_oracle scene3_moved_lower
                   scene3_moved_upper))).
  - exact scene3_init_ok.
  - reflexivity.
  - exact Hb1.
  - exact scene3_fresh_admissible.
  - exact Hb2.
  - exact Hl.
  - exact Hr.
  - exact Hp.
  - intros k _. rewrite Hli. reflexivity.
Defined.

(** *** Calls the argument checks let through *)

(** Two arrays of [2^30] boxes on the same CUDA device. *)
Definition huge_bounds : wp_array (vec3 Z) :=
  MkArray (replicate (Z.to_nat (2 ^ 30)) (Vec3 0 0 0)) scene3_device.

Definition huge_oracle : oracle := MkOracle 0 true [] [] ([], []) [] [] [] [].

Lemma huge_bounds_len : alen (arr_data huge_bounds) = 2 ^ 30.
Proof.
  unfold huge_bounds, alen. cbn [arr_data]. rewrite length_replicate.
  apply Z2Nat.id. lia.
Qed.

(** C8 fails on the code: the two arrays have the same length and are on
    the same CUDA device, and the constructor raises [ValueError] all the
    same, after it has allocated two buffers. *)
Lemma Bvh_init_shape_counterexample :
  alen (arr_data huge_bounds) = alen (arr_data huge_bounds) /\
  arr_device huge_bounds = arr_device huge_bounds /\
  is_cuda (arr_device huge_bounds) = true /\
  exists msg,
    Bvh_init huge_oracle huge_bounds huge_bounds
      = ([OpAlloc "_flags" (2 ^ 30 - 1); OpAlloc "_scene_lower_upper" 2],
         Raise (ValueError msg)).
Proof.
  split; [reflexivity|]. split; [reflexivity|]. split; [reflexivity|].
  rewrite (Bvh_init_valid huge_oracle huge_bounds huge_bounds eq_refl eq_refl
             eq_refl eq_refl).
  rewrite huge_bounds_len.
  destruct (wp_zeros_all_refused (2 ^ 30) ltac:(lia)) as [msg ->].
  exists msg. reflexivity.
Qed.




(** ** The radix tree over the sorted order

    What [determine_range] and [find_split] return, and how the tree the
    construction kernel links lies over the sorted leaves. *)

Section KarrasOrder.
Variables (n : Z) (codes : list Z).
Hypothesis Hn : 2 <= n <= 2 ^ 30.
Hypothesis Hrange : forall a, 0 <= a < n -> 0 <= aget codes a < 2 ^ 31.
Hypothesis Hsorted :
  forall a b, 0 <= a <= b -> b < n -> aget codes a <= aget codes b.
(** All pairs inside an interval share at least the prefix of its ends. *)
Lemma dd_inside f l a b :
  0 <= f -> f <= a -> a < b -> b <= l -> l < n ->
  dd n codes f l <= dd n codes a b.
Proof.
  intros Hf Hfa Hab Hbl Hl.
  assert (dd n codes f l <= dd n codes a l) as H1.
  { destruct (decide (f = a)) as [->|Hne]; [lia|].
    pose proof (dd_min n codes Hn Hrange Hsorted f a l). lia. }
  destruct (decide (b = l)) as [->|Hne]; [done|].
  pose proof (dd_min n codes Hn Hrange Hsorted a b l). lia.
Qed.

Variable fuel : nat.
Hypothesis Hfuel : (Z.to_nat n <= fuel)%nat.

(** The leaves below the node of a range are the leaves of the range, in
    order. *)
Lemma karras_fringe k i f l :
  (Z.to_nat (l - f) <= k)%nat ->
  is_range n codes f l -> i = f \/ i = l -> i < n - 1 ->
  determine_range fuel codes i n = Some (f, l) ->
  fringe (karras_tree n codes fuel k i) = seqZ (f + (n - 1)) (l - f + 1).
Proof.
  revert i f l. induction k as [|k IH]; intros i f l Hk Hr Hi Hin Hdr.
  { destruct Hr as (? & ? & ?). lia. }
  pose proof Hr as (Hf & Hfl & Hl & _).
  destruct (split_range n codes Hn Hrange Hsorted fuel Hfuel f l Hr)
    as (s & Hsplit & Hs & Hleft & Hright).
  simpl. rewrite Hdr, Hsplit. simpl.
  replace (l - f + 1) with ((s - f + 1) + (l - s)) by lia.
  rewrite seqZ_app by lia. f_equal.
  - destruct (Z.eqb_spec f s) as [->|Hne].
    + simpl. by replace (s - s + 1) with 1 by lia.
    + destruct Hleft as [Hrs Hds]; [lia|].
      apply (IH s f s); try done; try lia; auto.
  - replace (f + (n - 1) + (s - f + 1)) with (s + 1 + (n - 1)) by lia.
    destruct (Z.eqb_spec l (s + 1)) as [->|Hne].
    + simpl. by replace (s + 1 - s) with 1 by lia.
    + destruct Hright as [Hrs Hds]; [lia|].
      replace (l - s) with (l - (s + 1) + 1) by lia.
      apply (IH (s + 1) (s + 1) l); try done; try lia; auto.
Qed.

Lemma karras_cover k i f l :
  (Z.to_nat (l - f) <= k)%nat ->
  is_range n codes f l -> i = f \/ i = l -> i < n - 1 ->
  determine_range fuel codes i n = Some (f, l) ->
  forall s, s ∈ subtrees (karras_tree n codes fuel k i) -> label s < n - 1 ->
    exists f' l',
      determine_range fuel codes (label s) n = Some (f', l') /\
      is_range n codes f' l' /\ (label s = f' \/ label s = l') /\
      fringe s = seqZ (f' + (n - 1)) (l' - f' + 1).
Proof.
  revert i f l. induction k as [|k IH]; intros i f l Hk Hr Hi Hin Hdr.
  { destruct Hr as (? & ? & ?). lia. }
  intros s Hs Hlt.
  pose proof (karras_fringe (S k) i f l Hk Hr Hi Hin Hdr) as Hfr.
  pose proof Hr as (Hf & Hfl & Hl & _).
  destruct (split_range n codes Hn Hrange Hsorted fuel Hfuel f l Hr)
    as (sp & Hsplit & Hsp & Hleft & Hright).
  simpl in Hs, Hfr. rewrite Hdr, Hsplit in Hs, Hfr. simpl in Hs.
  apply elem_of_cons in Hs as [-> | Hs].
  { exists f, l. cbn [label]. split; [done|]. split; [done|].
    split; [done|]. exact Hfr. }
  apply elem_of_app in Hs as [Hs|Hs].
  - destruct (Z.eqb_spec f sp) as [->|Hne].
    + apply list_elem_of_singleton in Hs as ->. simpl in Hlt. lia.
    + destruct Hleft as [Hrs Hds]; [lia|].
      apply (IH sp f sp); try done; try lia; auto.
  - destruct (Z.eqb_spec l (sp + 1)) as [->|Hne].
    + apply list_elem_of_singleton in Hs as ->. simpl in Hlt. lia.
    + destruct Hright as [Hrs Hds]; [lia|].
      apply (IH (sp + 1) (sp + 1) l); try done; try lia; auto.
Qed.

Lemma karras_root_cover s :
  s ∈ subtrees (karras_root n codes fuel) -> label s < n - 1 ->
  exists f l,
    determine_range fuel codes (label s) n = Some (f, l) /\
    is_range n codes f l /\ (label s = f \/ label s = l) /\
    fringe s = seqZ (f + (n - 1)) (l - f + 1).
Proof.
  destruct (root_range n codes Hn Hrange Hsorted fuel Hfuel) as [Hr Hdr].
  apply (karras_cover (Z.to_nat n) 0 0 (n - 1)); try done; try lia; auto.
Qed.

End KarrasOrder.

(** The common-prefix length [delta] of sorted keys is an ultrametric on
    the sorted positions: between [a < b < c] the prefix of the outer pair
    is the shorter of the two inner ones, and the two inner ones differ.
    This holds with repeated keys too, where [common_prefix] falls back
    to the positions. *)
Theorem delta_min_law (n : Z) (codes : list Z) (a b c : Z) :
  2 <= n <= 2 ^ 30 ->
  (forall a, 0 <= a < n -> 0 <= aget codes a < 2 ^ 31) ->
  (forall a b, 0 <= a <= b -> b < n -> aget codes a <= aget codes b) ->
  0 <= a -> a < b -> b < c -> c < n ->
  delta (aget codes a) codes a c n
    = Z.min (delta (aget codes a) codes a b n)
            (delta (aget codes b) codes b c n) /\
  delta (aget codes a) codes a b n <> delta (aget codes b) codes b c n.
Proof.
  intros Hn Hrange Hsorted Ha Hab Hbc Hc. split.
  - by apply (dd_min n codes Hn Hrange Hsorted).
  - by apply (dd_neq n codes Hn Hrange Hsorted).
Qed.

(** [find_split] returns, the split position is the last one of the range
    that shares more with [first] than [last] does; every position after
    it shares exactly the prefix of the whole range. *)
Theorem find_split_correct (fuel : nat) (n : Z) (codes : list Z)
    (first last : Z) :
  2 <= n <= 2 ^ 30 ->
  (forall a, 0 <= a < n -> 0 <= aget codes a < 2 ^ 31) ->
  (forall a b, 0 <= a <= b -> b < n -> aget codes a <= aget codes b) ->
  (Z.to_nat n <= fuel)%nat ->
  0 <= first -> first < last -> last < n ->
  exists split,
    find_split fuel codes first last = Some split /\
    first <= split < last /\
    (forall x, first < x -> x <= split ->
       dd n codes first last < dd n codes first x) /\
    (forall x, split < x -> x <= last ->
       dd n codes first x = dd n codes first last).
Proof.
  intros Hn Hrange Hsorted Hfuel Hf Hfl Hl.
  destruct (find_split_spec n codes Hn Hrange Hsorted fuel Hfuel first last
              Hf Hfl Hl) as (s & Hrun & Hs & Hgt & Hle).
  exists s. split; [done|]. split; [done|]. split.
  - intros x Hx Hxs. destruct Hgt as [->|Hgt]; [lia|].
    pose proof (dd_anti n codes Hn Hrange Hsorted fuel Hfuel first 1
                  (x - first) (s - first)) as Hanti.
    replace (first + (s - first) * 1) with s in Hanti by lia.
    replace (first + (x - first) * 1) with x in Hanti by lia.
    specialize (Hanti ltac:(by left) ltac:(lia) ltac:(lia) ltac:(lia)). lia.
  - intros x Hx Hxl. destruct (decide (x = last)) as [->|Hne]; [done|].
    pose proof (Hle x Hx ltac:(lia)).
    pose proof (dd_inside n codes Hn Hrange Hsorted first last first x). lia.
Qed.

(** [determine_range] returns for every internal node [i]: an interval
    [first, last] of at least two sorted positions with [i] at one end,
    whose keys pairwise share at least the prefix of its ends, which is
    longer than what either end shares with its neighbour outside. *)
Theorem determine_range_correct (fuel : nat) (n : Z) (codes : list Z)
    (i : Z) :
  2 <= n <= 2 ^ 30 ->
  (forall a, 0 <= a < n -> 0 <= aget codes a < 2 ^ 31) ->
  (forall a b, 0 <= a <= b -> b < n -> aget codes a <= aget codes b) ->
  (Z.to_nat n <= fuel)%nat ->
  0 <= i < n - 1 ->
  exists first last,
    determine_range fuel codes i n = Some (first, last) /\
    0 <= first /\ first < last /\ last < n /\
    (i = first \/ i = last) /\
    (forall a b, first <= a -> a < b -> b <= last ->
       dd n codes first last <= dd n codes a b) /\
    dd n codes first (first - 1) < dd n codes first last /\
    dd n codes last (last + 1) < dd n codes first last.
Proof.
  intros Hn Hrange Hsorted Hfuel Hi.
  destruct (karras_root_spec n codes Hn Hrange Hsorted fuel Hfuel)
    as (_ & _ & Hperm).
  destruct (preorder_subtree (karras_root n codes fuel) i) as (s & Hs & Hl).
  { rewrite Hperm. apply elem_of_seqZ. lia. }
  destruct (karras_root_cover n codes Hn Hrange Hsorted fuel Hfuel s Hs)
    as (f & l & Hdr & Hr & Hends & _); [lia|].
  rewrite Hl in Hdr, Hends. destruct Hr as (Hf & Hfl & Hln & Hout1 & Hout2).
  exists f, l. repeat split; try done.
  intros a b Ha Hab Hb.
  by apply (dd_inside n codes Hn Hrange Hsorted).
Qed.

(** The tree the construction kernel links lies over the sorted order:
    read from left to right its leaves are the leaf nodes [N-1 .. 2N-2] in
    increasing order, and the leaves below internal node [i] are those of
    the interval [determine_range] returns for [i]. *)
Theorem construct_leaf_order (fuel : nat) (n : Z) (codes : list Z)
    (order : list Z) (left0 right0 parent0 : list Z) :
  2 <= n <= 2 ^ 30 ->
  (forall a, 0 <= a < n -> 0 <= aget codes a < 2 ^ 31) ->
  (forall a b, 0 <= a <= b -> b < n -> aget codes a <= aget codes b) ->
  (Z.to_nat n <= fuel)%nat ->
  launch_order (n - 1) order ->
  alen left0 = n - 1 -> alen right0 = n - 1 -> alen parent0 = 2 * n - 1 ->
  exists topo t,
    launchM (construct_binary_radix_tree_kernel fuel n codes) order
      (MkTopology left0 right0 parent0) = Some topo /\
    valid_topology n (top_left topo) (top_right topo) (top_parent topo) t /\
    fringe t = seqZ (n - 1) n /\
    forall s, s ∈ subtrees t -> label s < n - 1 ->
      exists first last,
        determine_range fuel codes (label s) n = Some (first, last) /\
        fringe s = seqZ (first + (n - 1)) (last - first + 1).
Proof.
  intros Hn Hrange Hsorted Hfuel Hord Hl0 Hr0 Hp0.
  destruct (construct_valid n codes Hn Hrange Hsorted fuel Hfuel order
              left0 right0 parent0 Hord Hl0 Hr0 Hp0) as (topo & Hrun & Hvalid).
  exists topo, (karras_root n codes fuel).
  split; [done|]. split; [done|]. split.
  - destruct (karras_root_cover n codes Hn Hrange Hsorted fuel Hfuel
                (karras_root n codes fuel) (subtrees_self _))
      as (f & l & Hdr & _ & _ & Hfr).
    { rewrite (vt_root _ _ _ _ _ Hvalid). lia. }
    rewrite (vt_root _ _ _ _ _ Hvalid) in Hdr.
    destruct (root_range n codes Hn Hrange Hsorted fuel Hfuel) as [_ Hdr0].
    rewrite Hdr0 in Hdr. injection Hdr as <- <-. rewrite Hfr.
    f_equal; lia.
  - intros s Hs Hlt.
    destruct (karras_root_cover n codes Hn Hrange Hsorted fuel Hfuel s Hs Hlt)
      as (f & l & Hdr & _ & _ & Hfr).
    by exists f, l.
Qed.


Lemma adjacent_sorted (codes : list Z) (n : Z) :
  (forall a, 0 <= a -> a + 1 < n -> aget codes a <= aget codes (a + 1)) ->
  forall a b, 0 <= a <= b -> b < n -> aget codes a <= aget codes b.
Proof.
  intros Hadj a b Hab Hb.
  assert (forall k : nat, a + Z.of_nat k < n ->
            aget codes a <= aget codes (a + Z.of_nat k)) as Hk.
  { induction k as [|k IH]; intros Hlt.
    - replace (a + Z.of_nat 0) with a by lia. lia.
    - specialize (IH ltac:(lia)).
      pose proof (Hadj (a + Z.of_nat k) ltac:(lia) ltac:(lia)) as Hstep.
      replace (a + Z.of_nat (S k)) with (a + Z.of_nat k + 1) by lia. lia. }
  specialize (Hk (Z.to_nat (b - a))).
  replace (a + Z.of_nat (Z.to_nat (b - a))) with b in Hk by lia.
  apply Hk. lia.
Qed.

(** Six sorted keys, three of them equal. *)
Definition keys6 : list Z := [3; 5; 5; 5; 12; 13].

Lemma keys6_range a : 0 <= a < 6 -> 0 <= aget keys6 a < 2 ^ 31.
Proof.
  intros Ha.
  assert (a = 0 \/ a = 1 \/ a = 2 \/ a = 3 \/ a = 4 \/ a = 5) as Hcases by lia.
  repeat (destruct Hcases as [-> | Hcases]; [by vm_compute|]).
  subst. by vm_compute.
Qed.

Lemma keys6_sorted a b :
  0 <= a <= b -> b < 6 -> aget keys6 a <= aget keys6 b.
Proof.
  apply adjacent_sorted. clear a b. intros a Ha Hlt.
  assert (a = 0 \/ a = 1 \/ a = 2 \/ a = 3 \/ a = 4) as Hcases by lia.
  repeat (destruct Hcases as [-> | Hcases]; [by vm_compute|]).
  subst. by vm_compute.
Qed.

Lemma keys6_order : launch_order (6 - 1) [4; 0; 2; 1; 3].
Proof.
  unfold launch_order. change (seqZ 0 (6 - 1)) with [0; 1; 2; 3; 4].
  apply (bool_decide_unpack _). by vm_compute.
Qed.

Lemma delta_min_law_witness :
  delta (aget keys6 1) keys6 1 4 6
    = Z.min (delta (aget keys6 1) keys6 1 2 6)
            (delta (aget keys6 2) keys6 2 4 6) /\
  delta (aget keys6 1) keys6 1 2 6 <> delta (aget keys6 2) keys6 2 4 6.
Proof.
  apply (delta_min_law 6 keys6 1 2 4).
  - lia.
  - exact keys6_range.
  - exact keys6_sorted.
  - lia.
  - lia.
  - lia.
  - lia.
Defined.

Lemma find_split_correct_witness :
  exists split,
    find_split 6 keys6 0 5 = Some split /\
    0 <= split < 5 /\
    (forall x, 0 < x -> x <= split -> dd 6 keys6 0 5 < dd 6 keys6 0 x) /\
    (forall x, split < x -> x <= 5 -> dd 6 keys6 0 x = dd 6 keys6 0 5).
Proof.
  apply (find_split_correct 6 6 keys6 0 5).
  - lia.
  - exact keys6_range.
  - exact keys6_sorted.
  - vm_compute. lia.
  - lia.
  - lia.
  - lia.
Defined.

Lemma determine_range_correct_witness :
  exists first last,
    determine_range 6 keys6 2 6 = Some (first, last) /\
    0 <= first /\ first < last /\ last < 6 /\
    (2 = first \/ 2 = last) /\
    (forall a b, first <= a -> a < b -> b <= last ->
       dd 6 keys6 first last <= dd 6 keys6 a b) /\
    dd 6 keys6 first (first - 1) < dd 6 keys6 first last /\
    dd 6 keys6 last (last + 1) < dd 6 keys6 first last.
Proof.
  apply (determine_range_correct 6 6 keys6 2).
  - lia.
  - exact keys6_range.
  - exact keys6_sorted.
  - vm_compute. lia.
  - lia.
Defined.

Lemma construct_leaf_order_witness :
  exists topo t,
    launchM (construct_binary_radix_tree_kernel 6 6 keys6) [4; 0; 2; 1; 3]
      (MkTopology (zeros 0 5) (zeros 0 5) (zeros 0 11)) = Some topo /\
    valid_topology 6 (top_left topo) (top_right topo) (top_parent topo) t /\
    fringe t = seqZ (6 - 1) 6 /\
    forall s, s ∈ subtrees t -> label s < 6 - 1 ->
      exists first last,
        determine_range 6 keys6 (label s) 6 = Some (first, last) /\
        fringe s = seqZ (first + (6 - 1)) (last - first + 1).
Proof.
  apply (construct_leaf_order 6 6 keys6 [4; 0; 2; 1; 3]
           (zeros 0 5) (zeros 0 5) (zeros 0 11)).
  - lia.
  - exact keys6_range.
  - exact keys6_sorted.
  - vm_compute. lia.
  - exact keys6_order.
  - reflexivity.
  - reflexivity.
  - reflexivity.
Defined.


(** ** [kernels.py]: the topology checker *)

(** What [verify_binary_radix_tree_kernel] prints, one constructor per
    format string, with the two integers it is given. *)
Inductive diagnostic :=
  | InvalidLeftChild (node child : Z)
  | InvalidRightChild (node child : Z)
  | WrongParent (node parent : Z)
  | InvalidParent (node parent : Z)
  | NotAcknowledged (node parent : Z).

Definition verify_binary_radix_tree_kernel (num_leaves : Z)
    (left_nodes right_nodes parent_nodes : list Z) (tid : Z)
    : list diagnostic :=
  let num_internal_nodes := num_leaves - 1 in
  let num_total_nodes := 2 * num_leaves - 1 in
  (if tid <? num_internal_nodes then
     let left := aget left_nodes tid in
     let right := aget right_nodes tid in
     (if negb ((0 <? left) && (left <? num_total_nodes))
      then [InvalidLeftChild tid left]
      else if negb (aget parent_nodes left =? tid)
      then [WrongParent tid (aget parent_nodes left)]
      else [])
     ++
     (if negb ((0 <? right) && (right <? num_total_nodes))
      then [InvalidRightChild tid right]
      else if negb (aget parent_nodes right =? tid)
      then [WrongParent tid (aget parent_nodes right)]
      else [])
   else [])
  ++
  let parent := aget parent_nodes tid in
  if negb ((-1 <=? parent) && (parent <? num_internal_nodes))
  then [InvalidParent tid parent]
  else if (tid =? 0) && negb (parent =? -1)
  then [InvalidParent tid parent]
  else if negb (tid =? 0) && (parent =? -1)
  then [InvalidParent tid parent]
  else if negb (parent =? -1) then
    if negb (aget left_nodes parent =? tid)
       && negb (aget right_nodes parent =? tid)
    then [NotAcknowledged tid parent]
    else []
  else [].

(** What one thread checks. *)
Definition node_consistent (n : Z) (left right parent : list Z) (v : Z)
    : Prop :=
  (v < n - 1 ->
     0 < aget left v < 2 * n - 1 /\ aget parent (aget left v) = v /\
     0 < aget right v < 2 * n - 1 /\ aget parent (aget right v) = v) /\
  -1 <= aget parent v < n - 1 /\
  (v = 0 <-> aget parent v = -1) /\
  (aget parent v <> -1 ->
     aget left (aget parent v) = v \/ aget right (aget parent v) = v).

Lemma verify_thread_silent n left right parent tid :
  verify_binary_radix_tree_kernel n left right parent tid = []
  <-> node_consistent n left right parent tid.
Proof.
  unfold verify_binary_radix_tree_kernel, node_consistent. cbv zeta.
  rewrite app_nil. 
  assert ((if tid <? n - 1
           then
            (if negb ((0 <? aget left tid) && (aget left tid <? 2 * n - 1))
             then [InvalidLeftChild tid (aget left tid)]
             else if negb (aget parent (aget left tid) =? tid)
                  then [WrongParent tid (aget parent (aget left tid))]
                  else [])
            ++
            (if negb ((0 <? aget right tid) && (aget right tid <? 2 * n - 1))
             then [InvalidRightChild tid (aget right tid)]
             else if negb (aget parent (aget right tid) =? tid)
                  then [WrongParent tid (aget parent (aget right tid))]
                  else [])
           else []) = [] <->
          (tid < n - 1 ->
             0 < aget left tid < 2 * n - 1 /\
             aget parent (aget left tid) = tid /\
             0 < aget right tid < 2 * n - 1 /\
             aget parent (aget right tid) = tid)) as ->.
  { destruct (Z.ltb_spec tid (n - 1)); [|split; [lia|done]].
    rewrite app_nil.
    destruct (Z.ltb_spec 0 (aget left tid)),
             (Z.ltb_spec (aget left tid) (2 * n - 1)),
             (Z.eqb_spec (aget parent (aget left tid)) tid),
             (Z.ltb_spec 0 (aget right tid)),
             (Z.ltb_spec (aget right tid) (2 * n - 1)),
             (Z.eqb_spec (aget parent (aget right tid)) tid);
      simpl; split; try done; try lia; intros [? ?]; done. }
  apply and_iff_compat_l.
  destruct (Z.leb_spec (-1) (aget parent tid)),
           (Z.ltb_spec (aget parent tid) (n - 1)),
           (Z.eqb_spec tid 0),
           (Z.eqb_spec (aget parent tid) (-1)),
           (Z.eqb_spec (aget left (aget parent tid)) tid),
           (Z.eqb_spec (aget right (aget parent tid)) tid);
    simpl; split; try done; try lia; try tauto;
    intros (? & ? & ?); try lia; try tauto.
Qed.


Lemma valid_consistent n left right parent t v :
  valid_topology n left right parent t -> 0 <= v < 2 * n - 1 ->
  node_consistent n left right parent v.
Proof.
  intros Hvalid Hv.
  destruct (valid_topology_parent_child _ _ _ _ _ Hvalid)
    as (Hroot & Hpar & Hchild).
  assert (forall i, 0 <= i < n - 1 ->
            0 <= aget left i < 2 * n - 1 /\ 0 <= aget right i < 2 * n - 1)
    as Hrange.
  { intros i Hi.
    destruct (valid_internal _ _ _ _ _ Hvalid i Hi) as (l & r & Hs & -> & ->).
    destruct (subtrees_children _ _ _ _ Hs) as [Hl Hr].
    split; apply (valid_node_range _ _ _ _ _ Hvalid); by apply subtrees_label. }
  unfold node_consistent. split; [|split; [|split]].
  - intros Hi. destruct (Hchild v ltac:(lia)) as [Hl Hr].
    destruct (Hrange v ltac:(lia)) as [Hlr Hrr].
    assert (aget left v <> 0) by (intros H0; rewrite H0 in Hl; lia).
    assert (aget right v <> 0) by (intros H0; rewrite H0 in Hr; lia).
    repeat split; (done || lia).
  - destruct (decide (v = 0)) as [->|Hne]; [lia|].
    destruct (Hpar v ltac:(lia)) as [? _]. lia.
  - split; [by intros ->|]. intros Hm1.
    destruct (decide (v = 0)) as [|Hne]; [done|].
    destruct (Hpar v ltac:(lia)) as [? _]. lia.
  - intros Hne. destruct (decide (v = 0)) as [->|Hv0]; [done|].
    destruct (Hpar v ltac:(lia)) as [_ [?|?]]; auto.
Qed.

(** The checker prints nothing, on any thread, exactly when the children
    of every internal node are nodes other than the root whose parent
    entry points back, the root has parent [-1], and every other node has
    an internal node as parent that lists it as a child. *)
Theorem verify_silent_iff (n : Z) (left right parent : list Z) :
  (forall tid, 0 <= tid < 2 * n - 1 ->
     verify_binary_radix_tree_kernel n left right parent tid = [])
  <->
  (forall i, 0 <= i < n - 1 ->
     0 < aget left i < 2 * n - 1 /\ aget parent (aget left i) = i /\
     0 < aget right i < 2 * n - 1 /\ aget parent (aget right i) = i) /\
  (1 <= n -> aget parent 0 = -1) /\
  (forall v, 1 <= v < 2 * n - 1 ->
     0 <= aget parent v < n - 1 /\
     (aget left (aget parent v) = v \/ aget right (aget parent v) = v)).
Proof.
  split.
  - intros Hall.
    assert (forall v, 0 <= v < 2 * n - 1 ->
              node_consistent n left right parent v) as Hcons.
    { intros v Hv. apply verify_thread_silent. by apply Hall. }
    split; [|split].
    + intros i Hi. destruct (Hcons i ltac:(lia)) as [Hc _]. apply Hc. lia.
    + intros Hn. destruct (Hcons 0 ltac:(lia)) as (_ & _ & Hroot & _).
      by apply Hroot.
    + intros v Hv. destruct (Hcons v ltac:(lia)) as (_ & Hr & Hroot & Hack).
      assert (aget parent v <> -1) as Hne by (intros Hm; apply Hroot in Hm; lia).
      split; [lia|]. by apply Hack.
  - intros (Hchild & Hroot & Hpar) tid Htid.
    apply verify_thread_silent. unfold node_consistent.
    split; [intros Hi; apply Hchild; lia|].
    destruct (decide (tid = 0)) as [->|Hne].
    + rewrite Hroot by lia. split; [lia|]. split; [done|]. done.
    + destruct (Hpar tid ltac:(lia)) as [Hr Hack].
      split; [lia|]. split; [|done]. split; [done|lia].
Qed.

Section HostVerify.
Context {F : Type} `{Scalar F}.

(** The check [rebuild] runs on the tree it has just built finds nothing
    to print (for a single leaf too). *)
Theorem rebuild_verify_silent (o : oracle) (b b' : Bvh F) (log : list op) :
  Bvh_sized b -> 1 <= num_leaves b <= 2 ^ 30 -> admissible o b ->
  rebuild o b = (log, Ok b') ->
  forall tid, 0 <= tid < num_total_nodes b ->
    verify_binary_radix_tree_kernel (num_leaves b) (left_nodes b')
      (right_nodes b') (parent_nodes b') tid = [].
Proof.
  intros Hsz Hn Hadm Hrun tid Htid.
  destruct (rebuild_result o b b' log Hsz Hn Hadm Hrun) as (Hvalid & _).
  apply verify_thread_silent.
  apply (valid_consistent _ _ _ _ _ _ Hvalid).
  rewrite (sz_total _ Hsz) in Htid. lia.
Qed.

End HostVerify.

Lemma rebuild_verify_silent_witness :
  exists b' : Bvh Z,
    snd (rebuild scene3_oracle scene3) = Ok b' /\
    forall tid, 0 <= tid < num_total_nodes scene3 ->
      verify_binary_radix_tree_kernel (num_leaves scene3) (left_nodes b')
        (right_nodes b') (parent_nodes b') tid = [].
Proof.
  destruct scene3_rebuild_ok as [b' Hb']. exists b'.
  split; [rewrite Hb'; reflexivity|].
  apply (rebuild_verify_silent scene3_oracle scene3 b'
           (fst (rebuild scene3_oracle scene3))).
  - exact scene3_sized.
  - exact scene3_range.
  - exact scene3_admissible.
  - exact Hb'.
Defined.


(** ** [kernels.py]: Morton codes

    [morton_encode] scales and clamps each coordinate to [0, 1023] in
    floating point and converts it to an integer; what follows is the
    integer part, on the three quantized coordinates. *)

(** On the 10-bit inputs [morton_encode] passes no shift leaves the 32
    bits of an [int]; the masks are given as bit patterns. *)
Definition interleave_double_zero (bits : Z) : Z :=
  let bits := Z.land (Z.lor bits (Z.shiftl bits 16)) 0xFF0000FF in
  let bits := Z.land (Z.lor bits (Z.shiftl bits 8)) 0x0F00F00F in
  let bits := Z.land (Z.lor bits (Z.shiftl bits 4)) 0xC30C30C3 in
  Z.land (Z.lor bits (Z.shiftl bits 2)) 0x49249249.

(** The return value of [morton_encode] for the quantized coordinates
    [int(p.x)], [int(p.y)], [int(p.z)]. *)
Definition morton_encode (x y z : Z) : Z :=
  let x00 := interleave_double_zero x in
  let y00 := interleave_double_zero y in
  let z00 := interleave_double_zero z in
  Z.shiftl x00 2 + Z.shiftl y00 1 + z00.

(** Bit [k] of the dilation of a 10-bit number. *)
Definition dilated_bit (bits k : Z) : bool :=
  if (k mod 3 =? 0) && (k / 3 <? 10) then Z.testbit bits (k / 3) else false.

Lemma interleave_table :
  forallb
    (fun b =>
       (0 <=? interleave_double_zero b)
       && (interleave_double_zero b <=? 0x09249249)
       && forallb
            (fun k =>
               Bool.eqb (Z.testbit (interleave_double_zero b) k)
                 (dilated_bit b k))
            (seqZ 0 32))
    (seqZ 0 1024) = true.
Proof. vm_compute. reflexivity. Qed.

Lemma forallb_seqZ (f : Z -> bool) (m n : Z) :
  forallb f (seqZ m n) = true -> forall x, m <= x < m + n -> f x = true.
Proof.
  intros Hall x Hx. rewrite forallb_forall in Hall. apply Hall.
  apply list_elem_of_In, elem_of_seqZ. lia.
Qed.

Lemma interleave_range bits :
  0 <= bits < 1024 -> 0 <= interleave_double_zero bits <= 0x09249249.
Proof.
  intros Hb.
  pose proof (forallb_seqZ _ _ _ interleave_table bits ltac:(lia)) as Ht.
  cbv beta in Ht. apply andb_prop in Ht as [Ht _].
  apply andb_prop in Ht as [H1 H2].
  apply Z.leb_le in H1. apply Z.leb_le in H2. lia.
Qed.

Lemma interleave_testbit bits k :
  0 <= bits < 1024 -> 0 <= k ->
  Z.testbit (interleave_double_zero bits) k = dilated_bit bits k.
Proof.
  intros Hb Hk.
  pose proof (forallb_seqZ _ _ _ interleave_table bits ltac:(lia)) as Ht.
  cbv beta in Ht. apply andb_prop in Ht as [_ Ht].
  destruct (decide (k < 32)) as [Hlt|Hge].
  - pose proof (forallb_seqZ _ _ _ Ht k ltac:(lia)) as Hk'.
    by apply Bool.eqb_prop in Hk'.
  - pose proof (interleave_range bits Hb) as Hr.
    unfold dilated_bit.
    assert (10 <= k / 3) by (apply Z.div_le_lower_bound; lia).
    destruct (Z.ltb_spec (k / 3) 10); [lia|]. rewrite andb_false_r.
    destruct (decide (interleave_double_zero bits = 0)) as [->|Hne].
    { apply Z.bits_0. }
    apply Z.bits_above_log2; [lia|].
    assert (Z.log2 (interleave_double_zero bits) < 28); [|lia].
    apply Z.log2_lt_pow2; [lia|].
    assert (0x09249249 < 2 ^ 28) by done. lia.
Qed.

Lemma interleave_spread (bits : Z) :
  0 <= bits < 1024 ->
  (forall j, 0 <= j ->
     Z.testbit (interleave_double_zero bits) (3 * j) = Z.testbit bits j) /\
  (forall k, k mod 3 <> 0 ->
     Z.testbit (interleave_double_zero bits) k = false).
Proof.
  intros Hb. split.
  - intros j Hj. rewrite interleave_testbit by lia. unfold dilated_bit.
    replace (3 * j) with (j * 3) by lia.
    rewrite Z.mod_mul, Z.div_mul by lia. simpl.
    destruct (Z.ltb_spec j 10); [done|].
    symmetry. destruct (decide (bits = 0)) as [->|Hne]; [apply Z.bits_0|].
    apply Z.bits_above_log2; [lia|].
    assert (Z.log2 bits < 10); [|lia].
    apply Z.log2_lt_pow2; lia.
  - intros k Hk. destruct (decide (0 <= k)) as [Hk0|Hk0].
    + rewrite interleave_testbit by lia. unfold dilated_bit.
      by destruct (Z.eqb_spec (k mod 3) 0).
    + apply Z.testbit_neg_r. lia.
Qed.

(** [interleave_double_zero] spreads the ten bits of its argument: bit
    [j] moves to bit [3j], every other bit of the result is zero. *)
Theorem interleave_double_zero_bits (bits : Z) :
  0 <= bits < 1024 ->
  (forall j, 0 <= j ->
     Z.testbit (interleave_double_zero bits) (3 * j) = Z.testbit bits j) /\
  (forall k, k mod 3 <> 0 ->
     Z.testbit (interleave_double_zero bits) k = false).
Proof. apply interleave_spread. Qed.

Ltac mod_lia := Z.div_mod_to_equations; lia.

Lemma add_disjoint a b : Z.land a b = 0 -> a + b = Z.lor a b.
Proof. intros Hd. by rewrite Z.add_nocarry_lxor, Z.lxor_lor. Qed.

Lemma morton_encode_lor x y z :
  0 <= x < 1024 -> 0 <= y < 1024 -> 0 <= z < 1024 ->
  morton_encode x y z
    = Z.lor (Z.lor (Z.shiftl (interleave_double_zero x) 2)
               (Z.shiftl (interleave_double_zero y) 1))
        (interleave_double_zero z).
Proof.
  intros Hx Hy Hz. unfold morton_encode. cbv zeta.
  destruct (interleave_spread x Hx) as [_ Hx0].
  destruct (interleave_spread y Hy) as [_ Hy0].
  destruct (interleave_spread z Hz) as [_ Hz0].
  rewrite (add_disjoint (Z.shiftl _ 2)).
  - apply add_disjoint. apply Z.bits_inj'. intros k Hk.
    rewrite Z.land_spec, Z.lor_spec, !Z.shiftl_spec, Z.bits_0 by done.
    destruct (decide (k mod 3 = 0)) as [Hm|Hm].
    + rewrite (Hx0 (k - 2)), (Hy0 (k - 1)) by mod_lia. done.
    + rewrite (Hz0 k) by done. apply andb_false_r.
  - apply Z.bits_inj'. intros k Hk.
    rewrite Z.land_spec, !Z.shiftl_spec, Z.bits_0 by done.
    destruct (decide ((k - 2) mod 3 = 0)) as [Hm|Hm].
    + rewrite (Hy0 (k - 1)) by mod_lia. apply andb_false_r.
    + by rewrite (Hx0 (k - 2)).
Qed.

Lemma morton_encode_bits_aux (x y z : Z) :
  0 <= x < 1024 -> 0 <= y < 1024 -> 0 <= z < 1024 ->
  forall j, 0 <= j ->
    Z.testbit (morton_encode x y z) (3 * j + 2) = Z.testbit x j /\
    Z.testbit (morton_encode x y z) (3 * j + 1) = Z.testbit y j /\
    Z.testbit (morton_encode x y z) (3 * j) = Z.testbit z j.
Proof.
  intros Hx Hy Hz j Hj. rewrite morton_encode_lor by done.
  destruct (interleave_spread x Hx) as [Hx1 Hx0].
  destruct (interleave_spread y Hy) as [Hy1 Hy0].
  destruct (interleave_spread z Hz) as [Hz1 Hz0].
  rewrite !Z.lor_spec, !Z.shiftl_spec by lia.
  replace (3 * j + 2 - 2) with (3 * j) by lia.
  replace (3 * j + 1 - 1) with (3 * j) by lia.
  rewrite Hx1, Hy1, Hz1 by done.
  rewrite (Hy0 (3 * j + 2 - 1)), (Hz0 (3 * j + 2)) by mod_lia.
  rewrite (Hx0 (3 * j + 1 - 2)), (Hz0 (3 * j + 1)) by mod_lia.
  rewrite (Hx0 (3 * j - 2)), (Hy0 (3 * j - 1)) by mod_lia.
  rewrite !orb_false_r. done.
Qed.

(** The code interleaves the bits of the three quantized coordinates,
    [x] uppermost, and has 30 bits. *)
Theorem morton_encode_bits (x y z : Z) :
  0 <= x < 1024 -> 0 <= y < 1024 -> 0 <= z < 1024 ->
  0 <= morton_encode x y z < 2 ^ 30 /\
  forall j, 0 <= j ->
    Z.testbit (morton_encode x y z) (3 * j + 2) = Z.testbit x j /\
    Z.testbit (morton_encode x y z) (3 * j + 1) = Z.testbit y j /\
    Z.testbit (morton_encode x y z) (3 * j) = Z.testbit z j.
Proof.
  intros Hx Hy Hz. split; [|by apply morton_encode_bits_aux].
  unfold morton_encode. cbv zeta.
  pose proof (interleave_range x Hx). pose proof (interleave_range y Hy).
  pose proof (interleave_range z Hz).
  rewrite !Z.shiftl_mul_pow2 by lia.
  change (2 ^ 2) with 4. change (2 ^ 1) with 2.
  assert (7 * 0x09249249 < 2 ^ 30) by done. lia.
Qed.

(** Different cells of the 1024^3 grid get different codes. *)
Theorem morton_encode_injective (x y z x' y' z' : Z) :
  0 <= x < 1024 -> 0 <= y < 1024 -> 0 <= z < 1024 ->
  0 <= x' < 1024 -> 0 <= y' < 1024 -> 0 <= z' < 1024 ->
  morton_encode x y z = morton_encode x' y' z' ->
  x = x' /\ y = y' /\ z = z'.
Proof.
  intros Hx Hy Hz Hx' Hy' Hz' Heq.
  pose proof (morton_encode_bits_aux x y z Hx Hy Hz) as Hb.
  pose proof (morton_encode_bits_aux x' y' z' Hx' Hy' Hz') as Hb'.
  rewrite Heq in Hb.
  repeat split; apply Z.bits_inj'; intros j Hj;
    destruct (Hb j Hj) as (H1 & H2 & H3);
    destruct (Hb' j Hj) as (H1' & H2' & H3'); congruence.
Qed.

Lemma interleave_double_zero_bits_witness :
  (forall j, 0 <= j ->
     Z.testbit (interleave_double_zero 0x2A5) (3 * j) = Z.testbit 0x2A5 j) /\
  (forall k, k mod 3 <> 0 ->
     Z.testbit (interleave_double_zero 0x2A5) k = false).
Proof. apply (interleave_double_zero_bits 0x2A5). lia. Defined.

Lemma morton_encode_bits_witness :
  0 <= morton_encode 5 1023 512 < 2 ^ 30 /\
  forall j, 0 <= j ->
    Z.testbit (morton_encode 5 1023 512) (3 * j + 2) = Z.testbit 5 j /\
    Z.testbit (morton_encode 5 1023 512) (3 * j + 1) = Z.testbit 1023 j /\
    Z.testbit (morton_encode 5 1023 512) (3 * j) = Z.testbit 512 j.
Proof. apply (morton_encode_bits 5 1023 512); lia. Defined.

Lemma morton_encode_injective_witness :
  morton_encode 5 9 2 = 1294 /\ (5 = 5 /\ 9 = 9 /\ 2 = 2).
Proof.
  split; [reflexivity|].
  apply (morton_encode_injective 5 9 2 5 9 2); [lia..|reflexivity].
Defined.
